(** * codecrafters-bittorrent-go: bencode codec, metainfo and peer wire client

    A shallow embedding of [cmd/mybittorrent/main.go] and the properties its
    specification states about it.

    Conventions of the embedding:
    - a Go [string] is a [string] (a sequence of 8-bit characters), a Go
      [[]byte] is a [list byte], and the conversions [[]byte(s)] and
      [string(b)] are [list_byte_of_string] and [string_of_list_byte];
    - a Go [int] is a [Z]; where the source can leave the 64-bit range the
      wrap-around is written with [wrap_int], and a [uint32] wraps with
      [wrap_uint32];
    - a Go [map[string]interface{}] is a [gmap string value];
    - a Go function returning [(T, error)] returns a [result T]; a run-time
      panic of the Go program (index or slice out of range, failed type
      assertion) is the outcome [Panic];
    - loops whose bound is not structural carry a fuel argument, and the
      entry points fix a fuel that is proved to be enough. *)

From Stdlib Require Import ZArith Strings.String Strings.Ascii Strings.Byte List Lia.
From Stdlib Require Import Numbers.DecimalString.
From Stdlib Require Numbers.DecimalPos.
From stdpp Require Import base option list gmap strings fin_maps sorting.

Import ListNotations.
Set Warnings "-register-all".
Local Open Scope string_scope.
Local Open Scope Z_scope.

(** ** Outcomes of Go code *)

Inductive error : Type :=
| ErrSyntax            (* strconv.ErrSyntax, wrapped in a *NumError *)
| ErrRange             (* strconv.ErrRange, wrapped in a *NumError *)
| ErrUnexpectedFormat  (* fmt.Errorf("unexpected format") *)
| ErrUnexpectedType    (* errors.New("unexpected type") *)
| ErrOpen              (* os.Open failed *)
| ErrEOF               (* io.EOF from a connection *)
| ErrWrite             (* a failed conn.Write *)
| Returned.            (* no Go error: [main] printed its own line and returned *)

Inductive panic : Type :=
| IndexOutOfRange      (* s[i] with i outside [0, len s) *)
| SliceOutOfRange      (* s[a:b] without 0 <= a <= b <= len s *)
| TypeAssertion        (* x.(T) on a value of another dynamic type, or nil *)
| LenOutOfRange.       (* make([]byte, n) with n < 0 *)

Inductive result (A : Type) : Type :=
| Ok (a : A)
| Err (e : error)
| Panic (p : panic)
| OutOfFuel.

Arguments Ok {A} a.
Arguments Err {A} e.
Arguments Panic {A} p.
Arguments OutOfFuel {A}.

Definition bind {A B : Type} (r : result A) (k : A -> result B) : result B :=
  match r with
  | Ok a => k a
  | Err e => Err e
  | Panic p => Panic p
  | OutOfFuel => OutOfFuel
  end.

Notation "'do' x <- r ; k" := (bind r (fun x => k))
  (at level 10, x name, r at level 100, k at level 200).
Notation "'do' ' p <- r ; k" := (bind r (fun x => let 'p := x in k))
  (at level 10, p pattern, r at level 100, k at level 200).

Definition is_ok {A : Type} (r : result A) : bool :=
  match r with Ok _ => true | _ => false end.

(** ** Integers *)

(** Go's [int] on the 64-bit platforms the program targets. *)
Definition int_min : Z := - 2 ^ 63.
Definition int_max : Z := 2 ^ 63 - 1.

Definition wrap_int (z : Z) : Z := (z + 2 ^ 63) mod 2 ^ 64 - 2 ^ 63.

Definition wrap_uint32 (z : Z) : Z := z mod 2 ^ 32.

(** ** Strings as byte sequences *)

Definition len (s : string) : Z := Z.of_nat (String.length s).

Definition code (a : ascii) : Z := Z.of_N (N_of_ascii a).

Fixpoint drop_str (n : nat) (s : string) : string :=
  match n, s with
  | O, _ => s
  | S _, EmptyString => EmptyString
  | S n', String _ r => drop_str n' r
  end.

Fixpoint take_str (n : nat) (s : string) : string :=
  match n, s with
  | O, _ => EmptyString
  | S _, EmptyString => EmptyString
  | S n', String a r => String a (take_str n' r)
  end.

(** [s[a:b]]: the bytes of [s] from [a] to [b], a panic unless
    [0 <= a <= b <= len s]. *)
Definition slice (s : string) (a b : Z) : result string :=
  if (0 <=? a) && (a <=? b) && (b <=? len s)
  then Ok (take_str (Z.to_nat (b - a)) (drop_str (Z.to_nat a) s))
  else Panic SliceOutOfRange.

(** [s[a:]]. *)
Definition slice_from (s : string) (a : Z) : result string :=
  slice s a (len s).

(** The scanning loop
    [for i := 0; i < len(s); i++ { if s[i] == c { idx = i; break } }]
    run from index [i]: the index of the first [c], if there is one. *)
Fixpoint first_index (c : ascii) (s : string) (i : Z) : option Z :=
  match s with
  | EmptyString => None
  | String a r => if Ascii.eqb a c then Some i else first_index c r (i + 1)
  end.

(** The loop leaves its index variable at the zero value when [c] does not
    occur. *)
Definition scan_index (c : ascii) (s : string) : Z :=
  match first_index c s 0 with
  | Some i => i
  | None => 0
  end.

(** [unicode.IsDigit(rune(b))] for a byte [b]: on Latin-1 only '0'..'9'. *)
Definition IsDigit (a : ascii) : bool :=
  (48 <=? code a) && (code a <=? 57).

(** [strings.HasPrefix] and [strings.TrimPrefix]. *)
Definition HasPrefix (s p : string) : bool := String.prefix p s.

Definition TrimPrefix (s p : string) : string :=
  if HasPrefix s p then drop_str (String.length p) s else s.

(** ** strconv.Atoi

    The library function, by its source: an optional sign, then at least one
    decimal digit and nothing else; the magnitude is accumulated in a
    [uint64] and a range error is reported as soon as it overflows, or at the
    end when the signed value does not fit an [int64]. *)

Definition maxUint64 : Z := 2 ^ 64 - 1.
Definition cutoff : Z := maxUint64 / 10 + 1.

Fixpoint ParseUint_loop (s : string) (n : Z) : result Z :=
  match s with
  | EmptyString => Ok n
  | String a r =>
      if IsDigit a then
        if cutoff <=? n then Err ErrRange
        else
          let n1 := n * 10 + (code a - 48) in
          if maxUint64 <? n1 then Err ErrRange else ParseUint_loop r n1
      else Err ErrSyntax
  end.

Definition ParseUint (s : string) : result Z :=
  match s with
  | EmptyString => Err ErrSyntax
  | _ => ParseUint_loop s 0
  end.

Definition Atoi (s : string) : result Z :=
  match s with
  | EmptyString => Err ErrSyntax
  | String a r =>
      let neg := Ascii.eqb a "-" in
      let body := if Ascii.eqb a "+" || neg then r else s in
      do un <- ParseUint body ;
      if negb neg && (2 ^ 63 <=? un) then Err ErrRange
      else if neg && (2 ^ 63 <? un) then Err ErrRange
      else Ok (if neg then - un else un)
  end.

(** ** Bencode values

    The dynamic types held by the [interface{}] values of the codec. *)

Inductive value : Type :=
| VStr (s : string)
| VInt (n : Z)
| VList (l : list value)
| VDict (m : gmap string value).

(** ** decodeBencode *)

Fixpoint decodeBencode_fuel (fuel : nat) (bencodedString : string)
  : result (value * Z) :=
  match fuel with
  | O => OutOfFuel
  | S fuel' =>
    match bencodedString with
    | EmptyString => Panic IndexOutOfRange
    | String c0 _ =>
      if IsDigit c0 then
        let firstColonIndex := scan_index ":" bencodedString in
        do lengthStr <- slice bencodedString 0 firstColonIndex ;
        do length <- Atoi lengthStr ;
        let untilIndex := wrap_int (firstColonIndex + 1 + length) in
        do str <- slice bencodedString (firstColonIndex + 1) untilIndex ;
        Ok (VStr str, untilIndex)
      else if HasPrefix bencodedString "i" then
        let endIndex := scan_index "e" bencodedString in
        do numStr <- slice bencodedString 1 endIndex ;
        do num <- Atoi numStr ;
        Ok (VInt num, endIndex + 1)
      else if HasPrefix bencodedString "l" then
        list_loop fuel' (TrimPrefix bencodedString "l") [] 0
      else if HasPrefix bencodedString "d" then
        dict_loop fuel' (TrimPrefix bencodedString "d") ∅ "" 0
      else Err ErrUnexpectedFormat
    end
  end

with list_loop (fuel : nat) (in_ : string) (ret : list value) (untilIndex : Z)
  : result (value * Z) :=
  match fuel with
  | O => OutOfFuel
  | S fuel' =>
    match in_ with
    | EmptyString => Panic IndexOutOfRange
    | String c0 _ =>
      if Ascii.eqb c0 "e" then Ok (VList ret, untilIndex + 1)
      else
        do '(decoded, nextIndex) <- decodeBencode_fuel fuel' in_ ;
        do in' <- slice_from in_ nextIndex ;
        list_loop fuel' in' (ret ++ [decoded])%list (untilIndex + nextIndex)
    end
  end

with dict_loop (fuel : nat) (in_ : string) (ret : gmap string value)
               (key : string) (untilIndex : Z)
  : result (value * Z) :=
  match fuel with
  | O => OutOfFuel
  | S fuel' =>
    match in_ with
    | EmptyString => Panic IndexOutOfRange
    | String c0 _ =>
      if Ascii.eqb c0 "e" then Ok (VDict ret, untilIndex + 1)
      else
        do '(decoded, nextIndex) <- decodeBencode_fuel fuel' in_ ;
        do '(ret', key') <-
          (if String.eqb key "" then
             match decoded with
             | VStr s => Ok (ret, s)
             | _ => Panic TypeAssertion
             end
           else Ok (<[key := decoded]> ret, "")) ;
        do in' <- slice_from in_ nextIndex ;
        dict_loop fuel' in' ret' key' (untilIndex + nextIndex)
    end
  end.

(** Every call made by a call on [s] is on a string no longer than [s], and
    the two loops are entered on strictly shorter ones, so twice the length
    bounds the depth of the calls. *)
Definition decode_fuel_for (s : string) : nat := 2 * String.length s + 1.

Definition decodeBencode (bencodedString : string) : result (value * Z) :=
  decodeBencode_fuel (decode_fuel_for bencodedString) bencodedString.

(** ** bencode *)

(** [%d] of [fmt.Sprintf]: the decimal digits, with a leading [-] below
    zero. *)
Definition FormatInt (n : Z) : string :=
  DecimalString.NilZero.string_of_int (Z.to_int n).

(** [sort.Strings]: the keys in ascending byte-wise order.  Strings compare
    byte by byte in Go, which is [String.le]; the sorted arrangement of a
    list is unique, so the sorting algorithm is immaterial. *)
Definition sort_Strings (keys : list string) : list string :=
  merge_sort String.le keys.

(** The [case string] branch, also run on each key of a dictionary. *)
Definition bencode_string (str : string) : string :=
  FormatInt (len str) +:+ ":" +:+ str.

(** The body of the loop over the sorted keys; [enc] holds [bencode(m[key])]
    for every key, and a key that is not bound gives the nil interface,
    which no case of the type switch takes. *)
Fixpoint bencode_entries (enc : gmap string (result string))
    (keys : list string) (joined : string) : result string :=
  match keys with
  | [] => Ok joined
  | key :: rest =>
      let bencodedKey := bencode_string key in
      do bencodedValue <- default (Err ErrUnexpectedType) (enc !! key) ;
      bencode_entries enc rest (joined +:+ bencodedKey +:+ bencodedValue)
  end.

(** The [case map[string]interface{}] branch; [keys] are the keys in the
    order in which [range] yields them, which Go leaves unspecified. *)
Definition bencode_dict (enc : gmap string (result string))
    (keys : list string) : result string :=
  let keys := sort_Strings keys in
  do joined <- bencode_entries enc keys "" ;
  Ok ("d" +:+ joined +:+ "e").

(** The body of the loop over the items of a list; [enc] is [bencode]
    itself. *)
Section bencode_items.
Variable enc : value -> result string.

Fixpoint bencode_items (items : list value) (joined : string)
  : result string :=
  match items with
  | [] => Ok joined
  | item :: rest =>
      do bencoded <- enc item ;
      bencode_items rest (joined +:+ bencoded)
  end.
End bencode_items.

Fixpoint bencode (i : value) : result string :=
  match i with
  | VStr str => Ok (bencode_string str)
  | VInt num => Ok ("i" +:+ FormatInt num +:+ "e")
  | VList items =>
      do joined <- bencode_items bencode items "" ;
      Ok ("l" +:+ joined +:+ "e")
  | VDict m => bencode_dict (bencode <$> m) (map fst (map_to_list m))
  end.

(** The number of constructors of a value, the measure for induction on
    values. *)
Fixpoint value_size (v : value) : nat :=
  match v with
  | VStr _ | VInt _ => 1
  | VList l => S (list_sum (map value_size l))
  | VDict m => S (map_fold (fun _ v acc => (value_size v + acc)%nat) 0%nat m)
  end.

(** ** Bytes and big-endian words *)

Definition byte_val (b : byte) : Z := Z.of_N (Byte.to_N b).

(** [byte(z)]: the low eight bits. *)
Definition byte_of (z : Z) : byte :=
  default x00 (Byte.of_N (Z.to_N (z mod 256))).

(** [binary.BigEndian.Uint32] on four bytes. *)
Definition be_word (b0 b1 b2 b3 : byte) : Z :=
  Z.lor (Z.lor (Z.lor (byte_val b3) (Z.shiftl (byte_val b2) 8))
               (Z.shiftl (byte_val b1) 16))
        (Z.shiftl (byte_val b0) 24).

(** [binary.BigEndian.Uint32(b)]; the library reads [b[3]] first, which
    panics on a shorter slice. *)
Definition BigEndian_Uint32 (b : list byte) : result Z :=
  match b with
  | b0 :: b1 :: b2 :: b3 :: _ => Ok (be_word b0 b1 b2 b3)
  | _ => Panic IndexOutOfRange
  end.

(** The four bytes [binary.BigEndian.PutUint32] stores for [v]. *)
Definition be_bytes (v : Z) : list byte :=
  [byte_of (Z.shiftr v 24); byte_of (Z.shiftr v 16);
   byte_of (Z.shiftr v 8); byte_of v].

(** ** crypto/sha1

    [sha1.Sum] of the Go library, by FIPS 180-4: the message is padded to a
    multiple of 64 bytes and each block of sixteen big-endian words updates
    the five-word state through eighty rounds. *)
Module SHA1.

Definition Size : nat := 20.

Definition rotl (n x : Z) : Z :=
  Z.lor (wrap_uint32 (Z.shiftl x n)) (Z.shiftr x (32 - n)).

Definition add32 (a b : Z) : Z := wrap_uint32 (a + b).

Definition not32 (x : Z) : Z := Z.lxor x 4294967295.

Definition padding (msg : list byte) : list byte :=
  let n := Z.of_nat (length msg) in
  let zeros := Z.to_nat ((55 - n) mod 64) in
  (x80 :: repeat x00 zeros
     ++ be_bytes (Z.shiftr (8 * n) 32) ++ be_bytes (8 * n))%list.

Fixpoint words (l : list byte) : list Z :=
  match l with
  | b0 :: b1 :: b2 :: b3 :: r => be_word b0 b1 b2 b3 :: words r
  | _ => []
  end.

Fixpoint blocks (k : nat) (ws : list Z) : list (list Z) :=
  match k with
  | O => []
  | S k' => take 16 ws :: blocks k' (drop 16 ws)
  end.

(** The message schedule, most recent word first. *)
Fixpoint schedule (k : nat) (rw : list Z) : list Z :=
  match k with
  | O => rw
  | S k' =>
      let w := rotl 1 (Z.lxor (Z.lxor (Z.lxor (nth 2 rw 0) (nth 7 rw 0))
                                      (nth 13 rw 0)) (nth 15 rw 0)) in
      schedule k' (w :: rw)
  end.

Definition state : Type := (Z * Z * Z * Z * Z)%type.

Definition init : state :=
  (1732584193, 4023233417, 2562383102, 271733878, 3285377520).

Definition round (t : Z) (st : state) (w : Z) : state :=
  let '(a, b, c, d, e) := st in
  let '(f, k) :=
    if t <? 20 then (Z.lor (Z.land b c) (Z.land (not32 b) d), 1518500249)
    else if t <? 40 then (Z.lxor (Z.lxor b c) d, 1859775393)
    else if t <? 60 then
      (Z.lor (Z.lor (Z.land b c) (Z.land b d)) (Z.land c d), 2400959708)
    else (Z.lxor (Z.lxor b c) d, 3395469782) in
  let temp := add32 (add32 (add32 (add32 (rotl 5 a) f) e) k) w in
  (temp, a, rotl 30 b, c, d).

Fixpoint rounds (t : Z) (ws : list Z) (st : state) : state :=
  match ws with
  | [] => st
  | w :: r => rounds (t + 1) r (round t st w)
  end.

Definition block (st : state) (ws : list Z) : state :=
  let '(h0, h1, h2, h3, h4) := st in
  let '(a, b, c, d, e) := rounds 0 (rev (schedule 64 (rev ws))) st in
  (add32 h0 a, add32 h1 b, add32 h2 c, add32 h3 d, add32 h4 e).

Definition digest (st : state) : list byte :=
  let '(h0, h1, h2, h3, h4) := st in
  (be_bytes h0 ++ be_bytes h1 ++ be_bytes h2 ++ be_bytes h3
     ++ be_bytes h4)%list.

Definition Sum (data : list byte) : list byte :=
  let padded := (data ++ padding data)%list in
  let ws := words padded in
  digest (fold_left block (blocks (length ws / 16) ws) init).

End SHA1.

(** [%x] of [fmt.Sprintf] on a string: two lower-case hexadecimal digits for
    every byte. *)
Definition hex_digit (n : Z) : ascii :=
  ascii_of_N (Z.to_N (if n <? 10 then 48 + n else 87 + n)).

Fixpoint hex (s : string) : string :=
  match s with
  | EmptyString => EmptyString
  | String a r =>
      String (hex_digit (code a / 16)) (String (hex_digit (code a mod 16)) (hex r))
  end.

Definition newline : string := String (ascii_of_N 10) EmptyString.

(** ** Metainfo *)

Record Info : Type := mkInfo {
  TrackerURL : string;
  Length : Z;
  InfoHash : list byte;
  PieceLength : Z;
  PieceHashes : string
}.

Definition eachPieceSize : Z := 20.

(** The files [os.Open] and [io.ReadAll] can read: the content of a path, or
    nothing when either call fails. *)
Definition filesystem : Type := string -> option string.

(** The unchecked type assertions [m[k].(T)]: a missing key gives the nil
    interface, and the assertion panics on nil as on any other type. *)
Definition assert_dict (x : option value) : result (gmap string value) :=
  match x with Some (VDict m) => Ok m | _ => Panic TypeAssertion end.

Definition assert_string (x : option value) : result string :=
  match x with Some (VStr s) => Ok s | _ => Panic TypeAssertion end.

Definition assert_int (x : option value) : result Z :=
  match x with Some (VInt n) => Ok n | _ => Panic TypeAssertion end.

Definition decodeTorrentFile (fs : filesystem) (filepath : string)
  : result (gmap string value) :=
  match fs filepath with
  | None => Err ErrOpen
  | Some content =>
      do '(decoded, _) <- decodeBencode content ;
      assert_dict (Some decoded)
  end.

(** The loop [for i := 0; i < len(pieceStr); i += eachPieceSize] that
    appends the hexadecimal form of each 20-byte slice and a newline. *)
Fixpoint pieces_loop (fuel : nat) (pieceStr : string) (i : Z) (hashes : string)
  : result string :=
  if i <? len pieceStr then
    match fuel with
    | O => OutOfFuel
    | S fuel' =>
        do chunk <- slice pieceStr i (i + eachPieceSize) ;
        pieces_loop fuel' pieceStr (i + eachPieceSize)
                    (hashes +:+ hex chunk +:+ newline)
    end
  else Ok hashes.

Definition parseToInfo (fs : filesystem) (torrentFilepath : string)
  : result Info :=
  do decoded <- decodeTorrentFile fs torrentFilepath ;
  do metaInfo <- assert_dict (decoded !! "info") ;
  do announce <- assert_string (decoded !! "announce") ;
  do length <- assert_int (metaInfo !! "length") ;
  do pieceLength <- assert_int (metaInfo !! "piece length") ;
  do bencoded <- bencode (VDict metaInfo) ;
  let infoHash := SHA1.Sum (list_byte_of_string bencoded) in
  do pieceStr <- assert_string (metaInfo !! "pieces") ;
  do pieceHashes <- pieces_loop (String.length pieceStr) pieceStr 0 "" ;
  Ok {| TrackerURL := announce; Length := length; InfoHash := infoHash;
        PieceLength := pieceLength; PieceHashes := pieceHashes |}.

(** ** The connection and the other effects of [main]

    The peer's side of the connection is the sequence of segments in which
    its bytes arrive: a [Read] returns at most one segment, cut to the size
    of the buffer, and the rest of the segment stays for the next [Read].
    Every effect is appended to a trace, most recent first. *)

Inductive event : Type :=
| EvWrite (data : list byte)                (* conn.Write(data) *)
| EvRead (size : Z)                         (* conn.Read on a buffer of [size] bytes *)
| EvPrintln (line : string)                 (* fmt.Println / fmt.Printf of a line *)
| EvPrintErr (e : error)                    (* fmt.Println(err) *)
| EvWriteFile (path : string) (data : list byte).   (* os.WriteFile *)

Record world : Type := mkWorld {
  incoming : list (list byte);
  writes_left : option nat;   (* [Some n]: the connection fails after [n] more writes *)
  trace : list event
}.

Definition io (A : Type) : Type := world -> result A * world.

Definition io_ret {A : Type} (a : A) : io A := fun w => (Ok a, w).

Definition io_lift {A : Type} (r : result A) : io A := fun w => (r, w).

Definition io_bind {A B : Type} (m : io A) (k : A -> io B) : io B :=
  fun w =>
    match m w with
    | (Ok a, w') => k a w'
    | (Err e, w') => (Err e, w')
    | (Panic p, w') => (Panic p, w')
    | (OutOfFuel, w') => (OutOfFuel, w')
    end.

Notation "'run' x <- m ; k" := (io_bind m (fun x => k))
  (at level 10, x name, m at level 100, k at level 200).

Definition log (e : event) : io unit :=
  fun w => (Ok tt, {| incoming := incoming w; writes_left := writes_left w;
                      trace := e :: trace w |}).

(** [make([]byte, n)]. *)
Definition make (n : Z) : list byte := repeat x00 (Z.to_nat n).

(** [conn.Read(buf)] on a fresh buffer of [size] bytes: the buffer after the
    call.  A buffer of no bytes is returned at once; a connection with
    nothing more to deliver, or a segment of no bytes, reports [io.EOF]. *)
Definition conn_Read (size : Z) : io (list byte) :=
  run _ <- log (EvRead size) ;
  fun w =>
    if size =? 0 then (Ok [], w)
    else
      match incoming w with
      | [] | [] :: _ => (Err ErrEOF, w)
      | seg :: rest =>
          let got := take (Z.to_nat size) seg in
          let left := drop (Z.to_nat size) seg in
          (Ok (got ++ repeat x00 (Z.to_nat size - length got))%list,
           {| incoming := match left with [] => rest | _ => left :: rest end;
              writes_left := writes_left w;
              trace := trace w |})
      end.

Definition conn_Write (data : list byte) : io unit :=
  fun w =>
    match writes_left w with
    | Some O => (Err ErrWrite, w)
    | Some (S n) =>
        (Ok tt, {| incoming := incoming w; writes_left := Some n;
                   trace := EvWrite data :: trace w |})
    | None =>
        (Ok tt, {| incoming := incoming w; writes_left := None;
                   trace := EvWrite data :: trace w |})
    end.

(** ** handshake *)

Definition protocolStrLengthStr : string := String (ascii_of_N 19) EmptyString.
Definition protocolStr : string := "BitTorrent protocol".
Definition reservedBytesStr : string := "00000000".
Definition peerID : string := "00112233445566778899".

Definition handshake_message (info : Info) : string :=
  let infoHash := string_of_list_byte (InfoHash info) in
  protocolStrLengthStr +:+ protocolStr +:+ reservedBytesStr +:+ infoHash
    +:+ peerID.

Definition handshake (fs : filesystem) (torrentFilepath : string)
  : io (list byte) :=
  run info <- io_lift (parseToInfo fs torrentFilepath) ;
  let handshake := handshake_message info in
  run _ <- conn_Write (list_byte_of_string handshake) ;
  run buf <- conn_Read (len handshake) ;
  io_ret (drop (Z.to_nat (len handshake - len peerID)) buf).

(** ** Peer messages *)

Definition choke : byte := x00.
Definition unchoke : byte := x01.
Definition interested : byte := x02.
Definition notInterestedNot : byte := x03.
Definition have : byte := x04.
Definition bitfield : byte := x05.
Definition request : byte := x06.
Definition piece : byte := x07.
Definition cancel : byte := x08.

Definition messageLengthLen : Z := 4.
Definition messageIDLen : Z := 1.

(** The size of the payload buffer, [messageLength-messageIDLen]: a
    subtraction of [uint32] values. *)
Definition payload_size (messageLength : Z) : Z :=
  wrap_uint32 (messageLength - messageIDLen).

(** One turn of the loop of [waitPeerMessage]: the payload when the message
    read has the awaited id, nothing when the loop goes round again. *)
Definition waitPeerMessage_turn (expid : byte) : io (option (list byte)) :=
  run messageLengthBuf <- conn_Read messageLengthLen ;
  run messageIDBuf <- conn_Read messageIDLen ;
  run messageLength <- io_lift (BigEndian_Uint32 messageLengthBuf) ;
  let size := payload_size messageLength in
  run messageID <-
    io_lift (match messageIDBuf with
             | b :: _ => Ok b
             | [] => Err ErrEOF
             end) ;
  run payloadBuf <- conn_Read size ;
  io_ret (if Byte.eqb messageID expid then Some payloadBuf else None).

Fixpoint waitPeerMessage_fuel (fuel : nat) (expid : byte) : io (list byte) :=
  match fuel with
  | O => io_lift OutOfFuel
  | S fuel' =>
      run r <- waitPeerMessage_turn expid ;
      match r with
      | Some payloadBuf => io_ret payloadBuf
      | None => waitPeerMessage_fuel fuel' expid
      end
  end.

(** Every turn takes at least one byte of the incoming stream or fails, so
    the number of bytes still to arrive bounds the turns. *)
Definition pending (w : world) : nat :=
  list_sum (map (fun seg => length seg) (incoming w)).

Definition waitPeerMessage (expid : byte) : io (list byte) :=
  fun w => waitPeerMessage_fuel (S (pending w)) expid w.

(** The buffer [sendPeerMessage] fills: length, id, payload. *)
Definition message_bytes (id : byte) (payload : list byte) : list byte :=
  (be_bytes (wrap_uint32 (messageIDLen + Z.of_nat (length payload)))
     ++ [id] ++ payload)%list.

Definition sendPeerMessage (id : byte) (payload : list byte) : io unit :=
  conn_Write (message_bytes id payload).

(** ** The [download_piece] command of [main] *)

Definition blockSize : Z := 16 * 1024.

(** [b[lo:hi]] on a byte slice whose capacity is its length. *)
Definition slice_bytes (b : list byte) (lo hi : Z) : result (list byte) :=
  if (0 <=? lo) && (lo <=? hi) && (hi <=? Z.of_nat (length b))
  then Ok (take (Z.to_nat (hi - lo)) (drop (Z.to_nat lo) b))
  else Panic SliceOutOfRange.

(** [copy(dst[begin:], src)]: as many bytes as fit are copied. *)
Definition copy_at (dst : list byte) (begin : Z) (src : list byte)
  : result (list byte) :=
  if (0 <=? begin) && (begin <=? Z.of_nat (length dst)) then
    let room := (length dst - Z.to_nat begin)%nat in
    let n := Nat.min room (length src) in
    Ok (take (Z.to_nat begin) dst ++ take n src
          ++ drop (Z.to_nat begin + n) dst)%list
  else Panic SliceOutOfRange.

(** The twelve bytes of a [request]: index, begin and length, each by
    [binary.BigEndian.PutUint32]. *)
Definition request_payload (pieceIdx offset : Z) : list byte :=
  (be_bytes (wrap_uint32 pieceIdx) ++ be_bytes (wrap_uint32 offset)
     ++ be_bytes blockSize)%list.

(** The request loop: [offset] is advanced before the request is written,
    and [count] is advanced after the test that leaves the loop. *)
Fixpoint request_loop (fuel : nat) (pieceIdx pieceLength offset count : Z)
  : io Z :=
  match fuel with
  | O => io_lift OutOfFuel
  | S fuel' =>
      let offset := wrap_int (offset + blockSize) in
      let payload := request_payload pieceIdx offset in
      run _ <- sendPeerMessage request payload ;
      if pieceLength <=? offset then io_ret count
      else request_loop fuel' pieceIdx pieceLength offset (count + 1)
  end.

(** The loop [for i := 0; i < count; i++] that waits for the blocks. *)
Fixpoint receive_loop (count : nat) (pieceIdx : Z) (combinedBlock : list byte)
  : io (list byte) :=
  match count with
  | O => io_ret combinedBlock
  | S count' =>
      run payload <- waitPeerMessage piece ;
      run index <- io_lift (do b <- slice_bytes payload 0 4 ;
                            BigEndian_Uint32 b) ;
      if negb (index =? wrap_uint32 pieceIdx) then
        run _ <- log (EvPrintln ("unexpected index. exp: " +:+ FormatInt pieceIdx
                                   +:+ ", got: " +:+ FormatInt index)) ;
        io_lift (Err Returned)
      else
        run begin <- io_lift (do b <- slice_bytes payload 4 8 ;
                              BigEndian_Uint32 b) ;
        run block <- io_lift (slice_bytes payload 8
                                (Z.of_nat (length payload))) ;
        run combinedBlock' <- io_lift (copy_at combinedBlock begin block) ;
        receive_loop count' pieceIdx combinedBlock'
  end.

(** The check of the assembled piece and the write of the output file. *)
Definition verify_and_write (info : Info) (outputFilepath : string)
    (combinedBlock : list byte) : io unit :=
  let sum := SHA1.Sum combinedBlock in
  let sumStr := string_of_list_byte sum in
  if negb (String.eqb sumStr (PieceHashes info)) then
    run _ <- log (EvPrintln "invalid piece hash") ;
    io_lift (Err Returned)
  else log (EvWriteFile outputFilepath combinedBlock).

Definition request_fuel (pieceLength : Z) : nat :=
  S (Z.to_nat (pieceLength / blockSize)).

(** The command from the connection on: the tracker query and [net.Dial]
    are outside the model and taken to have succeeded. *)
Definition download_piece_body (fs : filesystem)
    (outputFilepath torrentFilepath : string) (pieceIdx : Z) : io unit :=
  run info <- io_lift (parseToInfo fs torrentFilepath) ;
  run _ <- handshake fs torrentFilepath ;
  run _ <- waitPeerMessage bitfield ;
  run _ <- sendPeerMessage interested [] ;
  run _ <- waitPeerMessage unchoke ;
  run count <- request_loop (request_fuel (PieceLength info)) pieceIdx
                 (PieceLength info) 0 0 ;
  run combinedBlock <-
    io_lift (if PieceLength info <? 0 then Panic LenOutOfRange
             else Ok (make (PieceLength info))) ;
  run combinedBlock <- receive_loop (Z.to_nat count) pieceIdx combinedBlock ;
  verify_and_write info outputFilepath combinedBlock.

(** Each failing step of the command ends in [fmt.Println(err); return]. *)
Definition download_piece (fs : filesystem)
    (outputFilepath torrentFilepath : string) (pieceIdx : Z) : io unit :=
  fun w =>
    match download_piece_body fs outputFilepath torrentFilepath pieceIdx w with
    | (Err Returned, w') => (Ok tt, w')
    | (Err e, w') => log (EvPrintErr e) w'
    | r => r
    end.

(** ** Notions of the statements *)

(** A connection on which nothing was done yet and every write succeeds. *)
Definition fresh_world (segments : list (list byte)) : world :=
  {| incoming := segments; writes_left := None; trace := [] |}.

(** The dictionary a torrent file decodes to, empty when it does not. *)
Definition decoded_of (fs : filesystem) (p : string) : gmap string value :=
  match decodeTorrentFile fs p with
  | Ok decoded => decoded
  | _ => ∅
  end.

(** The dictionary bound to [info], empty when there is none. *)
Definition info_of (decoded : gmap string value) : gmap string value :=
  match decoded !! "info" with
  | Some (VDict metaInfo) => metaInfo
  | _ => ∅
  end.

(** The keys [parseToInfo] reads, bound to values of the kinds it asserts. *)
Definition required_fields (decoded : gmap string value)
    (url : string) (l pl : Z) (pieces : string) : Prop :=
  exists metaInfo,
    decoded !! "info" = Some (VDict metaInfo)
    /\ decoded !! "announce" = Some (VStr url)
    /\ metaInfo !! "length" = Some (VInt l)
    /\ metaInfo !! "piece length" = Some (VInt pl)
    /\ metaInfo !! "pieces" = Some (VStr pieces).

(** The text a dictionary contributes between [d] and [e]: each key, as a
    byte-string, followed by the encoding of its value. *)
Fixpoint entries_text (ks : list string) (evs : list string) : string :=
  match ks, evs with
  | k :: ks', ev :: evs' => bencode_string k +:+ ev +:+ entries_text ks' evs'
  | _, _ => ""
  end.

(** The events of [k] requests written from offset [offset] on, most recent
    first: the request number [j] begins at [offset + j * blockSize]. *)
Definition request_events (pieceIdx offset : Z) (k : nat) : list event :=
  rev (map (fun j =>
              EvWrite (message_bytes request
                         (request_payload pieceIdx
                            (offset + Z.of_nat j * blockSize))))
           (seq 1 k)).

(** ** Sample inputs *)

(** A file system holding one file. *)
Definition one_file (path content : string) : filesystem :=
  fun p => if String.eqb p path then Some content else None.

Definition sample_pieces : string := "0123456789abcdefghij0123456789ABCDEFGHIJ".

Definition sample_info : string :=
  "d6:lengthi100e4:name1:f12:piece lengthi64e6:pieces40:" +:+ sample_pieces
    +:+ "e".

Definition sample_torrent : string :=
  "d8:announce14:http://tracker4:info" +:+ sample_info +:+ "e".

Definition sample_fs : filesystem := one_file "sample.torrent" sample_torrent.

(** The same [info], another tracker. *)
Definition other_torrent : string :=
  "d8:announce12:http://other4:info" +:+ sample_info +:+ "e".

Definition other_fs : filesystem := one_file "other.torrent" other_torrent.

(** A torrent without [announce], and one whose table of piece hashes has
    three bytes. *)
Definition no_announce_torrent : string :=
  "d4:infod6:lengthi1e12:piece lengthi1e6:pieces0:ee".

Definition short_pieces_torrent : string :=
  "d8:announce1:u4:infod6:lengthi1e12:piece lengthi1e6:pieces3:abcee".

(** A piece of eight bytes, the torrent that describes it, and a peer that
    sends it as two blocks of four bytes. *)
Definition piece_data : list byte := list_byte_of_string "abcdefgh".

Definition piece_torrent : string :=
  "d8:announce14:http://tracker4:infod6:lengthi8e4:name1:f12:piece lengthi8e6:pieces20:"
    +:+ string_of_list_byte (SHA1.Sum piece_data) +:+ "ee".

Definition piece_fs : filesystem := one_file "piece.torrent" piece_torrent.

Definition piece_blocks : list byte :=
  (message_bytes piece
     (be_bytes 0 ++ be_bytes 0 ++ list_byte_of_string "abcd")
   ++ message_bytes piece
        (be_bytes 0 ++ be_bytes 4 ++ list_byte_of_string "efgh"))%list.

(** The number a sequence of decimal digits writes, read from the left with
    [acc] for the digits already read. *)
Fixpoint uint_val (d : Decimal.uint) (acc : Z) : Z :=
  match d with
  | Decimal.Nil => acc
  | Decimal.D0 l => uint_val l (acc * 10 + 0)
  | Decimal.D1 l => uint_val l (acc * 10 + 1)
  | Decimal.D2 l => uint_val l (acc * 10 + 2)
  | Decimal.D3 l => uint_val l (acc * 10 + 3)
  | Decimal.D4 l => uint_val l (acc * 10 + 4)
  | Decimal.D5 l => uint_val l (acc * 10 + 5)
  | Decimal.D6 l => uint_val l (acc * 10 + 6)
  | Decimal.D7 l => uint_val l (acc * 10 + 7)
  | Decimal.D8 l => uint_val l (acc * 10 + 8)
  | Decimal.D9 l => uint_val l (acc * 10 + 9)
  end.

(** Byte-strings and integers that fit Go's types: the encoding of the
    byte-string has a length that is an [int], the integer is an [int]. *)
Definition scalar (v : value) : Prop :=
  match v with
  | VStr s => len (bencode_string s) <= int_max
  | VInt n => int_min <= n <= int_max
  | _ => False
  end.

(** The encoding of a scalar. *)
Definition scalar_text (v : value) : string :=
  match v with
  | VStr s => bencode_string s
  | VInt n => "i" +:+ FormatInt n +:+ "e"
  | _ => ""
  end.

Fixpoint scalars_text (l : list value) : string :=
  match l with
  | [] => ""
  | v :: r => scalar_text v +:+ scalars_text r
  end.

(** A key the dictionary loop can tell from its mark for "no key". *)
Definition key_ok (k : string) : Prop :=
  k <> "" /\ len (bencode_string k) <= int_max.

Fixpoint pairs_text (kvs : list (string * value)) : string :=
  match kvs with
  | [] => ""
  | (k, v) :: r => bencode_string k +:+ scalar_text v +:+ pairs_text r
  end.

(** A run of [d] closing [e]. *)
Fixpoint e_run (d : nat) : string :=
  match d with
  | O => ""
  | S d' => String "e" (e_run d')
  end.

(** Values whose lists and dictionaries hold scalars, except for the last
    item of a list and the value of the greatest key of a dictionary, which
    may be such a value again; no key is empty.  [d] is the depth of the
    nesting. *)
Inductive last_nested : value -> nat -> Prop :=
| ln_scalar v : scalar v -> last_nested v 0
| ln_list_nil : last_nested (VList []) 1
| ln_list l v d :
    Forall scalar l -> last_nested v d ->
    last_nested (VList (l ++ [v])) (S d)
| ln_dict_empty : last_nested (VDict ∅) 1
| ln_dict (m : gmap string value) kvs k v d :
    map fst (kvs ++ [(k, v)]) = sort_Strings (map fst (map_to_list m)) ->
    Forall (fun kv => m !! kv.1 = Some kv.2) (kvs ++ [(k, v)]) ->
    Forall (fun kv => key_ok kv.1 /\ scalar kv.2) kvs ->
    key_ok k -> last_nested v d ->
    last_nested (VDict m) (S d).

(** The dictionary after the assignments [ret[k] = v] for the pairs of
    [kvs], in order. *)
Definition assign_all (ret : gmap string value) (kvs : list (string * value))
  : gmap string value :=
  foldl (fun acc kv => <[kv.1 := kv.2]> acc) ret kvs.

(** The failures [decodeBencode] can end in: the two errors of
    [strconv.Atoi] and "unexpected format"; an index, a slice or a type
    assertion that panics. *)
Definition decode_failure {A : Type} (r : result A) : Prop :=
  match r with
  | Err e => e = ErrSyntax \/ e = ErrRange \/ e = ErrUnexpectedFormat
  | Panic p => p = IndexOutOfRange \/ p = SliceOutOfRange \/ p = TypeAssertion
  | _ => True
  end.

Definition is_container (v : value) : bool :=
  match v with
  | VList _ | VDict _ => true
  | _ => false
  end.

(** The characters [%d] writes for a number that is not negative. *)
Definition digits_of (n : Z) : Decimal.uint :=
  match n with
  | Z.pos p => Pos.to_uint p
  | _ => Decimal.zero
  end.

(** The first [k] slices of [n] bytes of [s]. *)
Fixpoint chunks (n k : nat) (s : string) : list string :=
  match k with
  | O => []
  | S k' => take_str n s :: chunks n k' (drop_str n s)
  end.

(** One line for each digest: its hexadecimal form and a newline. *)
Fixpoint hash_lines (digests : list string) : string :=
  match digests with
  | [] => ""
  | d :: r => hex d +:+ newline +:+ hash_lines r
  end.

(** What is still to arrive after a [Read] took the front of a segment:
    the bytes left of the segment, if any, and the later segments. *)
Definition arrived (left : list byte) (rest : list (list byte))
  : list (list byte) :=
  match left with
  | [] => rest
  | _ => left :: rest
  end.

(** The bytes of a sequence of messages as [sendPeerMessage] writes them. *)
Definition frames (msgs : list (byte * list byte)) : list byte :=
  concat (map (fun m => message_bytes m.1 m.2) msgs).

(** The world after reads that left [inc] to arrive and logged [evs]. *)
Definition after_reads (w : world) (inc : list (list byte))
    (evs : list event) : world :=
  {| incoming := inc; writes_left := writes_left w;
     trace := (evs ++ trace w)%list |}.

(** The payload of a [piece] message: index, begin and the block. *)
Definition piece_payload (index begin : Z) (block : list byte) : list byte :=
  (be_bytes index ++ be_bytes begin ++ block)%list.

(** The [piece] messages that carry [blocks] one after the other, the first
    one beginning at [begin]. *)
Fixpoint piece_msgs (index begin : Z) (blocks : list (list byte))
  : list (byte * list byte) :=
  match blocks with
  | [] => []
  | b :: r =>
      (piece, piece_payload index begin b)
        :: piece_msgs index (begin + Z.of_nat (length b)) r
  end.

(** The reply to a handshake as the buffer of 68 bytes holds it after one
    [Read]. *)
Definition handshake_reply (seg : list byte) : list byte :=
  take 68 (seg ++ repeat x00 68)%list.

(** Events that write a file. *)
Definition file_written (e : event) : bool :=
  match e with
  | EvWriteFile _ _ => true
  | _ => false
  end.

(** A step that, whatever its outcome, only adds events to the trace, none
    of which writes a file. *)
Definition writes_no_file {A : Type} (m : io A) : Prop :=
  forall w : world,
    exists evs, trace (snd (m w)) = (evs ++ trace w)%list
                /\ Forall (fun e => file_written e = false) evs.

(** ** getPeers

    The request to the tracker and [io.ReadAll] are outside the model:
    [getPeers] is given the bytes of the body of the response, which it
    takes only after [parseToInfo] succeeded. *)

Definition eachPeerSize : Z := 6.

(** [binary.BigEndian.Uint16(b)]; the library reads [b[1]] first. *)
Definition BigEndian_Uint16 (b : list byte) : result Z :=
  match b with
  | b0 :: b1 :: _ => Ok (Z.lor (byte_val b1) (Z.shiftl (byte_val b0) 8))
  | _ => Panic IndexOutOfRange
  end.

(** [net.IP.String] on the four bytes the loop passes: the dotted decimal
    form.  A slice of another length that is not an IPv6 address is written
    as [?] and its hexadecimal digits. *)
Definition IP_String (ip : string) : string :=
  match ip with
  | String a (String b (String c (String d EmptyString))) =>
      FormatInt (code a) +:+ "." +:+ FormatInt (code b) +:+ "."
        +:+ FormatInt (code c) +:+ "." +:+ FormatInt (code d)
  | _ => "?" +:+ hex ip
  end.

(** What [getPeers] returns besides a failure of its callees: the peers, or
    the error [errors.New("unexpected peers string")]. *)
Inductive peers : Type :=
| Peers (addrs : list string)
| ErrUnexpectedPeers.

(** The loop [for i := 0; i < len(resPeer); i += eachPeerSize]. *)
Fixpoint peers_loop (fuel : nat) (resPeer : string) (i : Z) (ret : list string)
  : result (list string) :=
  if i <? len resPeer then
    match fuel with
    | O => OutOfFuel
    | S fuel' =>
        do ip <- slice resPeer i (i + 4) ;
        do portBytes <- slice resPeer (i + 4) (i + 6) ;
        do port <- BigEndian_Uint16 (list_byte_of_string portBytes) ;
        peers_loop fuel' resPeer (i + eachPeerSize)
                   (ret ++ [IP_String ip +:+ ":" +:+ FormatInt port])%list
    end
  else Ok ret.

Definition getPeers (fs : filesystem) (torrentFilepath : string)
    (body : string) : result peers :=
  do _ <- parseToInfo fs torrentFilepath ;
  do '(decoded, _) <- decodeBencode body ;
  do m <- assert_dict (Some decoded) ;
  do resPeer <- assert_string (m !! "peers") ;
  if String.eqb resPeer "" then Ok ErrUnexpectedPeers
  else
    do ret <- peers_loop (String.length resPeer) resPeer 0 [] ;
    Ok (Peers ret).

(** The address of a peer as its six bytes give it: the four bytes of the
    IPv4 address in decimal, separated by dots, a colon, and the port, whose
    high byte comes first. *)
Definition peer_address (entry : string) : string :=
  match entry with
  | String a (String b (String c (String d (String p (String q _))))) =>
      FormatInt (code a) +:+ "." +:+ FormatInt (code b) +:+ "."
        +:+ FormatInt (code c) +:+ "." +:+ FormatInt (code d) +:+ ":"
        +:+ FormatInt (256 * code p + code q)
  | _ => ""
  end.

(** A response of a tracker that names one peer. *)
Definition sample_peers : string :=
  String (ascii_of_N 165) (String (ascii_of_N 232)
    (String (ascii_of_N 33) (String (ascii_of_N 77)
      (String (ascii_of_N 201) (String (ascii_of_N 11) EmptyString))))).

Definition sample_response : string := "d5:peers6:" +:+ sample_peers +:+ "e".

(** The encodings of the items of a list, joined. *)
Fixpoint concat_str (l : list string) : string :=
  match l with
  | [] => ""
  | s :: r => s +:+ concat_str r
  end.

(** Values none of whose dictionaries binds the empty key. *)
Inductive no_empty_key : value -> Prop :=
| nek_str s : no_empty_key (VStr s)
| nek_int n : no_empty_key (VInt n)
| nek_list l : Forall no_empty_key l -> no_empty_key (VList l)
| nek_dict (m : gmap string value) :
    m !! "" = None ->
    (forall k v, m !! k = Some v -> no_empty_key v) ->
    no_empty_key (VDict m).

(** * Properties *)

(** ** Tactics *)

Ltac asserts_step H :=
  cbn [assert_dict assert_string assert_int bind] in H; try discriminate H.

Ltac asserts_goal :=
  cbn [assert_dict assert_string assert_int bind].

(** ** Strings and slices *)

Lemma length_app_str (s1 s2 : string) :
  String.length (s1 +:+ s2) = (String.length s1 + String.length s2)%nat.
Proof. induction s1 as [|a s1 IH]; simpl; [reflexivity | now rewrite IH]. Qed.

Lemma length_string_of_list_byte (l : list byte) :
  String.length (string_of_list_byte l) = length l.
Proof.
  unfold string_of_list_byte.
  induction l as [|b l IH]; simpl; [reflexivity | now rewrite IH].
Qed.

Lemma length_list_byte_of_string (s : string) :
  length (list_byte_of_string s) = String.length s.
Proof.
  unfold list_byte_of_string.
  induction s as [|a s IH]; simpl; [reflexivity | now rewrite IH].
Qed.

Lemma app_str_assoc (s1 s2 s3 : string) :
  (s1 +:+ s2) +:+ s3 = s1 +:+ (s2 +:+ s3).
Proof.
  induction s1 as [|a s1 IH]; [reflexivity|].
  change (String a ((s1 +:+ s2) +:+ s3) = String a (s1 +:+ (s2 +:+ s3))).
  now rewrite IH.
Qed.

Lemma app_str_nil_r (s : string) : s +:+ "" = s.
Proof.
  induction s as [|a s IH]; [reflexivity|].
  change (String a (s +:+ "") = String a s). now rewrite IH.
Qed.

Lemma length_take_str (n : nat) (s : string) :
  String.length (take_str n s) = Nat.min n (String.length s).
Proof.
  revert s. induction n as [|n IH]; intros [|a s]; simpl; auto.
Qed.

Lemma length_drop_str (n : nat) (s : string) :
  String.length (drop_str n s) = (String.length s - n)%nat.
Proof.
  revert s. induction n as [|n IH]; intros [|a s]; simpl; auto.
Qed.

Lemma slice_length (s r : string) (a b : Z) :
  slice s a b = Ok r -> Z.of_nat (String.length r) = b - a.
Proof.
  unfold slice, len.
  destruct ((0 <=? a) && (a <=? b) && (b <=? Z.of_nat (String.length s)))
    eqn:Hc; [|discriminate].
  intros [= <-]. rewrite length_take_str, length_drop_str. lia.
Qed.

Lemma slice_bounds (s r : string) (a b : Z) :
  slice s a b = Ok r -> 0 <= a <= b /\ b <= len s.
Proof.
  unfold slice.
  destruct ((0 <=? a) && (a <=? b) && (b <=? len s)) eqn:Hc; [|discriminate].
  intros _. rewrite !andb_true_iff in Hc. lia.
Qed.

Lemma slice_panic (s : string) (a b : Z) :
  len s < b -> slice s a b = Panic SliceOutOfRange.
Proof.
  intros Hb. unfold slice.
  destruct (b <=? len s) eqn:Hc; [lia|].
  now rewrite andb_false_r.
Qed.

Lemma slice_fuel (s : string) (a b : Z) : slice s a b <> OutOfFuel.
Proof. unfold slice. destruct (_ && _ && _); discriminate. Qed.

Lemma length_hex (s : string) :
  String.length (hex s) = (2 * String.length s)%nat.
Proof. induction s as [|a s IH]; simpl; [reflexivity | rewrite IH; lia]. Qed.

Lemma HasPrefix_single (c a : ascii) (r : string) :
  c <> a -> HasPrefix (String c r) (String a "") = false.
Proof.
  intros Hne. unfold HasPrefix. simpl.
  destruct (ascii_dec a c) as [->|_]; [contradiction|reflexivity].
Qed.

Lemma TrimPrefix_single (a c : ascii) (r : string) :
  HasPrefix (String c r) (String a "") = true ->
  TrimPrefix (String c r) (String a "") = r.
Proof.
  intros H. unfold TrimPrefix. rewrite H. reflexivity.
Qed.

Lemma eqb_length_neq (s1 s2 : string) :
  String.length s1 <> String.length s2 -> String.eqb s1 s2 = false.
Proof.
  intros Hne. apply String.eqb_neq. intros ->. now apply Hne.
Qed.

(** ** The digest *)

(** [sha1.Sum] returns a [[20]byte]. *)
Lemma SHA1_Sum_length (data : list byte) : length (SHA1.Sum data) = SHA1.Size.
Proof.
  unfold SHA1.Sum.
  destruct (fold_left SHA1.block _ SHA1.init) as [[[[h0 h1] h2] h3] h4].
  reflexivity.
Qed.

(** The test vectors of FIPS 180 and messages around the padding limits. *)
Example sha1_abc :
  hex (string_of_list_byte (SHA1.Sum (list_byte_of_string "abc")))
  = "a9993e364706816aba3e25717850c26c9cd0d89d".
Proof. vm_compute. reflexivity. Qed.

Example sha1_empty :
  hex (string_of_list_byte (SHA1.Sum []))
  = "da39a3ee5e6b4b0d3255bfef95601890afd80709".
Proof. vm_compute. reflexivity. Qed.

Example sha1_two_blocks :
  hex (string_of_list_byte
         (SHA1.Sum (list_byte_of_string
            "abcdbcdecdefdefgefghfghighijhijkijkljklmklmnlmnomnopnopq")))
  = "84983e441c3bd26ebaae4aa1f95129e5e54670f1".
Proof. vm_compute. reflexivity. Qed.

Example sha1_55_bytes :
  hex (string_of_list_byte (SHA1.Sum (repeat x61 55)))
  = "c1c8bbdc22796e28c0e15163d20899b65621d65a".
Proof. vm_compute. reflexivity. Qed.

Example sha1_56_bytes :
  hex (string_of_list_byte (SHA1.Sum (repeat x61 56)))
  = "c2db330f6083854c99d4b5bfb6e8f29f201be699".
Proof. vm_compute. reflexivity. Qed.

Example sha1_64_bytes :
  hex (string_of_list_byte (SHA1.Sum (repeat x61 64)))
  = "0098ba824b5c16427bd7a1122a5a442a25ec644d".
Proof. vm_compute. reflexivity. Qed.

Example sha1_200_bytes :
  hex (string_of_list_byte (SHA1.Sum (repeat x61 200)))
  = "e61cfffe0d9195a525fc6cf06ca2d77119c24a40".
Proof. vm_compute. reflexivity. Qed.

Example hex_bytes :
  hex (string_of_list_byte [x00; x0f; xa5; xff]) = "000fa5ff".
Proof. reflexivity. Qed.

(** ** The decoder on the literal cases *)

Example decode_5_hello : decodeBencode "5:hello" = Ok (VStr "hello", 7).
Proof. vm_compute. reflexivity. Qed.

Example decode_10_hello12345 :
  decodeBencode "10:hello12345" = Ok (VStr "hello12345", 13).
Proof. vm_compute. reflexivity. Qed.

Example decode_i52e : decodeBencode "i52e" = Ok (VInt 52, 4).
Proof. vm_compute. reflexivity. Qed.

Example decode_list_count :
  decodeBencode "l5:helloi52ee" = Ok (VList [VStr "hello"; VInt 52], 12).
Proof. vm_compute. reflexivity. Qed.

Example decode_dict_count :
  decodeBencode "d3:foo3:bar5:helloi52ee"
  = Ok (VDict (<["foo" := VStr "bar"]> (<["hello" := VInt 52]> ∅)), 22).
Proof. vm_compute. reflexivity. Qed.

Example decode_empty_input : decodeBencode "" = Panic IndexOutOfRange.
Proof. vm_compute. reflexivity. Qed.

Example decode_unterminated_list :
  decodeBencode "l5:hello" = Panic IndexOutOfRange.
Proof. vm_compute. reflexivity. Qed.

Example decode_length_without_colon : decodeBencode "5" = Err ErrSyntax.
Proof. vm_compute. reflexivity. Qed.

Example decode_integer_not_decimal : decodeBencode "i5x2e" = Err ErrSyntax.
Proof. vm_compute. reflexivity. Qed.

(** C4, as the specification states it, fails on the code: the byte count
    returned for ["5:hello"] is 7, the length of the input, and not 6; the
    counts returned for the list and the dictionary are 12 and 22, not 13
    and 24. *)
Lemma decode_literal_counts_refuted :
  ~ (decodeBencode "5:hello" = Ok (VStr "hello", 6)
     /\ decodeBencode "i-52e" = Ok (VInt (-52), 5)
     /\ decodeBencode "l5:helloi52ee" = Ok (VList [VStr "hello"; VInt 52], 13)
     /\ decodeBencode "d3:foo3:bar5:helloi52ee"
        = Ok (VDict (<["foo" := VStr "bar"]> (<["hello" := VInt 52]> ∅)), 24)).
Proof.
  intros [H _]. vm_compute in H. discriminate H.
Qed.

(** C4 (amended): decode returns the decoded value together with a byte
    count; on ["5:hello"] it returns ("hello", 7), on ["i-52e"] (-52, 5), on
    ["l5:helloi52ee"] the value ["hello", 52] and on
    ["d3:foo3:bar5:helloi52ee"] the value {"foo":"bar","hello":52}. *)
Theorem decode_literal_cases :
  decodeBencode "5:hello" = Ok (VStr "hello", 7)
  /\ decodeBencode "i-52e" = Ok (VInt (-52), 5)
  /\ (exists n, decodeBencode "l5:helloi52ee"
                = Ok (VList [VStr "hello"; VInt 52], n))
  /\ (exists n, decodeBencode "d3:foo3:bar5:helloi52ee"
                = Ok (VDict (<["foo" := VStr "bar"]>
                               (<["hello" := VInt 52]> ∅)), n)).
Proof.
  split; [vm_compute; reflexivity|].
  split; [vm_compute; reflexivity|].
  split; [exists 12|exists 22]; vm_compute; reflexivity.
Qed.

(** ** The decoder on malformed input *)

(** C3, as the specification states it, fails on the code: none of the three
    inputs gives an error result. *)
Lemma decode_malformed_refuted :
  ~ (forall s, In s ["5:hi"; "i52"; "l5:helloe"] ->
               exists e, decodeBencode s = Err e).
Proof.
  intros H. destruct (H "l5:helloe") as [e He].
  - simpl. auto.
  - vm_compute in He. discriminate He.
Qed.



(** C3 (amended): decode returns the error "unexpected format" for every
    input whose first byte is not a digit, [i], [l] or [d]; ["l5:helloe"] is
    the well-formed list ["hello"] and is decoded to that value (the byte
    count returned with it is left open here); the truncated string
    ["5:hi"] and the unterminated integer ["i52"] give no error result: the
    slice expression that takes the bytes is out of range. *)
Theorem decode_malformed_cases :
  (forall (c : ascii) (r : string),
      IsDigit c = false -> c <> "i"%char -> c <> "l"%char -> c <> "d"%char ->
      decodeBencode (String c r) = Err ErrUnexpectedFormat)
  /\ (exists n : Z, decodeBencode "l5:helloe" = Ok (VList [VStr "hello"], n))
  /\ decodeBencode "5:hi" = Panic SliceOutOfRange
  /\ decodeBencode "i52" = Panic SliceOutOfRange.
Proof.
  split.
  - intros c r Hd Hi Hl Hdict. unfold decodeBencode, decode_fuel_for.
    cbn [decodeBencode_fuel Nat.add Nat.mul String.length].
    rewrite Hd, !HasPrefix_single by assumption. reflexivity.
  - split; [eexists; vm_compute; reflexivity|].
    split; vm_compute; reflexivity.
Qed.

Lemma decode_malformed_cases_witness :
  decodeBencode "x5:hi" = Err ErrUnexpectedFormat.
Proof.
  apply (proj1 decode_malformed_cases); [reflexivity | discriminate ..].
Defined.

(** ** The fuel of the decoder is enough *)

Lemma first_index_ge (c : ascii) (s : string) (i j : Z) :
  first_index c s i = Some j -> i <= j.
Proof.
  revert i. induction s as [|a s IH]; intros i; cbn [first_index].
  - discriminate.
  - destruct (Ascii.eqb a c); [intros [= <-]; lia|].
    intros H. apply IH in H. lia.
Qed.

Lemma scan_index_nonneg (c : ascii) (s : string) : 0 <= scan_index c s.
Proof.
  unfold scan_index. destruct (first_index c s 0) eqn:H; [|lia].
  now apply first_index_ge in H.
Qed.







Lemma ParseUint_loop_fuel (s : string) (n : Z) :
  ParseUint_loop s n <> OutOfFuel.
Proof.
  revert n. induction s as [|x s IH]; intros n; cbn [ParseUint_loop];
    [discriminate|].
  destruct (IsDigit x); [|discriminate].
  destruct (cutoff <=? n); [discriminate|].
  destruct (maxUint64 <? _); [discriminate|]. apply IH.
Qed.

Lemma Atoi_fuel (s : string) : Atoi s <> OutOfFuel.
Proof.
  unfold Atoi. destruct s as [|a l]; [discriminate|].
  destruct (ParseUint _) as [un| | |] eqn:Hp; cbn [bind]; try discriminate.
  - destruct (_ && _); [discriminate|]. destruct (_ && _); discriminate.
  - exfalso. revert Hp. unfold ParseUint.
    match goal with
    | |- context [ParseUint_loop ?b 0] => destruct b; [discriminate|]
    end.
    apply ParseUint_loop_fuel.
Qed.

(** With fuel for twice the length of the input the decoder and its two
    loops never run out, and a successful call has consumed at least one
    byte. *)
Lemma decodeBencode_fuel_enough (fuel : nat) :
  (forall s, (2 * String.length s + 1 <= fuel)%nat ->
     decodeBencode_fuel fuel s <> OutOfFuel
     /\ forall v n, decodeBencode_fuel fuel s = Ok (v, n) -> 1 <= n)
  /\ (forall in_ ret u, (2 * String.length in_ + 2 <= fuel)%nat -> 0 <= u ->
        list_loop fuel in_ ret u <> OutOfFuel
        /\ forall v n, list_loop fuel in_ ret u = Ok (v, n) -> 1 <= n)
  /\ (forall in_ ret key u, (2 * String.length in_ + 2 <= fuel)%nat -> 0 <= u ->
        dict_loop fuel in_ ret key u <> OutOfFuel
        /\ forall v n, dict_loop fuel in_ ret key u = Ok (v, n) -> 1 <= n).
Proof.
  induction fuel as [|fuel (IHd & IHl & IHm)].
  { repeat split; intros; lia. }
  split; [|split].
  - intros s Hf. cbn [decodeBencode_fuel].
    destruct s as [|c0 r]; [split; [discriminate|discriminate]|].
    destruct (IsDigit c0).
    { pose proof (scan_index_nonneg ":" (String c0 r)) as Hc.
      destruct (slice (String c0 r) 0 _) as [lengthStr| | |] eqn:Hs0;
        cbn [bind]; try (split; discriminate);
        [|now apply slice_fuel in Hs0].
      destruct (Atoi lengthStr) as [length| | |] eqn:Ha;
        cbn [bind]; try (split; discriminate); [|now apply Atoi_fuel in Ha].
      destruct (slice (String c0 r) (_ + 1) _) as [str| | |] eqn:Hs;
        cbn [bind]; try (split; discriminate); [|now apply slice_fuel in Hs].
      split; [discriminate|]. intros v n [= _ <-].
      apply slice_bounds in Hs. lia. }
    destruct (HasPrefix (String c0 r) "i").
    { destruct (slice (String c0 r) 1 _) as [numStr| | |] eqn:Hs;
        cbn [bind]; try (split; discriminate); [|now apply slice_fuel in Hs].
      destruct (Atoi numStr) as [num| | |] eqn:Ha;
        cbn [bind]; try (split; discriminate); [|now apply Atoi_fuel in Ha].
      split; [discriminate|]. intros v n [= _ <-].
      apply slice_bounds in Hs. lia. }
    destruct (HasPrefix (String c0 r) "l") eqn:Hl.
    { rewrite (TrimPrefix_single _ _ _ Hl).
      apply IHl; [cbn [String.length] in Hf; lia|lia]. }
    destruct (HasPrefix (String c0 r) "d") eqn:Hd.
    { rewrite (TrimPrefix_single _ _ _ Hd).
      apply IHm; [cbn [String.length] in Hf; lia|lia]. }
    split; discriminate.
  - intros in_ ret u Hf Hu. cbn [list_loop].
    destruct in_ as [|c0 r]; [split; discriminate|].
    destruct (Ascii.eqb c0 "e").
    { split; [discriminate|]. intros v n [= _ <-]. lia. }
    destruct (IHd (String c0 r)) as [Hne Hpos]; [lia|].
    destruct (decodeBencode_fuel fuel (String c0 r)) as [[decoded next]| | |];
      cbn [bind]; try (split; discriminate); [|now destruct Hne].
    specialize (Hpos _ _ eq_refl).
    destruct (slice_from (String c0 r) next) as [in'| | |] eqn:Hs;
      cbn [bind]; try (split; discriminate); [|now apply slice_fuel in Hs].
    apply slice_length in Hs. unfold len in Hs.
    apply IHl; [lia|lia].
  - intros in_ ret key u Hf Hu. cbn [dict_loop].
    destruct in_ as [|c0 r]; [split; discriminate|].
    destruct (Ascii.eqb c0 "e").
    { split; [discriminate|]. intros v n [= _ <-]. lia. }
    destruct (IHd (String c0 r)) as [Hne Hpos]; [lia|].
    destruct (decodeBencode_fuel fuel (String c0 r)) as [[decoded next]| | |];
      cbn [bind]; try (split; discriminate); [|now destruct Hne].
    specialize (Hpos _ _ eq_refl).
    assert (Hrest : forall ret' key',
      (do in' <- slice_from (String c0 r) next;
       dict_loop fuel in' ret' key' (u + next)) <> OutOfFuel
      /\ forall v n,
          (do in' <- slice_from (String c0 r) next;
           dict_loop fuel in' ret' key' (u + next)) = Ok (v, n) -> 1 <= n).
    { intros ret' key'.
      destruct (slice_from (String c0 r) next) as [in'| | |] eqn:Hs;
        cbn [bind]; try (split; discriminate); [|now apply slice_fuel in Hs].
      apply slice_length in Hs. unfold len in Hs.
      apply IHm; [lia|lia]. }
    destruct (String.eqb key ""); [|apply Hrest].
    destruct decoded; cbn [bind]; try (split; discriminate). apply Hrest.
Qed.

(** [decodeBencode] never runs out of fuel: its outcome is a value, an
    error or a panic of the Go function. *)
Lemma decodeBencode_total (s : string) : decodeBencode s <> OutOfFuel.
Proof.
  unfold decodeBencode, decode_fuel_for.
  apply (proj1 (decodeBencode_fuel_enough _)). lia.
Qed.

(** ** Round trip *)

(** C7 fails on the code.  The list [[1], 2] encodes to ["lli1eei2ee"]; the
    byte count the decoder returns for the inner list leaves out its leading
    [l], so the outer loop resumes one byte early, on the [e] that closes the
    inner list, and stops there: the decoded value is [[1]], whose encoding
    is ["lli1eee"]. *)
Theorem roundtrip_nested_list_fails :
  let v := VList [VList [VInt 1]; VInt 2] in
  bencode v = Ok "lli1eei2ee"
  /\ decodeBencode "lli1eei2ee" = Ok (VList [VList [VInt 1]], 5)
  /\ bencode (VList [VList [VInt 1]]) = Ok "lli1eee"
  /\ "lli1eee" <> "lli1eei2ee".
Proof.
  repeat split; try (vm_compute; reflexivity). discriminate.
Qed.

(** The empty key is the loop's mark for "no key read yet": a dictionary
    that binds it does not come back either. *)
Example roundtrip_empty_key_fails :
  bencode (VDict {[ "" := VInt 1 ]}) = Ok "d0:i1ee"
  /\ decodeBencode "d0:i1ee" = Panic TypeAssertion.
Proof. split; vm_compute; reflexivity. Qed.

Example roundtrip_flat_list :
  bencode (VList [VStr "hello"; VInt 52]) = Ok "l5:helloi52ee"
  /\ decodeBencode "l5:helloi52ee" = Ok (VList [VStr "hello"; VInt 52], 12).
Proof. split; vm_compute; reflexivity. Qed.

(** ** Induction on values and totality of the encoder *)

Lemma value_size_list (l : list value) (v : value) :
  In v l -> (value_size v < value_size (VList l))%nat.
Proof.
  intros Hin. cbn [value_size]. unfold list_sum.
  induction l as [|x l IH]; [destruct Hin|].
  cbn [map fold_right]. destruct Hin as [->|Hin]; [lia|].
  specialize (IH Hin). lia.
Qed.

Lemma value_size_dict (m : gmap string value) (k : string) (v : value) :
  m !! k = Some v -> (value_size v < value_size (VDict m))%nat.
Proof.
  intros Hk. cbn [value_size].
  rewrite (map_fold_delete_L _ _ k v m); [lia| |exact Hk].
  intros. lia.
Qed.

Lemma value_ind' (P : value -> Prop) :
  (forall s, P (VStr s)) ->
  (forall n, P (VInt n)) ->
  (forall l, Forall P l -> P (VList l)) ->
  (forall m, map_Forall (fun _ v => P v) m -> P (VDict m)) ->
  forall v, P v.
Proof.
  intros Hs Hi Hl Hd v.
  remember (value_size v) as n eqn:Hn.
  revert v Hn. induction n as [n IH] using lt_wf_ind. intros v ->.
  destruct v as [s|z|l|m]; [apply Hs|apply Hi| |].
  - apply Hl. apply Forall_forall. intros x Hx.
    apply (IH (value_size x)); [|reflexivity].
    apply value_size_list. now apply list_elem_of_In.
  - apply Hd. intros k x Hk.
    apply (IH (value_size x)); [|reflexivity].
    now apply value_size_dict with k.
Qed.

Lemma bencode_items_total (l : list value) :
  Forall (fun v => exists s, bencode v = Ok s) l ->
  forall joined, exists s, bencode_items bencode l joined = Ok s.
Proof.
  induction 1 as [|v l [s Hs] _ IH]; intros joined; cbn [bencode_items].
  - now exists joined.
  - rewrite Hs. cbn [bind]. apply IH.
Qed.

Lemma bencode_entries_total (m : gmap string value) (keys : list string) :
  map_Forall (fun _ v => exists s, bencode v = Ok s) m ->
  Forall (fun k => is_Some (m !! k)) keys ->
  forall joined, exists s, bencode_entries (bencode <$> m) keys joined = Ok s.
Proof.
  intros Hm Hkeys. induction Hkeys as [|k keys [v Hv] _ IH]; intros joined;
    cbn [bencode_entries].
  - now exists joined.
  - rewrite lookup_fmap, Hv. cbn [fmap option_fmap option_map default].
    destruct (Hm k v Hv) as [s ->]. cbn [bind]. apply IH.
Qed.

(** The encoder has a case for each of the four kinds: it returns no
    error. *)
Lemma bencode_total (v : value) : exists s, bencode v = Ok s.
Proof.
  induction v as [s|n|l IH|m IH] using value_ind'; cbn [bencode].
  - eauto.
  - eauto.
  - destruct (bencode_items_total l IH "") as [s ->]. cbn [bind]. eauto.
  - unfold bencode_dict.
    destruct (bencode_entries_total m
                (sort_Strings (map fst (map_to_list m))) IH) with (joined := "")
      as [s ->]; [|cbn [bind]; eauto].
    apply Forall_forall. intros k Hk.
    unfold sort_Strings in Hk. rewrite merge_sort_Permutation in Hk.
    apply list_elem_of_fmap in Hk as [[k' v] [-> Hkv]].
    apply elem_of_map_to_list in Hkv. cbn. eauto.
Qed.

(** ** Canonical order of dictionary keys *)





(** The order in which [range] yields the keys does not reach the output:
    two arrangements of the same keys sort to the same list. *)
Lemma sort_Strings_perm (ks1 ks2 : list string) :
  ks1 ≡ₚ ks2 -> sort_Strings ks1 = sort_Strings ks2.
Proof.
  intros Hp. unfold sort_Strings.
  apply (Sorted_unique String.le).
  - apply Sorted_merge_sort; apply _.
  - apply Sorted_merge_sort; apply _.
  - rewrite !merge_sort_Permutation. exact Hp.
Qed.



Lemma bencode_entries_ok (enc : gmap string (result string))
    (keys : list string) (joined s : string) :
  bencode_entries enc keys joined = Ok s ->
  exists evs,
    Forall2 (fun k ev => enc !! k = Some (Ok ev)) keys evs
    /\ s = joined +:+ entries_text keys evs.
Proof.
  revert joined. induction keys as [|k keys IH]; intros joined H.
  - injection H as <-. exists []. split; [constructor|].
    simpl. now rewrite app_str_nil_r.
  - cbn [bencode_entries] in H.
    destruct (enc !! k) as [[ev| | |]|] eqn:Hk; try discriminate H.
    cbn [default bind] in H.
    destruct (IH _ H) as (evs & Hall & ->).
    exists (ev :: evs). split; [constructor; assumption|].
    cbn [entries_text]. now rewrite !app_str_assoc.
Qed.

(** C6: dictionaries holding the same bindings have the same encoding,
    whatever the order the bindings were inserted in and whatever the order
    in which [range] yields the keys; the encoding emits the keys in
    ascending byte-wise order, each once, each followed by the encoding of
    its value; and the encodings of {"hello":52,"foo":"bar"} and of
    {"foo":"bar","hello":52} are both ["d3:foo3:bar5:helloi52ee"]. *)
Theorem bencode_dict_canonical :
  (forall m1 m2 : gmap string value,
      (forall k, m1 !! k = m2 !! k) ->
      exists s, bencode (VDict m1) = Ok s /\ bencode (VDict m2) = Ok s)
  /\ (forall l1 l2 : list (string * value),
        NoDup (map fst l1) -> l1 ≡ₚ l2 ->
        exists s, bencode (VDict (list_to_map l1)) = Ok s
                  /\ bencode (VDict (list_to_map l2)) = Ok s)
  /\ (forall (m : gmap string value) (keys : list string),
        keys ≡ₚ map fst (map_to_list m) ->
        bencode_dict (bencode <$> m) keys = bencode (VDict m))
  /\ (forall (m : gmap string value) (s : string),
        bencode (VDict m) = Ok s ->
        exists (ks evs : list string),
          ks ≡ₚ map fst (map_to_list m)
          /\ StronglySorted String.le ks
          /\ NoDup ks
          /\ Forall2 (fun k ev => exists v, m !! k = Some v /\ bencode v = Ok ev)
                     ks evs
          /\ s = "d" +:+ entries_text ks evs +:+ "e")
  /\ bencode (VDict (<["hello" := VInt 52]> (<["foo" := VStr "bar"]> ∅)))
     = Ok "d3:foo3:bar5:helloi52ee"
  /\ bencode (VDict (<["foo" := VStr "bar"]> (<["hello" := VInt 52]> ∅)))
     = Ok "d3:foo3:bar5:helloi52ee".
Proof.
  split; [|split; [|split; [|split; [|split; vm_compute; reflexivity]]]].
  - intros m1 m2 Heq. apply map_eq in Heq as ->.
    destruct (bencode_total (VDict m2)) as [s Hs]. eauto.
  - intros l1 l2 Hnd Hp.
    rewrite (list_to_map_proper (M := gmap string) l1 l2 Hnd Hp).
    destruct (bencode_total (VDict (list_to_map l2))) as [s Hs]. eauto.
  - intros m keys Hp. cbn [bencode]. unfold bencode_dict.
    now rewrite (sort_Strings_perm _ _ Hp).
  - intros m s H. cbn [bencode] in H. unfold bencode_dict in H.
    destruct (bencode_entries (bencode <$> m)
                (sort_Strings (map fst (map_to_list m))) "") as [joined| | |]
      eqn:Hj; try discriminate H.
    cbn [bind] in H. injection H as <-.
    destruct (bencode_entries_ok _ _ _ _ Hj) as (evs & Hall & ->).
    exists (sort_Strings (map fst (map_to_list m))), evs.
    assert (Hperm : sort_Strings (map fst (map_to_list m))
                    ≡ₚ map fst (map_to_list m))
      by apply merge_sort_Permutation.
    split; [exact Hperm|].
    split; [apply StronglySorted_merge_sort; apply _|].
    split; [rewrite Hperm; apply NoDup_fst_map_to_list|].
    split; [|reflexivity].
    eapply Forall2_impl; [exact Hall|].
    intros k ev Hk. cbn beta in Hk. rewrite lookup_fmap in Hk.
    destruct (m !! k) as [v|]; [|discriminate Hk].
    exists v. split; [reflexivity|]. now injection Hk.
Qed.

(** The byte-wise order: capitals before small letters, a prefix before its
    extensions, and the bytes above 127 last. *)
Example String_le_bytewise :
  String.le "Zebra" "apple" /\ String.le "foo" "foobar"
  /\ String.le "z" (String (ascii_of_N 200) "") /\ ~ String.le "b" "a".
Proof. vm_compute. intuition. Qed.

Lemma bencode_dict_canonical_witness :
  exists s,
    bencode (VDict (list_to_map [("hello", VInt 52); ("foo", VStr "bar")]))
    = Ok s
    /\ bencode (VDict (list_to_map [("foo", VStr "bar"); ("hello", VInt 52)]))
       = Ok s.
Proof.
  apply (proj1 (proj2 bencode_dict_canonical)).
  - apply NoDup_cons. split; [|apply NoDup_singleton].
    intros Hin. apply list_elem_of_singleton in Hin. discriminate Hin.
  - apply Permutation_swap.
Defined.

(** ** Metainfo derivation *)











(** Every turn of the loop over [pieces] adds 41 characters: 40 hexadecimal
    digits and a newline. *)
Lemma pieces_loop_length (fuel : nat) (pieceStr : string) (i : Z)
    (hashes h : string) :
  pieces_loop fuel pieceStr i hashes = Ok h ->
  exists k : nat, String.length h = (String.length hashes + 41 * k)%nat.
Proof.
  revert i hashes. induction fuel as [|fuel IH]; intros i hashes;
    cbn [pieces_loop]; destruct (i <? len pieceStr).
  - discriminate.
  - intros [= <-]. exists 0%nat. lia.
  - destruct (slice pieceStr i (i + eachPieceSize)) as [chunk| | |] eqn:Hs;
      try discriminate.
    cbn [bind]. intros H. destruct (IH _ _ H) as [k Hk]. exists (S k).
    rewrite Hk, !length_app_str, length_hex.
    apply slice_length in Hs. unfold eachPieceSize in Hs.
    change (String.length newline) with 1%nat. lia.
  - intros [= <-]. exists 0%nat. lia.
Qed.

(** A table whose length is a multiple of 20 is converted whole. *)
Lemma pieces_loop_ok (fuel : nat) (pieceStr : string) (i : Z) (hashes : string) :
  0 <= i <= len pieceStr -> (len pieceStr - i) mod 20 = 0 ->
  len pieceStr - i <= Z.of_nat fuel ->
  exists h, pieces_loop fuel pieceStr i hashes = Ok h.
Proof.
  revert i hashes. induction fuel as [|fuel IH]; intros i hashes Hi Hm Hf;
    cbn [pieces_loop]; destruct (i <? len pieceStr) eqn:Hlt; eauto; try lia.
  assert (Hstep : i + 20 <= len pieceStr).
  { apply Z.ltb_lt in Hlt.
    pose proof (Z.div_mod (len pieceStr - i) 20 ltac:(lia)) as Hd.
    rewrite Hm in Hd.
    assert (0 < (len pieceStr - i) / 20) by lia. lia. }
  unfold slice, eachPieceSize.
  replace ((0 <=? i) && (i <=? i + 20) && (i + 20 <=? len pieceStr))
    with true by (symmetry; rewrite !andb_true_iff; lia).
  cbn [bind]. apply IH; [lia| |lia].
  replace (len pieceStr - (i + 20)) with (len pieceStr - i + (-1) * 20) by lia.
  now rewrite Z.mod_add by lia.
Qed.

(** A table whose length is not a multiple of 20 ends in a slice of fewer
    than 20 bytes, and the slice expression is out of range. *)
Lemma pieces_loop_panic (fuel : nat) (pieceStr : string) (i : Z)
    (hashes : string) :
  0 <= i <= len pieceStr -> (len pieceStr - i) mod 20 <> 0 ->
  len pieceStr - i <= Z.of_nat fuel ->
  pieces_loop fuel pieceStr i hashes = Panic SliceOutOfRange.
Proof.
  revert i hashes. induction fuel as [|fuel IH]; intros i hashes Hi Hm Hf;
    cbn [pieces_loop]; destruct (i <? len pieceStr) eqn:Hlt.
  - apply Z.ltb_lt in Hlt. lia.
  - apply Z.ltb_ge in Hlt. replace (len pieceStr - i) with 0 in Hm by lia.
    now destruct Hm.
  - destruct (Z_le_gt_dec (i + 20) (len pieceStr)) as [Hle|Hgt].
    + unfold slice, eachPieceSize.
      replace ((0 <=? i) && (i <=? i + 20) && (i + 20 <=? len pieceStr))
        with true by (symmetry; rewrite !andb_true_iff; lia).
      cbn [bind]. apply IH; [lia| |lia].
      replace (len pieceStr - (i + 20)) with (len pieceStr - i + (-1) * 20)
        by lia.
      now rewrite Z.mod_add by lia.
    + rewrite slice_panic by (unfold eachPieceSize; lia). reflexivity.
  - apply Z.ltb_ge in Hlt. replace (len pieceStr - i) with 0 in Hm by lia.
    now destruct Hm.
Qed.







(** What a successful derivation has done. *)
Lemma parseToInfo_Ok_inv (fs : filesystem) (p : string) (info : Info) :
  parseToInfo fs p = Ok info ->
  exists decoded metaInfo bencoded pieceStr,
    decodeTorrentFile fs p = Ok decoded
    /\ decoded !! "info" = Some (VDict metaInfo)
    /\ decoded !! "announce" = Some (VStr (TrackerURL info))
    /\ metaInfo !! "length" = Some (VInt (Length info))
    /\ metaInfo !! "piece length" = Some (VInt (PieceLength info))
    /\ bencode (VDict metaInfo) = Ok bencoded
    /\ InfoHash info = SHA1.Sum (list_byte_of_string bencoded)
    /\ metaInfo !! "pieces" = Some (VStr pieceStr)
    /\ pieces_loop (String.length pieceStr) pieceStr 0 "" = Ok (PieceHashes info).
Proof.
  unfold parseToInfo. intros H.
  destruct (decodeTorrentFile fs p) as [decoded| | |]; asserts_step H.
  destruct (decoded !! "info") as [[| | |metaInfo]|] eqn:Hi; asserts_step H.
  destruct (decoded !! "announce") as [[url| | |]|] eqn:Ha; asserts_step H.
  destruct (metaInfo !! "length") as [[|l| |]|] eqn:Hlen; asserts_step H.
  destruct (metaInfo !! "piece length") as [[|pl| |]|] eqn:Hpl;
    asserts_step H.
  destruct (bencode (VDict metaInfo)) as [bencoded| | |] eqn:Hb;
    asserts_step H.
  destruct (metaInfo !! "pieces") as [[pieceStr| | |]|] eqn:Hps;
    asserts_step H.
  destruct (pieces_loop _ pieceStr 0 "") as [hashes| | |] eqn:Hl;
    asserts_step H.
  injection H as <-.
  exists decoded, metaInfo, bencoded, pieceStr.
  cbn [TrackerURL Length PieceLength InfoHash PieceHashes].
  repeat split; assumption || reflexivity.
Qed.

(** C9: the derivation is a function of the bytes of the torrent file, so
    two runs on the same bytes give the same info-hash; the info-hash is the
    SHA-1 of the encoding of the value bound to [info], 20 bytes; hence two
    torrent files whose [info] values are equal have equal info-hashes,
    whatever else they hold. *)
Theorem info_hash_depends_on_info_only :
  (forall (content : string) (fs1 fs2 : filesystem) (p1 p2 : string),
      fs1 p1 = Some content -> fs2 p2 = Some content ->
      parseToInfo fs1 p1 = parseToInfo fs2 p2)
  /\ (forall (fs : filesystem) (p : string) (decoded : gmap string value)
             (info : Info),
        decodeTorrentFile fs p = Ok decoded -> parseToInfo fs p = Ok info ->
        exists metaInfo bencoded,
          decoded !! "info" = Some (VDict metaInfo)
          /\ bencode (VDict metaInfo) = Ok bencoded
          /\ InfoHash info = SHA1.Sum (list_byte_of_string bencoded)
          /\ length (InfoHash info) = 20%nat)
  /\ (forall (fs1 fs2 : filesystem) (p1 p2 : string)
             (decoded1 decoded2 : gmap string value) (info1 info2 : Info),
        decodeTorrentFile fs1 p1 = Ok decoded1 ->
        decodeTorrentFile fs2 p2 = Ok decoded2 ->
        decoded1 !! "info" = decoded2 !! "info" ->
        parseToInfo fs1 p1 = Ok info1 ->
        parseToInfo fs2 p2 = Ok info2 ->
        InfoHash info1 = InfoHash info2).
Proof.
  assert (Hinv : forall fs p decoded info,
    decodeTorrentFile fs p = Ok decoded -> parseToInfo fs p = Ok info ->
    exists metaInfo bencoded,
      decoded !! "info" = Some (VDict metaInfo)
      /\ bencode (VDict metaInfo) = Ok bencoded
      /\ InfoHash info = SHA1.Sum (list_byte_of_string bencoded)
      /\ length (InfoHash info) = 20%nat).
  { intros fs p decoded info Hd Hp.
    destruct (parseToInfo_Ok_inv _ _ _ Hp)
      as (d & metaInfo & bencoded & pieceStr & Hd' & Hi & _ & _ & _ & Hb & Hh & _).
    rewrite Hd in Hd'. injection Hd' as <-.
    exists metaInfo, bencoded. repeat split; try assumption.
    rewrite Hh. apply SHA1_Sum_length. }
  split; [|split; [exact Hinv|]].
  - intros content fs1 fs2 p1 p2 H1 H2.
    unfold parseToInfo, decodeTorrentFile. now rewrite H1, H2.
  - intros fs1 fs2 p1 p2 d1 d2 i1 i2 Hd1 Hd2 Heq Hp1 Hp2.
    destruct (Hinv _ _ _ _ Hd1 Hp1) as (m1 & b1 & Hm1 & Hb1 & -> & _).
    destruct (Hinv _ _ _ _ Hd2 Hp2) as (m2 & b2 & Hm2 & Hb2 & -> & _).
    rewrite Heq, Hm2 in Hm1. injection Hm1 as <-.
    rewrite Hb2 in Hb1. now injection Hb1 as <-.
Qed.

Lemma info_hash_depends_on_info_only_witness :
  exists info1 info2,
    parseToInfo sample_fs "sample.torrent" = Ok info1
    /\ parseToInfo other_fs "other.torrent" = Ok info2
    /\ TrackerURL info1 <> TrackerURL info2
    /\ InfoHash info1 = InfoHash info2.
Proof.
  eexists. eexists.
  split; [vm_compute; reflexivity|].
  split; [vm_compute; reflexivity|].
  split; [discriminate|].
  eapply (proj2 (proj2 info_hash_depends_on_info_only)
            sample_fs other_fs "sample.torrent" "other.torrent");
    vm_compute; reflexivity.
Defined.

(** ** Errors of the metainfo derivation *)

Lemma pieces_loop_no_error (fuel : nat) (pieceStr : string) (i : Z)
    (hashes : string) (e : error) :
  pieces_loop fuel pieceStr i hashes <> Err e.
Proof.
  revert i hashes. induction fuel as [|fuel IH]; intros i hashes;
    cbn [pieces_loop]; destruct (i <? len pieceStr); try discriminate.
  unfold slice.
  destruct ((0 <=? i) && (i <=? i + eachPieceSize)
            && (i + eachPieceSize <=? len pieceStr)); [|discriminate].
  cbn [bind]. apply IH.
Qed.

(** C8, as the specification states it, fails on the code: a torrent
    without [announce] and a torrent whose [pieces] has three bytes give no
    error result. *)
Lemma parseToInfo_errors_refuted :
  (~ exists e, parseToInfo (one_file "t" no_announce_torrent) "t" = Err e)
  /\ (~ exists e, parseToInfo (one_file "t" short_pieces_torrent) "t" = Err e).
Proof.
  split; intros [e He]; vm_compute in He; discriminate He.
Qed.

(** C8 (amended): the derivation returns an error result only when the file
    cannot be read or [decodeBencode] returns an error.  On torrent bytes
    that decode to a dictionary lacking a required key ([announce], [info],
    [length], [piece length], [pieces]) or holding one of the wrong kind, the
    unchecked type assertion panics; on a [pieces] byte-string whose length
    is not a multiple of 20, the slice that takes the last entry is out of
    range and panics; on every other dictionary the metainfo is returned. *)
Theorem parseToInfo_outcomes :
  (forall (fs : filesystem) (p : string) (e : error),
      parseToInfo fs p = Err e ->
      (fs p = None /\ e = ErrOpen)
      \/ (exists content, fs p = Some content /\ decodeBencode content = Err e))
  /\ (forall (fs : filesystem) (p : string) (decoded : gmap string value),
        decodeTorrentFile fs p = Ok decoded ->
        ((~ exists url l pl pieces, required_fields decoded url l pl pieces) ->
         parseToInfo fs p = Panic TypeAssertion)
        /\ (forall url l pl pieces,
              required_fields decoded url l pl pieces ->
              (len pieces mod 20 <> 0 ->
               parseToInfo fs p = Panic SliceOutOfRange)
              /\ (len pieces mod 20 = 0 ->
                  exists info,
                    parseToInfo fs p = Ok info
                    /\ TrackerURL info = url /\ Length info = l
                    /\ PieceLength info = pl))).
Proof.
  split.
  - intros fs p e H. unfold parseToInfo, decodeTorrentFile in H.
    destruct (fs p) as [content|]; [right|left].
    + exists content. split; [reflexivity|].
      destruct (decodeBencode content) as [[v n]|e'| |]; asserts_step H.
      * destruct v as [| | |decoded]; asserts_step H.
        destruct (decoded !! "info") as [[| | |metaInfo]|]; asserts_step H.
        destruct (decoded !! "announce") as [[url| | |]|]; asserts_step H.
        destruct (metaInfo !! "length") as [[|l| |]|]; asserts_step H.
        destruct (metaInfo !! "piece length") as [[|pl| |]|]; asserts_step H.
        destruct (bencode_total (VDict metaInfo)) as [b Hb].
        rewrite Hb in H. asserts_step H.
        destruct (metaInfo !! "pieces") as [[pieceStr| | |]|]; asserts_step H.
        destruct (pieces_loop _ pieceStr 0 "") as [hashes|e'| |] eqn:Hl;
          asserts_step H.
        now apply pieces_loop_no_error in Hl.
      * now injection H as ->.
    + cbn [bind] in H. injection H as <-. auto.
  - intros fs p decoded Hd. unfold parseToInfo. rewrite Hd. cbn [bind].
    split.
    + intros Hno.
      destruct (decoded !! "info") as [[| | |metaInfo]|] eqn:Hi;
        asserts_goal; try reflexivity.
      destruct (decoded !! "announce") as [[url| | |]|] eqn:Ha;
        asserts_goal; try reflexivity.
      destruct (metaInfo !! "length") as [[|l| |]|] eqn:Hlen;
        asserts_goal; try reflexivity.
      destruct (metaInfo !! "piece length") as [[|pl| |]|] eqn:Hpl;
        asserts_goal; try reflexivity.
      destruct (bencode_total (VDict metaInfo)) as [b ->]. asserts_goal.
      destruct (metaInfo !! "pieces") as [[pieceStr| | |]|] eqn:Hps;
        asserts_goal; try reflexivity.
      exfalso. apply Hno. exists url, l, pl, pieceStr, metaInfo. auto.
    + intros url l pl pieces (metaInfo & Hi & Ha & Hlen & Hpl & Hps).
      rewrite Hi. asserts_goal. rewrite Ha. asserts_goal.
      rewrite Hlen. asserts_goal. rewrite Hpl. asserts_goal.
      destruct (bencode_total (VDict metaInfo)) as [b ->]. asserts_goal.
      rewrite Hps. asserts_goal.
      assert (Hfuel : len pieces - 0 <= Z.of_nat (String.length pieces))
        by (unfold len; lia).
      assert (Hrange : 0 <= 0 <= len pieces) by (unfold len; lia).
      split; intros Hmod.
      * rewrite pieces_loop_panic; [reflexivity|exact Hrange| |exact Hfuel].
        now rewrite Z.sub_0_r.
      * destruct (pieces_loop_ok (String.length pieces) pieces 0 "" Hrange)
          as [h ->]; [now rewrite Z.sub_0_r|exact Hfuel|].
        cbn [bind]. eexists. split; [reflexivity|]. cbn. auto.
Qed.

(** A torrent file that decodes to a value of another kind than a
    dictionary fails the type assertion of [decodeTorrentFile]. *)
Lemma parseToInfo_not_a_dictionary (fs : filesystem) (p content : string)
    (v : value) (n : Z) :
  fs p = Some content -> decodeBencode content = Ok (v, n) ->
  (forall m, v <> VDict m) ->
  parseToInfo fs p = Panic TypeAssertion.
Proof.
  intros Hf Hd Hv. unfold parseToInfo, decodeTorrentFile.
  rewrite Hf, Hd. cbn [bind].
  destruct v as [| | |m]; try reflexivity. now destruct (Hv m).
Qed.

(** The derivation never runs out of fuel: its outcome is a metainfo, an
    error or a panic of the Go function. *)
Lemma parseToInfo_total (fs : filesystem) (p : string) :
  parseToInfo fs p <> OutOfFuel.
Proof.
  unfold parseToInfo, decodeTorrentFile.
  destruct (fs p) as [content|]; [|discriminate].
  pose proof (decodeBencode_total content) as Hd.
  destruct (decodeBencode content) as [[v n]| | |]; cbn [bind];
    try discriminate; [|now destruct Hd].
  destruct v as [| | |decoded]; asserts_goal; try discriminate.
  destruct (decoded !! "info") as [[| | |metaInfo]|]; asserts_goal;
    try discriminate.
  destruct (decoded !! "announce") as [[url| | |]|]; asserts_goal;
    try discriminate.
  destruct (metaInfo !! "length") as [[|l| |]|]; asserts_goal;
    try discriminate.
  destruct (metaInfo !! "piece length") as [[|pl| |]|]; asserts_goal;
    try discriminate.
  destruct (bencode_total (VDict metaInfo)) as [b ->]. asserts_goal.
  destruct (metaInfo !! "pieces") as [[pieces| | |]|]; asserts_goal;
    try discriminate.
  assert (Hfuel : len pieces - 0 <= Z.of_nat (String.length pieces))
    by (unfold len; lia).
  assert (Hrange : 0 <= 0 <= len pieces) by (unfold len; lia).
  destruct (Z.eq_dec ((len pieces - 0) mod 20) 0) as [Hm|Hm].
  - destruct (pieces_loop_ok _ pieces 0 "" Hrange Hm Hfuel) as [h ->].
    discriminate.
  - rewrite (pieces_loop_panic _ pieces 0 "" Hrange Hm Hfuel). discriminate.
Qed.

Lemma parseToInfo_outcomes_witness :
  parseToInfo (one_file "t" no_announce_torrent) "t" = Panic TypeAssertion
  /\ parseToInfo (one_file "t" short_pieces_torrent) "t" = Panic SliceOutOfRange
  /\ (exists info,
        parseToInfo sample_fs "sample.torrent" = Ok info
        /\ TrackerURL info = "http://tracker" /\ Length info = 100
        /\ PieceLength info = 64).
Proof.
  pose proof (proj2 parseToInfo_outcomes) as H.
  split; [|split].
  - refine (proj1 (H (one_file "t" no_announce_torrent) "t"
                     (decoded_of (one_file "t" no_announce_torrent) "t") _) _).
    + vm_compute. reflexivity.
    + intros (url & l & pl & pieces & metaInfo & _ & Ha & _).
      vm_compute in Ha. discriminate Ha.
  - refine (proj1 (proj2 (H (one_file "t" short_pieces_torrent) "t"
                            (decoded_of (one_file "t" short_pieces_torrent) "t")
                            _)
                     "u" 1 1 "abc" _) _).
    + vm_compute. reflexivity.
    + exists (info_of (decoded_of (one_file "t" short_pieces_torrent) "t")).
      split; [|split; [|split; [|split]]]; vm_compute; reflexivity.
    + vm_compute. discriminate.
  - refine (proj2 (proj2 (H sample_fs "sample.torrent"
                            (decoded_of sample_fs "sample.torrent") _)
                     "http://tracker" 100 64 sample_pieces _) _).
    + vm_compute. reflexivity.
    + exists (info_of (decoded_of sample_fs "sample.torrent")).
      split; [|split; [|split; [|split]]]; vm_compute; reflexivity.
    + vm_compute. reflexivity.
Defined.

(** ** Handshake *)







(** The layout of the message for an info-hash of 20 bytes: 68 bytes, the
    reserved field being the eight characters of ["00000000"]. *)
Lemma handshake_message_layout (info : Info) :
  length (InfoHash info) = 20%nat ->
  len (handshake_message info) = 68
  /\ slice (handshake_message info) 0 1 = Ok protocolStrLengthStr
  /\ slice (handshake_message info) 1 20 = Ok "BitTorrent protocol"
  /\ slice (handshake_message info) 20 28 = Ok "00000000"
  /\ slice (handshake_message info) 28 48
     = Ok (string_of_list_byte (InfoHash info))
  /\ slice (handshake_message info) 48 68 = Ok peerID.
Proof.
  intros Hlen.
  assert (Hl : len (handshake_message info) = 68).
  { unfold len, handshake_message.
    rewrite !length_app_str, length_string_of_list_byte, Hlen. reflexivity. }
  unfold slice. rewrite Hl. cbn [Z.leb Z.compare andb Z.sub Z.to_nat Z.add
    Z.opp Z.pos_sub Pos.to_nat Pos.iter_op Nat.add Pos.pred_double].
  unfold handshake_message.
  destruct (InfoHash info) as [|h0 [|h1 [|h2 [|h3 [|h4 [|h5 [|h6 [|h7 [|h8 [|h9
    [|h10 [|h11 [|h12 [|h13 [|h14 [|h15 [|h16 [|h17 [|h18 [|h19 [|h20 l]]]]]]]]]
    ]]]]]]]]]]]]; try discriminate Hlen.
  repeat split; reflexivity.
Qed.

(** C5 fails on the code at every torrent, here the sample one: the message
    written is 68 bytes long and laid out as the claim says, except that the
    reserved field holds the eight characters ["00000000"], bytes of value
    48, where the claim has eight bytes of value 0.  The reply is read with
    one [Read] on a buffer of 68 bytes, whose last 20 bytes are returned. *)
Theorem handshake_reserved_bytes_not_zero :
  exists info msg,
    parseToInfo sample_fs "sample.torrent" = Ok info
    /\ msg = handshake_message info
    /\ len msg = 68
    /\ slice msg 0 20 = Ok (protocolStrLengthStr +:+ "BitTorrent protocol")
    /\ slice msg 20 28 = Ok "00000000"
    /\ map byte_val (list_byte_of_string "00000000")
       = [48; 48; 48; 48; 48; 48; 48; 48]
    /\ slice msg 28 48 = Ok (string_of_list_byte (InfoHash info))
    /\ slice msg 48 68 = Ok peerID
    /\ forall reply : list byte,
        length reply = 68%nat ->
        handshake sample_fs "sample.torrent" (fresh_world [reply])
        = (Ok (drop 48 reply),
           {| incoming := []; writes_left := None;
              trace := [EvRead 68; EvWrite (list_byte_of_string msg)] |}).
Proof.
  destruct (parseToInfo sample_fs "sample.torrent") as [info| | |] eqn:Hp;
    try (vm_compute in Hp; discriminate Hp).
  assert (Hlen : length (InfoHash info) = 20%nat).
  { vm_compute in Hp. injection Hp as <-. reflexivity. }
  destruct (handshake_message_layout info Hlen) as (Hl & H0 & H1 & H2 & H3 & H4).
  exists info, (handshake_message info).
  repeat split; try assumption; try reflexivity.
  - unfold slice. rewrite Hl. unfold handshake_message. reflexivity.
  - intros reply Hreply.
    unfold handshake, io_bind, io_lift. rewrite Hp.
    unfold conn_Write, conn_Read, io_bind, log, fresh_world, io_ret.
    cbn [writes_left incoming trace]. rewrite Hl.
    cbn [Z.eqb Z.sub Z.to_nat Pos.to_nat Pos.iter_op Nat.add].
    destruct reply as [|r0 reply]; [discriminate Hreply|].
    change (Z.to_nat 68) with 68%nat.
    rewrite take_ge by (rewrite Hreply; lia).
    rewrite (drop_ge (r0 :: reply) 68) by (rewrite Hreply; lia).
    rewrite Hreply, Nat.sub_diag. cbn [repeat]. rewrite app_nil_r.
    reflexivity.
Qed.

(** A reply that arrives in two segments is cut short by the single [Read]:
    the bytes returned are the zeros the buffer was made with. *)
Example handshake_short_read :
  fst (handshake sample_fs "sample.torrent"
         (fresh_world [repeat x01 48; repeat x02 20]))
  = Ok (repeat x00 20).
Proof. vm_compute. reflexivity. Qed.

(** ** The size of the payload buffer *)

Lemma byte_val_range (b : byte) : 0 <= byte_val b < 256.
Proof.
  unfold byte_val. pose proof (Byte.to_N_bounded b). lia.
Qed.

Lemma lor_shiftl_add (a b n : Z) :
  0 <= n -> 0 <= a < 2 ^ n -> Z.lor a (Z.shiftl b n) = a + b * 2 ^ n.
Proof.
  intros Hn Ha.
  assert (Hland : Z.land a (Z.shiftl b n) = 0).
  { apply Z.bits_inj'. intros i Hi.
    rewrite Z.land_spec, Z.bits_0.
    destruct (Z.lt_ge_cases i n) as [Hlt|Hge].
    - rewrite (Z.shiftl_spec_low b n i Hlt). apply andb_false_r.
    - assert (Hbit : Z.testbit a i = false).
      { destruct (Z.eq_dec a 0) as [->|Hne]; [apply Z.bits_0|].
        apply Z.bits_above_log2; [lia|].
        apply Z.log2_lt_pow2; [lia|].
        apply Z.lt_le_trans with (2 ^ n); [lia|].
        apply Z.pow_le_mono_r; lia. }
      rewrite Hbit. reflexivity. }
  rewrite <- Z.shiftl_mul_pow2 by lia.
  rewrite <- Z.add_lor_land, Hland. lia.
Qed.

(** [binary.BigEndian.Uint32] yields the number the four bytes write in
    base 256. *)
Lemma be_word_value (b0 b1 b2 b3 : byte) :
  be_word b0 b1 b2 b3
  = byte_val b0 * 2 ^ 24 + byte_val b1 * 2 ^ 16 + byte_val b2 * 2 ^ 8
    + byte_val b3.
Proof.
  pose proof (byte_val_range b0). pose proof (byte_val_range b1).
  pose proof (byte_val_range b2). pose proof (byte_val_range b3).
  unfold be_word.
  rewrite (lor_shiftl_add (byte_val b3) (byte_val b2) 8) by lia.
  rewrite (lor_shiftl_add _ (byte_val b1) 16) by lia.
  rewrite (lor_shiftl_add _ (byte_val b0) 24) by lia.
  lia.
Qed.

Lemma conn_Read_trace (size : Z) (w : world) :
  trace (snd (conn_Read size w)) = EvRead size :: trace w.
Proof.
  unfold conn_Read, io_bind, log. cbn [incoming writes_left trace].
  destruct (size =? 0); [reflexivity|].
  destruct (incoming w) as [|[|b seg] rest]; reflexivity.
Qed.

Lemma conn_Read_length (size : Z) (w w' : world) (buf : list byte) :
  conn_Read size w = (Ok buf, w') -> length buf = Z.to_nat size.
Proof.
  unfold conn_Read, io_bind, log. cbn [incoming writes_left trace].
  destruct (size =? 0) eqn:Hz.
  - intros [= <- _]. apply Z.eqb_eq in Hz. now subst size.
  - destruct (incoming w) as [|[|b seg] rest]; try discriminate.
    intros [= <- _].
    rewrite length_app, repeat_length, length_take. lia.
Qed.

(** C10: in a turn of the loop of [waitPeerMessage] whose reads of the
    length prefix and of the id succeed, the third read is on a buffer of
    [(L - 1) mod 2^32] bytes, [L] being the big-endian value of the four
    bytes of the prefix; for the keep-alive message, [L = 0], the turn does
    not go round without reading: it reads into a buffer of 4294967295
    bytes. *)
Theorem waitPeerMessage_payload_size
    (expid : byte) (w w1 w2 : world) (messageLengthBuf messageIDBuf : list byte) :
  conn_Read messageLengthLen w = (Ok messageLengthBuf, w1) ->
  conn_Read messageIDLen w1 = (Ok messageIDBuf, w2) ->
  exists b0 b1 b2 b3 : byte,
    messageLengthBuf = [b0; b1; b2; b3]
    /\ let L := byte_val b0 * 2 ^ 24 + byte_val b1 * 2 ^ 16
                + byte_val b2 * 2 ^ 8 + byte_val b3 in
       payload_size L = (L - 1) mod 2 ^ 32
       /\ trace (snd (waitPeerMessage_turn expid w))
          = EvRead ((L - 1) mod 2 ^ 32) :: trace w2
       /\ (L = 0 ->
           trace (snd (waitPeerMessage_turn expid w))
           = EvRead 4294967295 :: trace w2).
Proof.
  intros Hlen Hid.
  pose proof (conn_Read_length _ _ _ _ Hlen) as Hl4.
  pose proof (conn_Read_length _ _ _ _ Hid) as Hl1.
  destruct messageLengthBuf as [|b0 [|b1 [|b2 [|b3 [|b4 l]]]]];
    try discriminate Hl4.
  destruct messageIDBuf as [|idb [|idb' l]]; try discriminate Hl1.
  exists b0, b1, b2, b3. split; [reflexivity|].
  assert (Htrace :
    trace (snd (waitPeerMessage_turn expid w))
    = EvRead (payload_size (be_word b0 b1 b2 b3)) :: trace w2).
  { unfold waitPeerMessage_turn, io_bind at 1. rewrite Hlen.
    unfold io_bind at 1. rewrite Hid.
    unfold io_bind, io_lift, io_ret, BigEndian_Uint32.
    pose proof (conn_Read_trace (payload_size (be_word b0 b1 b2 b3)) w2) as Ht.
    destruct (conn_Read (payload_size (be_word b0 b1 b2 b3)) w2) as [[p| | |] w3];
      exact Ht. }
  rewrite be_word_value in Htrace.
  cbv zeta. split; [reflexivity|]. split; [exact Htrace|].
  intros HL. rewrite Htrace, HL. reflexivity.
Qed.

(** A keep-alive message followed by an [unchoke] message: the turn takes
    the first byte of the next message for the id and asks for 4294967295
    bytes. *)
Lemma waitPeerMessage_payload_size_witness :
  let w := fresh_world [[x00; x00; x00; x00; x00; x00; x00; x01; x01]] in
  exists b0 b1 b2 b3 : byte,
    [x00; x00; x00; x00] = [b0; b1; b2; b3]
    /\ let L := byte_val b0 * 2 ^ 24 + byte_val b1 * 2 ^ 16
                + byte_val b2 * 2 ^ 8 + byte_val b3 in
       payload_size L = (L - 1) mod 2 ^ 32
       /\ trace (snd (waitPeerMessage_turn unchoke w))
          = EvRead ((L - 1) mod 2 ^ 32) :: [EvRead 1; EvRead 4]
       /\ (L = 0 ->
           trace (snd (waitPeerMessage_turn unchoke w))
           = EvRead 4294967295 :: [EvRead 1; EvRead 4]).
Proof.
  exact (waitPeerMessage_payload_size unchoke
           (fresh_world [[x00; x00; x00; x00; x00; x00; x00; x01; x01]])
           {| incoming := [[x00; x00; x00; x01; x01]]; writes_left := None;
              trace := [EvRead 4] |}
           {| incoming := [[x00; x00; x01; x01]]; writes_left := None;
              trace := [EvRead 1; EvRead 4] |}
           [x00; x00; x00; x00] [x00]
           eq_refl eq_refl).
Defined.

Example payload_size_keep_alive : payload_size 0 = 4294967295.
Proof. reflexivity. Qed.

Example payload_size_unchoke : payload_size 1 = 0.
Proof. reflexivity. Qed.

(** ** The fuel of the message loop is enough *)

Lemma pending_cons (seg : list byte) (rest : list (list byte))
    (wl : option nat) (tr : list event) :
  pending {| incoming := seg :: rest; writes_left := wl; trace := tr |}
  = (length seg
     + pending {| incoming := rest; writes_left := wl; trace := tr |})%nat.
Proof. reflexivity. Qed.

(** A read never adds to what is still to arrive, and a successful read on
    a buffer of at least one byte takes at least one byte. *)
Lemma conn_Read_pending (size : Z) (w w' : world) (r : result (list byte)) :
  conn_Read size w = (r, w') ->
  (pending w' <= pending w)%nat
  /\ (0 < size -> is_ok r = true -> (pending w' < pending w)%nat).
Proof.
  unfold conn_Read, io_bind, log. cbn [incoming writes_left trace].
  destruct (size =? 0) eqn:Hz.
  - intros [= <- <-]. apply Z.eqb_eq in Hz.
    split; [apply Nat.le_refl|lia].
  - destruct w as [inc wl tr]. cbn [incoming writes_left trace].
    destruct inc as [|[|b seg] rest].
    + intros [= <- <-]. split; [apply Nat.le_refl|discriminate].
    + intros [= <- <-]. split; [apply Nat.le_refl|discriminate].
    + intros [= <- <-]. apply Z.eqb_neq in Hz.
      assert (Hdrop : (length (drop (Z.to_nat size) (b :: seg))
                       = length (b :: seg) - Z.to_nat size)%nat)
        by apply length_drop.
      destruct (drop (Z.to_nat size) (b :: seg)) as [|x left] eqn:Hd.
      * unfold pending. cbn [incoming map list_sum fold_right length].
        split; [lia|]. intros _ _. lia.
      * unfold pending in *.
        cbn [incoming map list_sum fold_right length] in *.
        split; [lia|]. intros Hs _. lia.
Qed.

Lemma waitPeerMessage_turn_pending (expid : byte) (w w' : world)
    (r : result (option (list byte))) :
  waitPeerMessage_turn expid w = (r, w') ->
  is_ok r = true -> (pending w' < pending w)%nat.
Proof.
  unfold waitPeerMessage_turn, io_bind at 1.
  destruct (conn_Read messageLengthLen w) as [r1 w1] eqn:H1.
  apply conn_Read_pending in H1 as [_ H1].
  destruct r1 as [lb| | |]; try (intros [= <- _]; discriminate).
  specialize (H1 ltac:(reflexivity) eq_refl).
  unfold io_bind at 1.
  destruct (conn_Read messageIDLen w1) as [r2 w2] eqn:H2.
  apply conn_Read_pending in H2 as [H2 _].
  destruct r2 as [ib| | |]; try (intros [= <- _]; discriminate).
  unfold io_bind at 1, io_lift.
  destruct (BigEndian_Uint32 lb) as [L| | |];
    try (intros [= <- _]; discriminate).
  unfold io_bind at 1.
  destruct ib as [|idb ib]; [intros [= <- _]; discriminate|].
  unfold io_bind.
  destruct (conn_Read (payload_size L) w2) as [r3 w3] eqn:H3.
  apply conn_Read_pending in H3 as [H3 _].
  destruct r3 as [pb| | |]; try (intros [= <- _]; discriminate).
  unfold io_ret. intros [= _ <-] _. lia.
Qed.

Lemma waitPeerMessage_turn_fuel (expid : byte) (w : world) :
  fst (waitPeerMessage_turn expid w) <> OutOfFuel.
Proof.
  unfold waitPeerMessage_turn, io_bind at 1.
  assert (Hread : forall size w0, fst (conn_Read size w0) <> OutOfFuel).
  { intros size w0. unfold conn_Read, io_bind, log.
    cbn [incoming writes_left trace].
    destruct (size =? 0); [discriminate|].
    destruct (incoming w0) as [|[|b seg] rest]; discriminate. }
  pose proof (Hread messageLengthLen w) as H1.
  destruct (conn_Read messageLengthLen w) as [[lb| | |] w1];
    try discriminate; [|now destruct H1].
  unfold io_bind at 1.
  pose proof (Hread messageIDLen w1) as H2.
  destruct (conn_Read messageIDLen w1) as [[ib| | |] w2];
    try discriminate; [|now destruct H2].
  unfold io_bind at 1, io_lift, BigEndian_Uint32.
  destruct lb as [|b0 [|b1 [|b2 [|b3 lb]]]]; try discriminate.
  unfold io_bind at 1.
  destruct ib as [|idb ib]; [discriminate|].
  unfold io_bind.
  pose proof (Hread (payload_size (be_word b0 b1 b2 b3)) w2) as H3.
  destruct (conn_Read (payload_size (be_word b0 b1 b2 b3)) w2)
    as [[pb| | |] w3]; try discriminate. now destruct H3.
Qed.

Lemma waitPeerMessage_fuel_enough (fuel : nat) (expid : byte) (w : world) :
  (pending w < fuel)%nat ->
  fst (waitPeerMessage_fuel fuel expid w) <> OutOfFuel.
Proof.
  revert w. induction fuel as [|fuel IH]; intros w Hf; [lia|].
  cbn [waitPeerMessage_fuel]. unfold io_bind.
  pose proof (waitPeerMessage_turn_fuel expid w) as Hne.
  pose proof (waitPeerMessage_turn_pending expid w) as Hp.
  destruct (waitPeerMessage_turn expid w) as [[[payloadBuf|]| | |] w'];
    try discriminate.
  - apply IH. specialize (Hp _ _ eq_refl eq_refl). lia.
  - now destruct Hne.
Qed.

(** [waitPeerMessage] never runs out of fuel: it returns a payload or the
    error of a read. *)
Lemma waitPeerMessage_total (expid : byte) (w : world) :
  fst (waitPeerMessage expid w) <> OutOfFuel.
Proof.
  unfold waitPeerMessage. apply waitPeerMessage_fuel_enough. lia.
Qed.

(** The message loop skips the messages of another id and returns the
    payload of the first message of the awaited one. *)
Example waitPeerMessage_skips :
  waitPeerMessage unchoke
    (fresh_world [(message_bytes bitfield [xff] ++ message_bytes have [x00; x00; x00; x01]
                     ++ message_bytes unchoke [])%list])
  = (Ok [],
     {| incoming := []; writes_left := None;
        trace := [EvRead 0; EvRead 1; EvRead 4;
                  EvRead 4; EvRead 1; EvRead 4;
                  EvRead 1; EvRead 1; EvRead 4] |}).
Proof. vm_compute. reflexivity. Qed.

(** ** The block requests *)



Lemma wrap_int_small (z : Z) : int_min <= z <= int_max -> wrap_int z = z.
Proof.
  unfold wrap_int, int_min, int_max. intros Hz.
  rewrite Z.mod_small; lia.
Qed.

Lemma request_events_step (pieceIdx offset : Z) (k : nat) (tr : list event) :
  (request_events pieceIdx (offset + blockSize) k
     ++ EvWrite (message_bytes request
                   (request_payload pieceIdx (offset + blockSize))) :: tr)%list
  = (request_events pieceIdx offset (S k) ++ tr)%list.
Proof.
  unfold request_events.
  change (seq 1 (S k)) with (1%nat :: seq 2 k). cbn [map rev].
  rewrite <- (seq_shift k 1), map_map, <- app_assoc. cbn [app].
  replace (offset + Z.of_nat 1 * blockSize) with (offset + blockSize) by lia.
  do 2 f_equal. apply map_ext. intros j. do 3 f_equal. lia.
Qed.

(** The loop leaves after [k] requests, [k] being the first number of blocks
    that reaches the end of the piece; it has then counted [k - 1]. *)
Lemma request_loop_run (k : nat) :
  forall (fuel : nat) (pieceIdx pieceLength offset count : Z) (w : world),
    writes_left w = None ->
    (k <= fuel)%nat ->
    0 <= offset -> offset + Z.of_nat (S k) * blockSize <= int_max ->
    pieceLength <= offset + Z.of_nat (S k) * blockSize ->
    offset + Z.of_nat k * blockSize < pieceLength ->
    request_loop (S fuel) pieceIdx pieceLength offset count w
    = (Ok (count + Z.of_nat k),
       {| incoming := incoming w; writes_left := None;
          trace := (request_events pieceIdx offset (S k) ++ trace w)%list |}).
Proof.
  unfold blockSize.
  induction k as [|k IH]; intros fuel pieceIdx pieceLength offset count w
    Hw Hf Ho Hmax Hend Hbefore;
    cbn [request_loop]; unfold io_bind, sendPeerMessage, conn_Write;
    rewrite Hw, wrap_int_small by (unfold int_min, int_max, blockSize in *; lia).
  - replace (pieceLength <=? offset + blockSize) with true
      by (symmetry; apply Z.leb_le; unfold blockSize; lia).
    unfold io_ret. rewrite Z.add_0_r. reflexivity.
  - replace (pieceLength <=? offset + blockSize) with false
      by (symmetry; apply Z.leb_gt; unfold blockSize; lia).
    destruct fuel as [|fuel]; [lia|].
    rewrite (IH fuel); cbn [incoming writes_left trace];
      try reflexivity; try (unfold blockSize; lia).
    rewrite request_events_step. do 2 f_equal. lia.
Qed.

(** C1 fails on the code.  For a piece of [pieceLength] bytes the loop writes
    [k] requests, [k] being the number of 16 KiB blocks that cover the
    piece, all before any read; but [offset] is advanced before each request
    is built, so the requests begin at [blockSize], [2 * blockSize], ...,
    [k * blockSize] and no request begins at 0; and [count] is advanced
    after the test that leaves the loop, so [k - 1] piece messages are
    waited for after [k] requests. *)
Theorem request_loop_off_by_one
    (pieceIdx pieceLength : Z) (w : world) :
  0 < pieceLength <= 2 ^ 62 ->
  writes_left w = None ->
  let k := Z.to_nat ((pieceLength + blockSize - 1) / blockSize) in
  request_loop (request_fuel pieceLength) pieceIdx pieceLength 0 0 w
  = (Ok (Z.of_nat k - 1),
     {| incoming := incoming w; writes_left := None;
        trace := (request_events pieceIdx 0 k ++ trace w)%list |}).
Proof.
  intros Hpl Hw k.
  assert (Hk : 1 <= (pieceLength + blockSize - 1) / blockSize).
  { apply Z.div_le_lower_bound; unfold blockSize; lia. }
  pose proof (Z.div_mod (pieceLength + blockSize - 1) blockSize
                ltac:(unfold blockSize; lia)) as Hdm.
  pose proof (Z.mod_pos_bound (pieceLength + blockSize - 1) blockSize
                ltac:(unfold blockSize; lia)) as Hmb.
  assert (Hle : (pieceLength + blockSize - 1) / blockSize
                <= pieceLength / blockSize + 1).
  { replace (pieceLength + blockSize - 1)
      with (pieceLength - 1 + 1 * blockSize) by lia.
    rewrite Z.div_add by (unfold blockSize; lia).
    assert ((pieceLength - 1) / blockSize <= pieceLength / blockSize)
      by (apply Z.div_le_mono; unfold blockSize; lia).
    lia. }
  destruct k as [|k'] eqn:Ek; [subst k; lia|].
  unfold request_fuel.
  assert (HSk : Z.of_nat (S k') = (pieceLength + blockSize - 1) / blockSize)
    by (rewrite <- Ek; subst k; lia).
  rewrite (request_loop_run k'); try assumption.
  - do 2 f_equal. lia.
  - lia.
  - lia.
  - rewrite HSk. assert (2 ^ 62 + 2 * blockSize <= int_max)
      by (unfold blockSize, int_max; lia).
    unfold blockSize in *. nia.
  - rewrite HSk. unfold blockSize in *. lia.
  - replace (Z.of_nat k') with ((pieceLength + blockSize - 1) / blockSize - 1)
      by lia.
    unfold blockSize in *. lia.
Qed.

(** A piece of exactly one block: one request, beginning at 16384, and no
    piece message waited for. *)
Lemma request_loop_off_by_one_witness :
  request_loop (request_fuel 16384) 0 16384 0 0 (fresh_world [])
  = (Ok 0,
     {| incoming := []; writes_left := None;
        trace := [EvWrite (message_bytes request (request_payload 0 16384))] |}).
Proof.
  apply (request_loop_off_by_one 0 16384 (fresh_world [])).
  - lia.
  - reflexivity.
Defined.

(** A piece of two blocks and a half: three requests, beginning at 16384,
    32768 and 49152, the last one past the end of the piece, and two piece
    messages waited for. *)
Example request_loop_40000 :
  request_loop (request_fuel 40000) 0 40000 0 0 (fresh_world [])
  = (Ok 2,
     {| incoming := []; writes_left := None;
        trace := [EvWrite (message_bytes request (request_payload 0 49152));
                  EvWrite (message_bytes request (request_payload 0 32768));
                  EvWrite (message_bytes request (request_payload 0 16384))] |}).
Proof. vm_compute. reflexivity. Qed.

(** With no piece message to wait for, nothing is read. *)
Example receive_loop_zero (pieceIdx : Z) (combinedBlock : list byte) (w : world) :
  receive_loop 0 pieceIdx combinedBlock w = (Ok combinedBlock, w).
Proof. reflexivity. Qed.

(** ** The check of the assembled piece *)



(** The digest is 20 raw bytes; [PieceHashes] holds, for every piece, 40
    hexadecimal digits and a newline: the two strings are never equal. *)
Lemma piece_hash_never_matches (fs : filesystem) (p : string) (info : Info)
    (data : list byte) :
  parseToInfo fs p = Ok info ->
  String.eqb (string_of_list_byte (SHA1.Sum data)) (PieceHashes info) = false.
Proof.
  intros Hp.
  destruct (parseToInfo_Ok_inv _ _ _ Hp)
    as (_ & _ & _ & pieceStr & _ & _ & _ & _ & _ & _ & _ & _ & Hl).
  apply pieces_loop_length in Hl as [k Hk].
  apply eqb_length_neq.
  rewrite length_string_of_list_byte, SHA1_Sum_length, Hk.
  unfold SHA1.Size. cbn [String.length]. lia.
Qed.

(** C2 fails on the code: whatever the torrent and whatever the assembled
    buffer, the comparison of the digest with [PieceHashes] fails, the line
    "invalid piece hash" is printed and no file is written. *)
Theorem piece_hash_check_always_fails (fs : filesystem) (p : string)
    (info : Info) (outputFilepath : string) (combinedBlock : list byte)
    (w : world) :
  parseToInfo fs p = Ok info ->
  verify_and_write info outputFilepath combinedBlock w
  = (Err Returned,
     {| incoming := incoming w; writes_left := writes_left w;
        trace := EvPrintln "invalid piece hash" :: trace w |}).
Proof.
  intros Hp. unfold verify_and_write.
  rewrite (piece_hash_never_matches fs p info combinedBlock Hp).
  reflexivity.
Qed.

(** The two blocks tile the piece, the assembled buffer is the piece, its
    SHA-1 is the digest the torrent holds, and the check fails. *)
Lemma piece_hash_check_always_fails_witness :
  exists info w',
    parseToInfo piece_fs "piece.torrent" = Ok info
    /\ PieceLength info = 8
    /\ PieceHashes info
       = hex (string_of_list_byte (SHA1.Sum piece_data)) +:+ newline
    /\ receive_loop 2 0 (make (PieceLength info)) (fresh_world [piece_blocks])
       = (Ok piece_data, w')
    /\ verify_and_write info "out" piece_data w'
       = (Err Returned,
          {| incoming := incoming w'; writes_left := writes_left w';
             trace := EvPrintln "invalid piece hash" :: trace w' |}).
Proof.
  eexists. eexists.
  split; [vm_compute; reflexivity|].
  split; [reflexivity|].
  split; [vm_compute; reflexivity|].
  split; [vm_compute; reflexivity|].
  apply (piece_hash_check_always_fails piece_fs "piece.torrent").
  vm_compute. reflexivity.
Defined.

(** The whole command on the torrent of the eight-byte piece, with a peer
    that answers the handshake and sends [bitfield] and [unchoke]: one
    request is written, for the bytes from 16384 on, no piece message is
    waited for, and the buffer of eight zero bytes fails the check. *)
Example download_piece_run :
  download_piece piece_fs "out" "piece.torrent" 0
    (fresh_world [(repeat x01 68 ++ message_bytes bitfield [xff]
                     ++ message_bytes unchoke [])%list])
  = (Ok tt,
     {| incoming := []; writes_left := None;
        trace :=
          [EvPrintln "invalid piece hash";
           EvWrite (message_bytes request (request_payload 0 16384));
           EvRead 0; EvRead 1; EvRead 4;
           EvWrite (message_bytes interested []);
           EvRead 1; EvRead 1; EvRead 4;
           EvRead 68;
           EvWrite (list_byte_of_string
                      (protocolStrLengthStr +:+ protocolStr
                         +:+ reservedBytesStr
                         +:+ string_of_list_byte
                               (SHA1.Sum (list_byte_of_string
                                  ("d6:lengthi8e4:name1:f12:piece lengthi8e6:pieces20:"
                                     +:+ string_of_list_byte (SHA1.Sum piece_data)
                                     +:+ "e")))
                         +:+ peerID))] |}).
Proof. vm_compute. reflexivity. Qed.

(** * Further properties of the code *)

(** ** Decimal numerals: [%d] read back by [strconv.Atoi] *)

Lemma uint_val_ge (d : Decimal.uint) (acc : Z) :
  0 <= acc -> acc <= uint_val d acc.
Proof.
  revert acc. induction d; intros acc Hacc; cbn [uint_val]; try lia;
    (etransitivity; [|apply IHd]; lia).
Qed.

Lemma of_uint_acc_val (d : Decimal.uint) (acc : positive) :
  Z.pos (Pos.of_uint_acc d acc) = uint_val d (Z.pos acc).
Proof.
  revert acc. induction d; intros acc; cbn [Pos.of_uint_acc uint_val];
    try reflexivity; rewrite IHd; f_equal; lia.
Qed.

Lemma of_uint_val (d : Decimal.uint) : Z.of_N (Pos.of_uint d) = uint_val d 0.
Proof.
  induction d; cbn [Pos.of_uint uint_val Z.of_N]; try reflexivity;
    try (rewrite of_uint_acc_val; reflexivity).
  exact IHd.
Qed.

Lemma to_uint_val (p : positive) : uint_val (Pos.to_uint p) 0 = Z.pos p.
Proof.
  rewrite <- of_uint_val, DecimalPos.Unsigned.of_to. reflexivity.
Qed.

(** [ParseUint] reads a sequence of digits back to the number it writes, as
    long as the number fits a [uint64]. *)
Lemma cutoff_val : cutoff = 1844674407370955162.
Proof. reflexivity. Qed.

Lemma maxUint64_val : maxUint64 = 18446744073709551615.
Proof. reflexivity. Qed.

Lemma ParseUint_loop_step (a : ascii) (r : string) (acc c : Z)
    (v : result Z) :
  code a - 48 = c -> IsDigit a = true -> 0 <= acc ->
  acc * 10 + c <= maxUint64 ->
  ParseUint_loop r (acc * 10 + c) = v ->
  ParseUint_loop (String a r) acc = v.
Proof.
  intros <- Hd Hacc Hmax <-. cbn [ParseUint_loop]. rewrite Hd.
  assert (48 <= code a).
  { unfold IsDigit in Hd. apply andb_true_iff in Hd as [Hd _].
    now apply Z.leb_le in Hd. }
  rewrite maxUint64_val in Hmax.
  replace (cutoff <=? acc) with false
    by (symmetry; apply Z.leb_gt; rewrite cutoff_val; lia).
  cbv zeta.
  replace (maxUint64 <? acc * 10 + (code a - 48)) with false
    by (symmetry; apply Z.ltb_ge; rewrite maxUint64_val; lia).
  reflexivity.
Qed.

Lemma ParseUint_loop_digits (d : Decimal.uint) (acc : Z) :
  0 <= acc -> uint_val d acc <= maxUint64 ->
  ParseUint_loop (NilEmpty.string_of_uint d) acc = Ok (uint_val d acc).
Proof.
  revert acc.
  induction d; intros acc Hacc Hmax;
    cbn [NilEmpty.string_of_uint uint_val]; try reflexivity;
    cbn [uint_val] in Hmax;
    (eapply ParseUint_loop_step;
     [ vm_compute; reflexivity
     | reflexivity
     | exact Hacc
     | etransitivity; [apply (uint_val_ge d); lia | exact Hmax]
     | apply IHd; [lia | exact Hmax] ]).
Qed.

Lemma FormatInt_nonneg (n : Z) :
  0 <= n -> FormatInt n = NilEmpty.string_of_uint (digits_of n).
Proof.
  intros Hn. unfold FormatInt, NilZero.string_of_int, NilZero.string_of_uint.
  destruct n as [|p|p]; [reflexivity| |lia].
  cbn [Z.to_int digits_of].
  pose proof (DecimalPos.Unsigned.to_uint_nonnil p) as Hnil.
  destruct (Pos.to_uint p); [now destruct Hnil|reflexivity..].
Qed.

Lemma FormatInt_neg (n : Z) :
  n < 0 ->
  FormatInt n = String "-" (NilEmpty.string_of_uint (digits_of (- n))).
Proof.
  intros Hn. unfold FormatInt, NilZero.string_of_int, NilZero.string_of_uint.
  destruct n as [|p|p]; [lia|lia|].
  change (digits_of (- Z.neg p)) with (Pos.to_uint p).
  cbn [Z.to_int].
  pose proof (DecimalPos.Unsigned.to_uint_nonnil p) as Hnil.
  destruct (Pos.to_uint p); [now destruct Hnil|reflexivity..].
Qed.

Lemma digits_of_val (n : Z) : 0 <= n -> uint_val (digits_of n) 0 = n.
Proof.
  destruct n as [|p|p]; intros Hn; [reflexivity|apply to_uint_val|lia].
Qed.

Lemma digits_of_nonnil (n : Z) : digits_of n <> Decimal.Nil.
Proof.
  destruct n as [|p|p]; try discriminate.
  apply DecimalPos.Unsigned.to_uint_nonnil.
Qed.

(** The text of digits begins with a digit and has digits only. *)
Lemma string_of_uint_head (d : Decimal.uint) :
  d <> Decimal.Nil ->
  exists a r, NilEmpty.string_of_uint d = String a r /\ IsDigit a = true.
Proof.
  destruct d; intros Hd; [now destruct Hd|..];
    cbn [NilEmpty.string_of_uint]; eexists; eexists; split; reflexivity.
Qed.

Lemma first_index_after_digits (c : ascii) (d : Decimal.uint) (rest : string)
    (i : Z) :
  IsDigit c = false ->
  first_index c (NilEmpty.string_of_uint d +:+ String c rest) i
  = Some (i + len (NilEmpty.string_of_uint d)).
Proof.
  intros Hc. revert i.
  assert (Hne : forall a, IsDigit a = true -> Ascii.eqb a c = false).
  { intros a Ha. apply Ascii.eqb_neq. intros ->. congruence. }
  induction d; intros i; cbn [NilEmpty.string_of_uint];
    [ change (first_index c (String c rest) i = Some (i + len ""));
      cbn [first_index]; rewrite Ascii.eqb_refl; unfold len;
      cbn [String.length]; f_equal; lia
    | change (String ?a ?s +:+ ?t) with (String a (s +:+ t));
      cbn [first_index]; rewrite Hne by reflexivity; rewrite IHd;
      unfold len; cbn [String.length]; f_equal; lia .. ].
Qed.

(** [strconv.Atoi] reads back what [%d] writes for an [int]. *)
Lemma Atoi_FormatInt (n : Z) :
  int_min <= n <= int_max -> Atoi (FormatInt n) = Ok n.
Proof.
  unfold int_min, int_max. intros Hn.
  destruct (Z_lt_ge_dec n 0) as [Hneg|Hpos].
  - rewrite FormatInt_neg by assumption. unfold Atoi.
    change (Ascii.eqb "-" "-") with true. cbv zeta.
    rewrite orb_true_r.
    destruct (string_of_uint_head _ (digits_of_nonnil (- n)))
      as (a & r & Hs & Ha).
    unfold ParseUint. rewrite Hs, <- Hs.
    rewrite ParseUint_loop_digits, digits_of_val
      by (rewrite ?digits_of_val, ?maxUint64_val; lia).
    cbn [bind negb andb].
    replace (2 ^ 63 <? - n) with false by (symmetry; apply Z.ltb_ge; lia).
    f_equal. lia.
  - rewrite FormatInt_nonneg by lia. unfold Atoi.
    destruct (string_of_uint_head _ (digits_of_nonnil n))
      as (a & r & Hs & Ha).
    rewrite Hs.
    assert (Hminus : Ascii.eqb a "-" = false).
    { apply Ascii.eqb_neq. intros ->. discriminate Ha. }
    assert (Hplus : Ascii.eqb a "+" = false).
    { apply Ascii.eqb_neq. intros ->. discriminate Ha. }
    rewrite Hminus, Hplus. cbn [orb]. cbv zeta. unfold ParseUint.
    rewrite <- Hs.
    rewrite ParseUint_loop_digits, digits_of_val
      by (rewrite ?digits_of_val, ?maxUint64_val; lia).
    cbn [bind negb andb].
    replace (2 ^ 63 <=? n) with false by (symmetry; apply Z.leb_gt; lia).
    reflexivity.
Qed.

(** ** Slices of concatenated strings *)

Lemma app_str_cons (a : ascii) (s t : string) :
  String a s +:+ t = String a (s +:+ t).
Proof. reflexivity. Qed.

Lemma len_app (s t : string) : len (s +:+ t) = len s + len t.
Proof. unfold len. rewrite length_app_str. lia. Qed.

Lemma len_nonneg (s : string) : 0 <= len s.
Proof. unfold len. lia. Qed.

Lemma take_str_app (s t : string) : take_str (String.length s) (s +:+ t) = s.
Proof.
  induction s as [|a s IH]; [now destruct t|].
  rewrite app_str_cons. cbn [String.length take_str]. now rewrite IH.
Qed.

Lemma drop_str_app (s t : string) : drop_str (String.length s) (s +:+ t) = t.
Proof.
  induction s as [|a s IH]; [reflexivity|].
  rewrite app_str_cons. cbn [String.length drop_str]. exact IH.
Qed.

Lemma slice_app_prefix (s t : string) : slice (s +:+ t) 0 (len s) = Ok s.
Proof.
  unfold slice. rewrite len_app.
  pose proof (len_nonneg s). pose proof (len_nonneg t).
  replace ((0 <=? 0) && (0 <=? len s) && (len s <=? len s + len t)) with true
    by (symmetry; rewrite !andb_true_iff, !Z.leb_le; lia).
  rewrite Z.sub_0_r. unfold len. rewrite Nat2Z.id.
  change (Z.to_nat 0) with 0%nat. cbn [drop_str].
  now rewrite take_str_app.
Qed.

Lemma slice_app_middle (s t u : string) :
  slice (s +:+ t +:+ u) (len s) (len s + len t) = Ok t.
Proof.
  unfold slice. rewrite !len_app.
  pose proof (len_nonneg s). pose proof (len_nonneg t).
  pose proof (len_nonneg u).
  replace ((0 <=? len s) && (len s <=? len s + len t)
           && (len s + len t <=? len s + (len t + len u))) with true
    by (symmetry; rewrite !andb_true_iff, !Z.leb_le; lia).
  replace (len s + len t - len s) with (len t) by lia.
  unfold len. rewrite !Nat2Z.id.
  now rewrite drop_str_app, take_str_app.
Qed.

Lemma slice_from_app (s t : string) : slice_from (s +:+ t) (len s) = Ok t.
Proof.
  unfold slice_from.
  replace (s +:+ t) with (s +:+ t +:+ "") by now rewrite app_str_nil_r.
  rewrite (len_app s (t +:+ "")), app_str_nil_r.
  rewrite <- (app_str_nil_r t) at 1. apply slice_app_middle.
Qed.

(** ** The decoder on encoded byte-strings and integers *)

Lemma bencode_string_digits (str : string) :
  bencode_string str
  = NilEmpty.string_of_uint (digits_of (len str)) +:+ ":" +:+ str.
Proof.
  unfold bencode_string. now rewrite FormatInt_nonneg by apply len_nonneg.
Qed.

Lemma decode_digit_head (fuel : nat) (s : string) (a : ascii) (r : string) :
  s = String a r -> IsDigit a = true ->
  decodeBencode_fuel (S fuel) s
  = let firstColonIndex := scan_index ":" s in
    do lengthStr <- slice s 0 firstColonIndex ;
    do length <- Atoi lengthStr ;
    let untilIndex := wrap_int (firstColonIndex + 1 + length) in
    do str <- slice s (firstColonIndex + 1) untilIndex ;
    Ok (VStr str, untilIndex).
Proof.
  intros -> Ha. cbn [decodeBencode_fuel]. now rewrite Ha.
Qed.

(** An encoded byte-string, whatever follows it, decodes to the byte-string
    and the number of bytes of its encoding. *)
Lemma decode_string_exact (str rest : string) (fuel : nat) :
  len (bencode_string str) <= int_max ->
  decodeBencode_fuel (S fuel) (bencode_string str +:+ rest)
  = Ok (VStr str, len (bencode_string str)).
Proof.
  intros Hmax.
  pose proof (len_nonneg str) as Hstr.
  assert (Hlen : len (bencode_string str)
                 = len (FormatInt (len str)) + 1 + len str).
  { unfold bencode_string. rewrite !len_app. unfold len at 3.
    cbn [String.length]. lia. }
  pose proof (len_nonneg (FormatInt (len str))) as HD.
  assert (Hatoi : Atoi (FormatInt (len str)) = Ok (len str)).
  { apply Atoi_FormatInt. unfold int_min, int_max in *. lia. }
  rewrite bencode_string_digits in *.
  rewrite FormatInt_nonneg in Hlen, HD, Hatoi by assumption.
  set (D := NilEmpty.string_of_uint (digits_of (len str))) in *.
  destruct (string_of_uint_head _ (digits_of_nonnil (len str)))
    as (a & r & HDa & Ha).
  fold D in HDa.
  rewrite !app_str_assoc.
  rewrite (decode_digit_head fuel _ a (r +:+ ":" +:+ str +:+ rest))
    by (try rewrite HDa; first [reflexivity | exact Ha]).
  assert (Hscan : scan_index ":" (D +:+ ":" +:+ str +:+ rest) = len D).
  { unfold scan_index, D.
    change (":" +:+ str +:+ rest) with (String ":" (str +:+ rest)).
    rewrite first_index_after_digits by reflexivity. now rewrite Z.add_0_l. }
  cbv zeta. rewrite Hscan.
  rewrite slice_app_prefix. cbn [bind]. rewrite Hatoi. cbn [bind].
  rewrite wrap_int_small by (unfold int_min, int_max in *; lia).
  replace (D +:+ ":" +:+ str +:+ rest) with ((D +:+ ":") +:+ str +:+ rest)
    by now rewrite app_str_assoc.
  replace (len D + 1) with (len (D +:+ ":"))
    by (rewrite len_app; reflexivity).
  rewrite slice_app_middle. cbn [bind].
  rewrite len_app. do 2 f_equal. rewrite Hlen.
  change (len ":") with 1. lia.
Qed.

Lemma HasPrefix_same (a : ascii) (r : string) :
  HasPrefix (String a r) (String a "") = true.
Proof.
  unfold HasPrefix. cbn [String.prefix].
  destruct (ascii_dec a a) as [_|Hne]; [now destruct r|now destruct Hne].
Qed.

(** An encoded integer, whatever follows it, decodes to the integer and the
    number of bytes of its encoding. *)
Lemma decode_int_exact (n : Z) (rest : string) (fuel : nat) :
  int_min <= n <= int_max ->
  decodeBencode_fuel (S fuel) (("i" +:+ FormatInt n +:+ "e") +:+ rest)
  = Ok (VInt n, len ("i" +:+ FormatInt n +:+ "e")).
Proof.
  intros Hn.
  pose proof (Atoi_FormatInt n Hn) as Hatoi.
  pose proof (len_nonneg (FormatInt n)) as HF.
  assert (Hscan : forall rest',
    first_index "e" (FormatInt n +:+ String "e" rest') 1
    = Some (1 + len (FormatInt n))).
  { intros rest'. destruct (Z_lt_ge_dec n 0) as [Hneg|Hpos].
    - rewrite FormatInt_neg by assumption.
      rewrite app_str_cons. cbn [first_index].
      change (Ascii.eqb "-" "e") with false. cbv iota.
      rewrite first_index_after_digits by reflexivity.
      unfold len. cbn [String.length]. f_equal. lia.
    - rewrite FormatInt_nonneg by lia.
      now rewrite first_index_after_digits by reflexivity. }
  rewrite !app_str_assoc.
  change ("i" +:+ FormatInt n +:+ "e" +:+ rest)
    with (String "i" (FormatInt n +:+ String "e" rest)).
  cbn [decodeBencode_fuel].
  change (IsDigit "i") with false. cbv iota.
  rewrite HasPrefix_same. cbv iota.
  unfold scan_index. cbn [first_index].
  change (Ascii.eqb "i" "e") with false. cbv iota.
  change (0 + 1) with 1. rewrite Hscan.
  change (String "i" (FormatInt n +:+ String "e" rest))
    with ("i" +:+ FormatInt n +:+ String "e" rest).
  change 1 with (len "i") at 1 2.
  rewrite slice_app_middle. cbn [bind]. rewrite Hatoi. cbn [bind].
  do 2 f_equal. rewrite !len_app. change (len "i") with 1.
  change (len "e") with 1. lia.
Qed.

(** ** More fuel does not change an outcome *)

Lemma decodeBencode_fuel_S (fuel : nat) :
  (forall s r, decodeBencode_fuel fuel s = r -> r <> OutOfFuel ->
               decodeBencode_fuel (S fuel) s = r)
  /\ (forall in_ ret u r, list_loop fuel in_ ret u = r -> r <> OutOfFuel ->
                          list_loop (S fuel) in_ ret u = r)
  /\ (forall in_ ret key u r, dict_loop fuel in_ ret key u = r ->
                              r <> OutOfFuel ->
                              dict_loop (S fuel) in_ ret key u = r).
Proof.
  induction fuel as [|fuel (IHd & IHl & IHm)].
  { repeat split; intros; subst; cbn in *; congruence. }
  split; [|split].
  - intros s r Hr Hne.
    rewrite <- Hr in *. clear Hr r.
    cbn [decodeBencode_fuel] in *.
    destruct s as [|c0 s']; [reflexivity|].
    destruct (IsDigit c0); [reflexivity|].
    destruct (HasPrefix (String c0 s') "i"); [reflexivity|].
    destruct (HasPrefix (String c0 s') "l"); [now apply IHl|].
    destruct (HasPrefix (String c0 s') "d"); [now apply IHm|].
    reflexivity.
  - intros in_ ret u r Hr Hne.
    rewrite <- Hr in *. clear Hr r.
    cbn [list_loop] in *.
    destruct in_ as [|c0 s']; [reflexivity|].
    destruct (Ascii.eqb c0 "e"); [reflexivity|].
    destruct (decodeBencode_fuel fuel (String c0 s')) as [[decoded next]| | |]
      eqn:Hd; cbn [bind] in *; try congruence;
      rewrite (IHd _ _ Hd) by discriminate; cbn [bind]; try reflexivity.
    destruct (slice_from (String c0 s') next) as [in'| | |]; cbn [bind] in *;
      try reflexivity.
    now apply IHl.
  - intros in_ ret key u r Hr Hne.
    rewrite <- Hr in *. clear Hr r.
    cbn [dict_loop] in *.
    destruct in_ as [|c0 s']; [reflexivity|].
    destruct (Ascii.eqb c0 "e"); [reflexivity|].
    destruct (decodeBencode_fuel fuel (String c0 s')) as [[decoded next]| | |]
      eqn:Hd; cbn [bind] in *; try congruence;
      rewrite (IHd _ _ Hd) by discriminate; cbn [bind]; try reflexivity.
    destruct (if String.eqb key "" then _ else _) as [[ret' key']| | |];
      cbn [bind] in *; try reflexivity.
    destruct (slice_from (String c0 s') next) as [in'| | |]; cbn [bind] in *;
      try reflexivity.
    now apply IHm.
Qed.

Lemma decodeBencode_fuel_le (fuel fuel' : nat) (s : string)
    (r : result (value * Z)) :
  (fuel <= fuel')%nat -> decodeBencode_fuel fuel s = r -> r <> OutOfFuel ->
  decodeBencode_fuel fuel' s = r.
Proof.
  induction 1 as [|fuel' _ IH]; [trivial|].
  intros Hr Hne. apply (proj1 (decodeBencode_fuel_S fuel')); auto.
Qed.

Lemma list_loop_fuel_le (fuel fuel' : nat) (in_ : string) (ret : list value)
    (u : Z) (r : result (value * Z)) :
  (fuel <= fuel')%nat -> list_loop fuel in_ ret u = r -> r <> OutOfFuel ->
  list_loop fuel' in_ ret u = r.
Proof.
  induction 1 as [|fuel' _ IH]; [trivial|].
  intros Hr Hne. apply (proj1 (proj2 (decodeBencode_fuel_S fuel'))); auto.
Qed.

Lemma dict_loop_fuel_le (fuel fuel' : nat) (in_ : string)
    (ret : gmap string value) (key : string) (u : Z)
    (r : result (value * Z)) :
  (fuel <= fuel')%nat -> dict_loop fuel in_ ret key u = r -> r <> OutOfFuel ->
  dict_loop fuel' in_ ret key u = r.
Proof.
  induction 1 as [|fuel' _ IH]; [trivial|].
  intros Hr Hne. apply (proj2 (proj2 (decodeBencode_fuel_S fuel'))); auto.
Qed.

(** The outcome of [decodeBencode] is the outcome with any amount of fuel
    that is enough. *)
Lemma decodeBencode_any_fuel (fuel : nat) (s : string)
    (r : result (value * Z)) :
  decodeBencode_fuel fuel s = r -> r <> OutOfFuel -> decodeBencode s = r.
Proof.
  intros Hr Hne. unfold decodeBencode.
  destruct (Nat.le_ge_cases fuel (decode_fuel_for s)) as [Hle|Hge].
  - now apply (decodeBencode_fuel_le fuel).
  - pose proof (decodeBencode_total s) as Ht. unfold decodeBencode in Ht.
    rewrite <- Hr.
    symmetry. now apply (decodeBencode_fuel_le (decode_fuel_for s)).
Qed.

(** ** Round trip of values nested in last position *)

Lemma scalar_bencode (v : value) : scalar v -> bencode v = Ok (scalar_text v).
Proof. destruct v; cbn; intros H; reflexivity || destruct H. Qed.

Lemma scalar_decode (v : value) (rest : string) (fuel : nat) :
  scalar v ->
  decodeBencode_fuel (S fuel) (scalar_text v +:+ rest)
  = Ok (v, len (scalar_text v)).
Proof.
  destruct v as [s|n| |]; cbn [scalar scalar_text]; intros H;
    [now apply decode_string_exact|now apply decode_int_exact|destruct H..].
Qed.

(** No encoding begins with [e]. *)
Lemma bencode_head (v : value) (enc : string) :
  bencode v = Ok enc ->
  exists a r, enc = String a r /\ Ascii.eqb a "e" = false.
Proof.
  destruct v as [s|n|l|m]; cbn [bencode].
  - intros [= <-]. rewrite bencode_string_digits.
    destruct (string_of_uint_head _ (digits_of_nonnil (len s)))
      as (a & r & -> & Ha).
    exists a, (r +:+ ":" +:+ s). split; [reflexivity|].
    apply Ascii.eqb_neq. intros ->. discriminate Ha.
  - intros [= <-]. eexists. eexists. split; reflexivity.
  - destruct (bencode_items bencode l "") as [joined| | |]; try discriminate.
    intros [= <-]. eexists. eexists. split; reflexivity.
  - unfold bencode_dict.
    destruct (bencode_entries _ _ "") as [joined| | |]; try discriminate.
    intros [= <-]. eexists. eexists. split; reflexivity.
Qed.

Lemma scalar_text_head (v : value) :
  scalar v -> exists a r, scalar_text v = String a r /\ Ascii.eqb a "e" = false.
Proof.
  intros H. apply (bencode_head v). now apply scalar_bencode.
Qed.

Lemma bencode_items_scalars (l : list value) (joined : string) (tl : list value) :
  Forall scalar l ->
  bencode_items bencode (l ++ tl) joined
  = bencode_items bencode tl (joined +:+ scalars_text l).
Proof.
  intros Hl. revert joined.
  induction Hl as [|v l Hv _ IH]; intros joined; cbn [app scalars_text].
  - now rewrite app_str_nil_r.
  - cbn [bencode_items]. rewrite (scalar_bencode v Hv). cbn [bind].
    rewrite IH. now rewrite app_str_assoc.
Qed.

Lemma list_loop_head (fuel : nat) (in_ : string) (a : ascii) (r : string)
    (ret : list value) (u : Z) :
  in_ = String a r -> Ascii.eqb a "e" = false ->
  list_loop (S fuel) in_ ret u
  = do '(decoded, nextIndex) <- decodeBencode_fuel fuel in_ ;
    do in' <- slice_from in_ nextIndex ;
    list_loop fuel in' (ret ++ [decoded])%list (u + nextIndex).
Proof. intros -> Ha. cbn [list_loop]. now rewrite Ha. Qed.

Lemma dict_loop_head (fuel : nat) (in_ : string) (a : ascii) (r : string)
    (ret : gmap string value) (key : string) (u : Z) :
  in_ = String a r -> Ascii.eqb a "e" = false ->
  dict_loop (S fuel) in_ ret key u
  = do '(decoded, nextIndex) <- decodeBencode_fuel fuel in_ ;
    do '(ret', key') <-
      (if String.eqb key "" then
         match decoded with
         | VStr s => Ok (ret, s)
         | _ => Panic TypeAssertion
         end
       else Ok (<[key := decoded]> ret, "")) ;
    do in' <- slice_from in_ nextIndex ;
    dict_loop fuel in' ret' key' (u + nextIndex).
Proof. intros -> Ha. cbn [dict_loop]. now rewrite Ha. Qed.

(** The list loop on the encodings of scalars: one turn each. *)
Lemma list_loop_scalars (l : list value) :
  Forall scalar l ->
  forall (fuel : nat) (tail : string) (ret : list value) (u : Z),
    list_loop (length l + S fuel) (scalars_text l +:+ tail) ret u
    = list_loop (S fuel) tail (ret ++ l)%list (u + len (scalars_text l)).
Proof.
  induction 1 as [|v l Hv _ IH]; intros fuel tail ret u.
  - cbn [scalars_text length Nat.add]. rewrite app_nil_r.
    change (len "") with 0. now rewrite Z.add_0_r.
  - cbn [scalars_text length Nat.add]. rewrite app_str_assoc.
    destruct (scalar_text_head v Hv) as (a & r & Ha & Hne).
    rewrite (list_loop_head _ _ a (r +:+ scalars_text l +:+ tail))
      by (try rewrite Ha; first [reflexivity | exact Hne]).
    replace (length l + S fuel)%nat with (S (length l + fuel)) by lia.
    rewrite scalar_decode by assumption. cbn [bind].
    rewrite slice_from_app. cbn [bind].
    replace (S (length l + fuel)) with (length l + S fuel)%nat by lia.
    rewrite IH. rewrite <- app_assoc. cbn [app].
    rewrite len_app. f_equal. lia.
Qed.

Lemma e_run_snoc (d : nat) : e_run d +:+ "e" = e_run (S d).
Proof.
  induction d as [|d IH]; [reflexivity|].
  cbn [e_run]. rewrite app_str_cons. now rewrite IH.
Qed.

Lemma len_e_run (d : nat) : len (e_run d) = Z.of_nat d.
Proof.
  induction d as [|d IH]; [reflexivity|].
  unfold len in *. cbn [e_run String.length]. lia.
Qed.

Lemma e_run_head (d : nat) (rest : string) :
  exists r, e_run d +:+ "e" +:+ rest = String "e" r.
Proof.
  destruct d; cbn [e_run]; eexists; reflexivity.
Qed.

Lemma bencode_entries_pairs (enc : gmap string (result string))
    (kvs : list (string * value)) (keys : list string) (joined : string) :
  Forall (fun kv => enc !! kv.1 = Some (Ok (scalar_text kv.2))) kvs ->
  bencode_entries enc (map fst kvs ++ keys) joined
  = bencode_entries enc keys (joined +:+ pairs_text kvs).
Proof.
  intros H. revert joined.
  induction H as [|[k v] kvs Hk _ IH]; intros joined;
    cbn [map app pairs_text fst].
  - now rewrite app_str_nil_r.
  - cbn [bencode_entries]. cbn [fst snd] in Hk. rewrite Hk.
    cbn [from_option id bind]. rewrite IH. now rewrite !app_str_assoc.
Qed.

Lemma bencode_string_head (k : string) :
  exists a r, bencode_string k = String a r /\ Ascii.eqb a "e" = false.
Proof. apply (bencode_head (VStr k)). reflexivity. Qed.

(** The dictionary loop on the encodings of keys and scalars: two turns for
    each pair, the second of which assigns. *)
Lemma dict_loop_pairs (kvs : list (string * value)) :
  Forall (fun kv => key_ok kv.1 /\ scalar kv.2) kvs ->
  forall (fuel : nat) (tail : string) (ret : gmap string value) (u : Z),
    dict_loop (2 * length kvs + S fuel) (pairs_text kvs +:+ tail) ret "" u
    = dict_loop (S fuel) tail (assign_all ret kvs) ""
        (u + len (pairs_text kvs)).
Proof.
  induction 1 as [|[k v] kvs [[Hk Hkmax] Hv] _ IH]; intros fuel tail ret u.
  - cbn [pairs_text length Nat.mul Nat.add assign_all foldl].
    change (len "") with 0. now rewrite Z.add_0_r.
  - cbn [fst snd] in Hk, Hkmax, Hv.
    cbn [pairs_text length assign_all foldl fst snd].
    rewrite !app_str_assoc.
    replace (2 * S (length kvs) + S fuel)%nat
      with (S (S (S (2 * length kvs + fuel)))) by lia.
    destruct (bencode_string_head k) as (a & r & Ha & Hne).
    rewrite (dict_loop_head _ _ a
               (r +:+ scalar_text v +:+ pairs_text kvs +:+ tail))
      by (try rewrite Ha; first [reflexivity | exact Hne]).
    rewrite decode_string_exact by assumption. cbn [bind].
    change (String.eqb "" "") with true. cbv iota. cbn [bind].
    rewrite slice_from_app. cbn [bind].
    destruct (scalar_text_head v Hv) as (a' & r' & Ha' & Hne').
    rewrite (dict_loop_head _ _ a' (r' +:+ pairs_text kvs +:+ tail))
      by (try rewrite Ha'; first [reflexivity | exact Hne']).
    rewrite scalar_decode by assumption. cbn [bind].
    replace (String.eqb k "") with false
      by (symmetry; now apply String.eqb_neq).
    cbn [bind]. rewrite slice_from_app. cbn [bind].
    replace (S (2 * length kvs + fuel)) with (2 * length kvs + S fuel)%nat
      by lia.
    rewrite IH. fold (assign_all (<[k:=v]> ret) kvs).
    f_equal. rewrite !len_app. lia.
Qed.

Lemma assign_all_app (ret : gmap string value) (l1 l2 : list (string * value)) :
  assign_all ret (l1 ++ l2) = assign_all (assign_all ret l1) l2.
Proof. unfold assign_all. apply foldl_app. Qed.

Lemma assign_all_lookup (kvs : list (string * value)) :
  NoDup (map fst kvs) ->
  forall (ret : gmap string value) (k : string),
    (forall v, In (k, v) kvs -> assign_all ret kvs !! k = Some v)
    /\ (~ In k (map fst kvs) -> assign_all ret kvs !! k = ret !! k).
Proof.
  induction kvs as [|[k0 v0] kvs IH]; intros Hnd ret k.
  - split; [intros v []|reflexivity].
  - cbn [map fst] in Hnd. apply NoDup_cons in Hnd as [Hnotin Hnd].
    cbn [assign_all foldl fst snd].
    fold (assign_all (<[k0:=v0]> ret) kvs).
    destruct (IH Hnd (<[k0:=v0]> ret) k) as [IHin IHout].
    split.
    + intros v [[= -> ->]|Hin]; [|now apply IHin].
      rewrite IHout; [apply lookup_insert_eq|].
      intros Hin. apply Hnotin. now apply list_elem_of_In.
    + intros Hout. cbn [map fst In] in Hout.
      rewrite IHout by tauto. apply lookup_insert_ne. tauto.
Qed.

(** Assigning the bindings of a dictionary, key by key, gives the
    dictionary. *)
Lemma assign_all_map (m : gmap string value) (kvs : list (string * value)) :
  map fst kvs ≡ₚ map fst (map_to_list m) ->
  Forall (fun kv => m !! kv.1 = Some kv.2) kvs ->
  assign_all ∅ kvs = m.
Proof.
  intros Hperm Hall.
  assert (Hnd : NoDup (map fst kvs))
    by (rewrite Hperm; apply NoDup_fst_map_to_list).
  apply map_eq. intros k.
  destruct (assign_all_lookup kvs Hnd ∅ k) as [Hin Hout].
  destruct (m !! k) as [x|] eqn:Hk.
  - assert (Hk' : k ∈ map fst kvs).
    { rewrite Hperm. apply list_elem_of_fmap. exists (k, x).
      split; [reflexivity|]. now apply elem_of_map_to_list. }
    apply list_elem_of_fmap in Hk' as [[k' v'] [Heq Hkv]].
    cbn [fst] in Heq. subst k'.
    rewrite Forall_forall in Hall. pose proof (Hall _ Hkv) as Hv.
    cbn [fst snd] in Hv. rewrite Hk in Hv. injection Hv as ->.
    apply Hin. now apply list_elem_of_In.
  - rewrite Hout; [apply lookup_empty|].
    intros Hin'. apply list_elem_of_In in Hin'.
    apply list_elem_of_fmap in Hin' as [[k' v'] [Heq Hkv]].
    cbn [fst] in Heq. subst k'.
    rewrite Forall_forall in Hall. pose proof (Hall _ Hkv) as Hv.
    cbn [fst snd] in Hv. congruence.
Qed.

Lemma decode_list_head (fuel : nat) (s : string) :
  decodeBencode_fuel (S fuel) (String "l" s) = list_loop fuel s [] 0.
Proof.
  cbn [decodeBencode_fuel]. change (IsDigit "l") with false. cbv iota.
  rewrite HasPrefix_single by discriminate.
  rewrite HasPrefix_same. unfold TrimPrefix. rewrite HasPrefix_same.
  reflexivity.
Qed.

Lemma decode_dict_head (fuel : nat) (s : string) :
  decodeBencode_fuel (S fuel) (String "d" s) = dict_loop fuel s ∅ "" 0.
Proof.
  cbn [decodeBencode_fuel]. change (IsDigit "d") with false. cbv iota.
  rewrite !HasPrefix_single by discriminate.
  rewrite HasPrefix_same. unfold TrimPrefix. rewrite HasPrefix_same.
  reflexivity.
Qed.

(** The decoder on the encoding of a value nested in last position,
    whatever follows the encoding: the value comes back, and the count falls
    short of the length of the encoding by the depth of the nesting, which
    is the number of closing [e] the encoding ends with. *)
Lemma last_nested_decode (v : value) (d : nat) :
  last_nested v d ->
  exists (enc pre : string) (fuel : nat),
    bencode v = Ok enc
    /\ enc = pre +:+ e_run d
    /\ forall (rest : string) (fuel' : nat),
        (fuel <= fuel')%nat ->
        decodeBencode_fuel fuel' (enc +:+ rest)
        = Ok (v, len enc - Z.of_nat d).
Proof.
  induction 1 as [v Hv| |l v d Hl Hv IH| |m kvs k v d Hkeys Hm Hkvs Hk Hv IH].
  - exists (scalar_text v), (scalar_text v), 1%nat.
    split; [now apply scalar_bencode|].
    split; [now rewrite app_str_nil_r|].
    intros rest [|fuel'] Hf; [lia|].
    rewrite scalar_decode by assumption. now rewrite Z.sub_0_r.
  - exists "le", "l", 2%nat.
    split; [reflexivity|]. split; [reflexivity|].
    intros rest [|[|fuel']] Hf; try lia.
    change ("le" +:+ rest) with (String "l" (String "e" rest)).
    rewrite decode_list_head. reflexivity.
  - destruct IH as (encv & prev & fuelv & Hencv & Hpre & Hdec).
    exists ("l" +:+ (scalars_text l +:+ encv) +:+ "e"),
           ("l" +:+ scalars_text l +:+ prev),
           (S (length l + S (S fuelv))).
    split.
    { cbn [bencode]. rewrite bencode_items_scalars by assumption.
      cbn [bencode_items]. rewrite Hencv. cbn [bind].
      change ("" +:+ scalars_text l) with (scalars_text l). reflexivity. }
    split.
    { rewrite Hpre, <- e_run_snoc. now rewrite !app_str_assoc. }
    intros rest fuel' Hf.
    apply (decodeBencode_fuel_le (S (length l + S (S fuelv)))); [exact Hf| |discriminate].
    rewrite !app_str_assoc.
    change ("l" +:+ scalars_text l +:+ encv +:+ "e" +:+ rest)
      with (String "l" (scalars_text l +:+ encv +:+ "e" +:+ rest)).
    rewrite decode_list_head, list_loop_scalars by assumption.
    destruct (bencode_head v encv Hencv) as (a & r & Ha & Hne).
    rewrite (list_loop_head _ _ a (r +:+ "e" +:+ rest))
      by (try rewrite Ha; first [reflexivity | exact Hne]).
    rewrite Hdec by lia. cbn [bind].
    assert (Hslice : slice_from (encv +:+ "e" +:+ rest) (len encv - Z.of_nat d)
                     = Ok (e_run d +:+ "e" +:+ rest)).
    { rewrite Hpre at 1 2. rewrite len_app, len_e_run, app_str_assoc.
      replace (len prev + Z.of_nat d - Z.of_nat d) with (len prev) by lia.
      apply slice_from_app. }
    rewrite Hslice. cbn [bind].
    destruct (e_run_head d rest) as [r' ->].
    cbn [list_loop]. change (Ascii.eqb "e" "e") with true. cbv iota.
    cbn [app]. do 2 f_equal.
    rewrite !len_app. change (len "l") with 1. change (len "e") with 1. lia.
  - exists "de", "d", 2%nat.
    split; [vm_compute; reflexivity|]. split; [reflexivity|].
    intros rest [|[|fuel']] Hf; try lia.
    change ("de" +:+ rest) with (String "d" (String "e" rest)).
    rewrite decode_dict_head. reflexivity.
  - destruct IH as (encv & prev & fuelv & Hencv & Hpre & Hdec).
    destruct Hk as [Hkne Hkmax].
    exists ("d" +:+ (pairs_text kvs +:+ bencode_string k +:+ encv) +:+ "e"),
           ("d" +:+ pairs_text kvs +:+ bencode_string k +:+ prev),
           (S (2 * length kvs + S (S (S fuelv)))).
    apply Forall_app in Hm as [Hmkvs Hmk].
    rewrite Forall_singleton in Hmk. cbn [fst snd] in Hmk.
    split.
    { cbn [bencode]. unfold bencode_dict. rewrite <- Hkeys.
      rewrite map_app. cbn [map fst].
      rewrite bencode_entries_pairs.
      - cbn [bencode_entries]. rewrite lookup_fmap, Hmk.
        cbn [fmap option_fmap option_map from_option id].
        rewrite Hencv. cbn [bind].
        change ("" +:+ pairs_text kvs) with (pairs_text kvs).
        now rewrite !app_str_assoc.
      - rewrite Forall_forall in *. intros kv Hin.
        rewrite lookup_fmap, (Hmkvs kv Hin).
        cbn [fmap option_fmap option_map].
        now rewrite scalar_bencode by apply (Hkvs kv Hin). }
    split.
    { rewrite Hpre, <- e_run_snoc. now rewrite !app_str_assoc. }
    intros rest fuel' Hf.
    apply (decodeBencode_fuel_le (S (2 * length kvs + S (S (S fuelv)))));
      [exact Hf| |discriminate].
    rewrite !app_str_assoc.
    change ("d" +:+ pairs_text kvs +:+ bencode_string k +:+ encv +:+ "e"
              +:+ rest)
      with (String "d" (pairs_text kvs +:+ bencode_string k +:+ encv +:+ "e"
                          +:+ rest)).
    rewrite decode_dict_head, dict_loop_pairs by assumption.
    destruct (bencode_string_head k) as (a & r & Ha & Hne).
    rewrite (dict_loop_head _ _ a (r +:+ encv +:+ "e" +:+ rest))
      by (try rewrite Ha; first [reflexivity | exact Hne]).
    rewrite decode_string_exact by assumption. cbn [bind].
    change (String.eqb "" "") with true. cbv iota. cbn [bind].
    rewrite slice_from_app. cbn [bind].
    destruct (bencode_head v encv Hencv) as (a' & r' & Ha' & Hne').
    rewrite (dict_loop_head _ _ a' (r' +:+ "e" +:+ rest))
      by (try rewrite Ha'; first [reflexivity | exact Hne']).
    rewrite Hdec by lia. cbn [bind].
    replace (String.eqb k "") with false
      by (symmetry; now apply String.eqb_neq).
    cbn [bind].
    assert (Hslice : slice_from (encv +:+ "e" +:+ rest) (len encv - Z.of_nat d)
                     = Ok (e_run d +:+ "e" +:+ rest)).
    { rewrite Hpre at 1 2. rewrite len_app, len_e_run, app_str_assoc.
      replace (len prev + Z.of_nat d - Z.of_nat d) with (len prev) by lia.
      apply slice_from_app. }
    rewrite Hslice. cbn [bind].
    destruct (e_run_head d rest) as [r'' ->].
    cbn [dict_loop]. change (Ascii.eqb "e" "e") with true. cbv iota.
    assert (Hmap : <[k:=v]> (assign_all ∅ kvs) = m).
    { change (<[k:=v]> (assign_all ∅ kvs))
        with (assign_all (assign_all ∅ kvs) [(k, v)]).
      rewrite <- assign_all_app. apply assign_all_map.
      - rewrite Hkeys. apply merge_sort_Permutation.
      - apply Forall_app. split; [assumption|].
        now apply Forall_singleton. }
    rewrite Hmap. do 2 f_equal.
    rewrite !len_app. change (len "d") with 1. change (len "e") with 1. lia.
Qed.

(** X1: a value whose lists and dictionaries hold scalars, except in last
    position, and whose keys are not empty, is encoded without error and
    decoded back from its encoding, whatever bytes follow the encoding; the
    byte count returned is the length of the encoding less the depth of the
    nesting.  Encoding the decoded value gives the encoding again. *)
Theorem roundtrip_last_nested (v : value) (d : nat) :
  last_nested v d ->
  exists enc : string,
    bencode v = Ok enc
    /\ (forall rest : string,
          decodeBencode (enc +:+ rest) = Ok (v, len enc - Z.of_nat d))
    /\ (forall rest v' n,
          decodeBencode (enc +:+ rest) = Ok (v', n) -> bencode v' = Ok enc).
Proof.
  intros H.
  destruct (last_nested_decode v d H) as (enc & pre & fuel & Henc & _ & Hdec).
  exists enc. split; [exact Henc|].
  assert (Hrest : forall rest,
    decodeBencode (enc +:+ rest) = Ok (v, len enc - Z.of_nat d)).
  { intros rest. apply (decodeBencode_any_fuel fuel); [|discriminate].
    now apply Hdec. }
  split; [exact Hrest|].
  intros rest v' n Hd. rewrite Hrest in Hd. now injection Hd as <- _.
Qed.

Lemma roundtrip_last_nested_witness :
  exists enc : string,
    bencode (VList [VStr "hello"; VList [VInt 52]]) = Ok enc
    /\ (forall rest : string,
          decodeBencode (enc +:+ rest)
          = Ok (VList [VStr "hello"; VList [VInt 52]], len enc - Z.of_nat 2))
    /\ (forall rest v' n,
          decodeBencode (enc +:+ rest) = Ok (v', n) -> bencode v' = Ok enc).
Proof.
  apply (roundtrip_last_nested (VList ([VStr "hello"] ++ [VList ([] ++ [VInt 52])])) 2).
  apply ln_list.
  - constructor; [vm_compute; discriminate|constructor].
  - apply ln_list; [constructor|].
    apply ln_scalar. vm_compute. split; discriminate.
Defined.

(** A dictionary of the class: the value of the greatest key is a list. *)
Example last_nested_dict :
  last_nested
    (VDict (<["foo" := VStr "bar"]> (<["hello" := VList [VInt 52]]> ∅))) 2.
Proof.
  apply (ln_dict _ [("foo", VStr "bar")] "hello" (VList ([] ++ [VInt 52])) 1).
  - vm_compute. reflexivity.
  - repeat constructor.
  - repeat constructor; try discriminate; vm_compute; discriminate.
  - split; [discriminate|vm_compute; discriminate].
  - apply ln_list; [constructor|].
    apply ln_scalar. vm_compute. split; discriminate.
Qed.

(** ** The byte count and the failures of the decoder *)

Lemma first_index_lt (c : ascii) (s : string) (i j : Z) :
  first_index c s i = Some j -> j < i + len s.
Proof.
  revert i. induction s as [|a s IH]; intros i; cbn [first_index].
  - discriminate.
  - unfold len in *. cbn [String.length].
    destruct (Ascii.eqb a c); [intros [= <-]; lia|].
    intros H. apply IH in H. lia.
Qed.

Lemma scan_index_lt (c a : ascii) (r : string) :
  scan_index c (String a r) < len (String a r).
Proof.
  unfold scan_index.
  destruct (first_index c (String a r) 0) eqn:H.
  - apply first_index_lt in H. lia.
  - unfold len. cbn [String.length]. lia.
Qed.

Lemma decode_count_le (fuel : nat) :
  (forall s v n, decodeBencode_fuel fuel s = Ok (v, n) ->
     n <= len s /\ (is_container v = true -> n <= len s - 1))
  /\ (forall in_ ret u v n, list_loop fuel in_ ret u = Ok (v, n) ->
        n <= u + len in_)
  /\ (forall in_ ret key u v n, dict_loop fuel in_ ret key u = Ok (v, n) ->
        n <= u + len in_).
Proof.
  induction fuel as [|fuel (IHd & IHl & IHm)].
  { repeat split; intros; discriminate. }
  split; [|split].
  - intros s v n. cbn [decodeBencode_fuel].
    destruct s as [|c0 r]; [discriminate|].
    destruct (IsDigit c0).
    { destruct (slice (String c0 r) 0 _) as [lengthStr| | |]; cbn [bind];
        try discriminate.
      destruct (Atoi lengthStr) as [length| | |]; cbn [bind];
        try discriminate.
      destruct (slice (String c0 r) (_ + 1) _) as [str| | |] eqn:Hs;
        cbn [bind]; try discriminate.
      intros [= <- <-]. apply slice_bounds in Hs.
      split; [lia|discriminate]. }
    destruct (HasPrefix (String c0 r) "i").
    { destruct (slice (String c0 r) 1 _) as [numStr| | |]; cbn [bind];
        try discriminate.
      destruct (Atoi numStr) as [num| | |]; cbn [bind]; try discriminate.
      intros [= <- <-]. pose proof (scan_index_lt "e" c0 r).
      split; [lia|discriminate]. }
    destruct (HasPrefix (String c0 r) "l") eqn:Hl.
    { rewrite (TrimPrefix_single _ _ _ Hl). intros H. apply IHl in H.
      unfold len in *. cbn [String.length]. split; [lia|intros _; lia]. }
    destruct (HasPrefix (String c0 r) "d") eqn:Hd.
    { rewrite (TrimPrefix_single _ _ _ Hd). intros H. apply IHm in H.
      unfold len in *. cbn [String.length]. split; [lia|intros _; lia]. }
    discriminate.
  - intros in_ ret u v n. cbn [list_loop].
    destruct in_ as [|c0 r]; [discriminate|].
    destruct (Ascii.eqb c0 "e").
    { intros [= _ <-]. unfold len. cbn [String.length]. lia. }
    destruct (decodeBencode_fuel fuel (String c0 r)) as [[decoded next]| | |];
      cbn [bind]; try discriminate.
    destruct (slice_from (String c0 r) next) as [in'| | |] eqn:Hs;
      cbn [bind]; try discriminate.
    intros H. apply IHl in H. apply slice_length in Hs. unfold len in *. lia.
  - intros in_ ret key u v n. cbn [dict_loop].
    destruct in_ as [|c0 r]; [discriminate|].
    destruct (Ascii.eqb c0 "e").
    { intros [= _ <-]. unfold len. cbn [String.length]. lia. }
    destruct (decodeBencode_fuel fuel (String c0 r)) as [[decoded next]| | |];
      cbn [bind]; try discriminate.
    destruct (if String.eqb key "" then _ else _) as [[ret' key']| | |];
      cbn [bind]; try discriminate.
    destruct (slice_from (String c0 r) next) as [in'| | |] eqn:Hs;
      cbn [bind]; try discriminate.
    intros H. apply IHm in H. apply slice_length in Hs. unfold len in *. lia.
Qed.

(** X2: the byte count of a successful decode is at least 1 and at most the
    length of the input; for a list or a dictionary it is less than the
    length of the input, the leading [l] or [d] not being counted. *)
Theorem decode_count_bounds (s : string) (v : value) (n : Z) :
  decodeBencode s = Ok (v, n) ->
  1 <= n <= len s /\ (is_container v = true -> n < len s).
Proof.
  intros H. unfold decodeBencode in H.
  destruct (proj1 (decode_count_le _) _ _ _ H) as [Hle Hc].
  destruct (proj1 (decodeBencode_fuel_enough (decode_fuel_for s)) s)
    as [_ Hpos]; [unfold decode_fuel_for; lia|].
  specialize (Hpos _ _ H).
  split; [lia|]. intros Hv. specialize (Hc Hv). lia.
Qed.

Lemma decode_count_bounds_witness :
  1 <= 12 <= len "l5:helloi52ee"
  /\ (is_container (VList [VStr "hello"; VInt 52]) = true
      -> 12 < len "l5:helloi52ee").
Proof.
  apply (decode_count_bounds "l5:helloi52ee" (VList [VStr "hello"; VInt 52])).
  vm_compute. reflexivity.
Defined.

Lemma Atoi_failure (s : string) : decode_failure (Atoi s).
Proof.
  unfold Atoi. destruct s as [|a r]; [cbn; auto|].
  assert (Hloop : forall t n, decode_failure (ParseUint_loop t n)).
  { induction t as [|x t IH]; intros n; cbn [ParseUint_loop]; [exact I|].
    destruct (IsDigit x); [|cbn; auto].
    destruct (cutoff <=? n); [cbn; auto|].
    destruct (maxUint64 <? _); [cbn; auto|apply IH]. }
  assert (Hp : forall t, decode_failure (ParseUint t)).
  { intros [|x t]; [cbn; auto|apply Hloop]. }
  match goal with |- context [ParseUint ?b] => specialize (Hp b);
    destruct (ParseUint b) as [un| | |] end; cbn [bind]; try exact Hp.
  destruct (_ && _); [cbn; auto|].
  destruct (_ && _); [cbn; auto|exact I].
Qed.

Lemma slice_failure (s : string) (a b : Z) : decode_failure (slice s a b).
Proof. unfold slice. destruct (_ && _ && _); cbn; auto. Qed.

Lemma bind_failure {A B : Type} (r : result A) (k : A -> result B) :
  decode_failure r -> (forall a, r = Ok a -> decode_failure (k a)) ->
  decode_failure (bind r k).
Proof. destruct r; cbn [bind]; auto. Qed.

Lemma decode_failure_all (fuel : nat) :
  (forall s, decode_failure (decodeBencode_fuel fuel s))
  /\ (forall in_ ret u, decode_failure (list_loop fuel in_ ret u))
  /\ (forall in_ ret key u, decode_failure (dict_loop fuel in_ ret key u)).
Proof.
  induction fuel as [|fuel (IHd & IHl & IHm)]; [repeat split; exact I|].
  split; [|split].
  - intros s. cbn [decodeBencode_fuel].
    destruct s as [|c0 r]; [cbn; auto|].
    destruct (IsDigit c0).
    { apply bind_failure; [apply slice_failure|]. intros lengthStr _.
      apply bind_failure; [apply Atoi_failure|]. intros length _.
      apply bind_failure; [apply slice_failure|]. intros str _. exact I. }
    destruct (HasPrefix (String c0 r) "i").
    { apply bind_failure; [apply slice_failure|]. intros numStr _.
      apply bind_failure; [apply Atoi_failure|]. intros num _. exact I. }
    destruct (HasPrefix (String c0 r) "l"); [apply IHl|].
    destruct (HasPrefix (String c0 r) "d"); [apply IHm|].
    cbn. auto.
  - intros in_ ret u. cbn [list_loop].
    destruct in_ as [|c0 r]; [cbn; auto|].
    destruct (Ascii.eqb c0 "e"); [exact I|].
    apply bind_failure; [apply IHd|]. intros [decoded next] _.
    apply bind_failure; [apply slice_failure|]. intros in' _. apply IHl.
  - intros in_ ret key u. cbn [dict_loop].
    destruct in_ as [|c0 r]; [cbn; auto|].
    destruct (Ascii.eqb c0 "e"); [exact I|].
    apply bind_failure; [apply IHd|]. intros [decoded next] _.
    apply bind_failure.
    { destruct (String.eqb key ""); [|exact I].
      destruct decoded; cbn; auto. }
    intros [ret' key'] _.
    apply bind_failure; [apply slice_failure|]. intros in' _. apply IHm.
Qed.

(** X3: whatever the input, [decodeBencode] ends in a value, in one of the
    errors "invalid syntax", "value out of range" and "unexpected format",
    or in a panic on an index, a slice or a type assertion; the empty input
    is one that panics. *)
Theorem decodeBencode_failures (s : string) :
  decode_failure (decodeBencode s)
  /\ decodeBencode s <> OutOfFuel
  /\ decodeBencode "" = Panic IndexOutOfRange.
Proof.
  split; [apply decode_failure_all|].
  split; [apply decodeBencode_total|reflexivity].
Qed.

(** ** The piece hashes of the metainfo *)

Lemma drop_str_add (n m : nat) (s : string) :
  drop_str (n + m) s = drop_str m (drop_str n s).
Proof.
  revert s. induction n as [|n IH]; intros s; [reflexivity|].
  destruct s as [|a r]; cbn [Nat.add drop_str]; [now destruct m|apply IH].
Qed.

Lemma length_hash_lines (ds : list string) :
  Forall (fun d => String.length d = 20%nat) ds ->
  String.length (hash_lines ds) = (41 * length ds)%nat.
Proof.
  induction 1 as [|d r Hd _ IH]; [reflexivity|].
  cbn [hash_lines length]. rewrite !length_app_str, length_hex, Hd, IH.
  cbn [newline String.length]. lia.
Qed.

Lemma chunks_length (n k : nat) (s : string) :
  (n * k <= String.length s)%nat ->
  length (chunks n k s) = k
  /\ Forall (fun d => String.length d = n) (chunks n k s).
Proof.
  revert s. induction k as [|k IH]; intros s Hs; cbn [chunks].
  - split; [reflexivity|constructor].
  - destruct (IH (drop_str n s)) as [Hl Hf].
    { rewrite length_drop_str. lia. }
    cbn [length]. split; [now rewrite Hl|].
    constructor; [|exact Hf]. rewrite length_take_str. lia.
Qed.

Lemma pieces_loop_text (fuel : nat) (pieceStr : string) (i : Z)
    (hashes h : string) :
  0 <= i <= len pieceStr ->
  pieces_loop fuel pieceStr i hashes = Ok h ->
  exists k : nat,
    len pieceStr - i = 20 * Z.of_nat k
    /\ h = hashes +:+ hash_lines (chunks 20 k (drop_str (Z.to_nat i) pieceStr)).
Proof.
  revert i hashes. induction fuel as [|fuel IH]; intros i hashes Hi;
    cbn [pieces_loop]; destruct (i <? len pieceStr) eqn:Hlt.
  - discriminate.
  - intros [= <-]. apply Z.ltb_ge in Hlt. exists 0%nat.
    cbn [chunks hash_lines]. rewrite app_str_nil_r. split; [lia|reflexivity].
  - destruct (slice pieceStr i (i + eachPieceSize)) as [chunk| | |] eqn:Hs;
      cbn [bind]; try discriminate.
    intros H. pose proof (slice_bounds _ _ _ _ Hs) as Hb.
    unfold eachPieceSize in *.
    destruct (IH (i + 20) _ ltac:(lia) H) as (k & Hk & ->).
    exists (S k). split; [lia|].
    cbn [chunks hash_lines]. rewrite !app_str_assoc.
    unfold slice in Hs.
    destruct ((0 <=? i) && (i <=? i + 20) && (i + 20 <=? len pieceStr));
      [|discriminate].
    injection Hs as <-.
    replace (Z.to_nat (i + 20 - i)) with 20%nat by lia.
    replace (Z.to_nat (i + 20)) with (Z.to_nat i + 20)%nat by lia.
    now rewrite drop_str_add.
  - intros [= <-]. apply Z.ltb_ge in Hlt. exists 0%nat.
    cbn [chunks hash_lines]. rewrite app_str_nil_r. split; [lia|reflexivity].
Qed.

(** X4: when [parseToInfo] returns the metainfo of a torrent, the length of
    its [pieces] byte-string is a multiple of 20, and [PieceHashes] is one
    line for each 20-byte digest, in order: the 40 hexadecimal digits of the
    digest and a newline, 41 characters for every piece. *)
Theorem parseToInfo_piece_hashes (fs : filesystem) (p : string) (info : Info) :
  parseToInfo fs p = Ok info ->
  exists (pieceStr : string) (k : nat),
    info_of (decoded_of fs p) !! "pieces" = Some (VStr pieceStr)
    /\ String.length pieceStr = (20 * k)%nat
    /\ PieceHashes info = hash_lines (chunks 20 k pieceStr)
    /\ length (chunks 20 k pieceStr) = k
    /\ Forall (fun d => String.length d = 20%nat) (chunks 20 k pieceStr)
    /\ String.length (PieceHashes info) = (41 * k)%nat.
Proof.
  intros H.
  destruct (parseToInfo_Ok_inv _ _ _ H)
    as (decoded & metaInfo & bencoded & pieceStr & Hd & Hi & _ & _ & _ & _ & _
        & Hp & Hl).
  pose proof (len_nonneg pieceStr) as Hnn.
  destruct (pieces_loop_text _ pieceStr 0 _ _ ltac:(lia) Hl) as (k & Hk & Hh).
  exists pieceStr, k.
  assert (Hlen : String.length pieceStr = (20 * k)%nat) by (unfold len in Hk; lia).
  destruct (chunks_length 20 k pieceStr ltac:(lia)) as [Hcl Hcf].
  change (PieceHashes info = hash_lines (chunks 20 k pieceStr)) in Hh.
  unfold decoded_of, info_of. rewrite Hd, Hi.
  repeat split; try assumption.
  rewrite Hh, length_hash_lines by exact Hcf. now rewrite Hcl.
Qed.

Lemma parseToInfo_piece_hashes_witness :
  exists info (pieceStr : string) (k : nat),
    parseToInfo sample_fs "sample.torrent" = Ok info
    /\ info_of (decoded_of sample_fs "sample.torrent") !! "pieces"
       = Some (VStr pieceStr)
    /\ String.length pieceStr = (20 * k)%nat
    /\ PieceHashes info = hash_lines (chunks 20 k pieceStr)
    /\ length (chunks 20 k pieceStr) = k
    /\ Forall (fun d => String.length d = 20%nat) (chunks 20 k pieceStr)
    /\ String.length (PieceHashes info) = (41 * k)%nat.
Proof.
  destruct (parseToInfo sample_fs "sample.torrent") as [info| | |] eqn:Hp;
    try (vm_compute in Hp; discriminate Hp).
  destruct (parseToInfo_piece_hashes sample_fs "sample.torrent" info Hp)
    as (pieceStr & k & H).
  exists info, pieceStr, k. split; [reflexivity|exact H].
Defined.

(** ** Messages written by [sendPeerMessage] and read by [waitPeerMessage] *)

Lemma byte_val_of (z : Z) : byte_val (byte_of z) = z mod 256.
Proof.
  unfold byte_val, byte_of.
  assert (Hr : 0 <= z mod 256 < 256) by (apply Z.mod_pos_bound; lia).
  destruct (Byte.of_N (Z.to_N (z mod 256))) as [b|] eqn:Hb.
  - apply Byte.to_of_N in Hb. cbn [from_option id]. rewrite Hb. lia.
  - apply Byte.of_N_None_iff in Hb. lia.
Qed.

Lemma be_word_bytes (v : Z) :
  0 <= v < 2 ^ 32 -> BigEndian_Uint32 (be_bytes v) = Ok v.
Proof.
  intros Hv. unfold be_bytes, BigEndian_Uint32. f_equal.
  rewrite be_word_value, !byte_val_of, !Z.shiftr_div_pow2 by lia.
  change (2 ^ 24) with 16777216. change (2 ^ 16) with 65536.
  change (2 ^ 8) with 256. change (2 ^ 32) with 4294967296 in Hv.
  pose proof (Z.div_mod v 256 ltac:(lia)) as H0.
  pose proof (Z.div_mod (v / 256) 256 ltac:(lia)) as H1.
  pose proof (Z.div_mod (v / 256 / 256) 256 ltac:(lia)) as H2.
  rewrite !Z.div_div in H1, H2 by lia.
  change (256 * 256) with 65536 in *.
  rewrite Z.div_div in H2 by lia.
  change (65536 * 256) with 16777216 in *.
  assert (H3 : (v / 16777216) mod 256 = v / 16777216).
  { apply Z.mod_small. split; [apply Z.div_pos; lia|].
    apply Z.div_lt_upper_bound; lia. }
  lia.
Qed.

Lemma length_be_bytes (v : Z) : length (be_bytes v) = 4%nat.
Proof. reflexivity. Qed.

Lemma conn_Read_zero (w : world) :
  conn_Read 0 w = (Ok [], after_reads w (incoming w) [EvRead 0]).
Proof. reflexivity. Qed.

Lemma conn_Read_front (size : Z) (data more : list byte)
    (rest : list (list byte)) (w : world) :
  0 < size -> length data = Z.to_nat size ->
  incoming w = (data ++ more)%list :: rest ->
  conn_Read size w
  = (Ok data, after_reads w (arrived more rest) [EvRead size]).
Proof.
  intros Hs Hl Hi. unfold conn_Read, io_bind, log, after_reads.
  cbn [incoming writes_left trace]. rewrite Hi.
  destruct (size =? 0) eqn:Hz; [apply Z.eqb_eq in Hz; lia|].
  destruct (data ++ more)%list as [|b seg] eqn:Hseg.
  { apply app_eq_nil in Hseg as [-> _]. cbn [length] in Hl. lia. }
  rewrite <- Hseg, <- Hl, take_app_length, drop_app_length, Nat.sub_diag.
  cbn [repeat]. rewrite app_nil_r. reflexivity.
Qed.

(** A [Read] that finds less than the buffer holds: the buffer keeps its
    zeros behind the bytes that arrived. *)
Lemma conn_Read_short (size : Z) (seg : list byte)
    (rest : list (list byte)) (w : world) :
  seg <> [] -> (length seg <= Z.to_nat size)%nat ->
  incoming w = seg :: rest ->
  conn_Read size w
  = (Ok (seg ++ repeat x00 (Z.to_nat size - length seg))%list,
     after_reads w rest [EvRead size]).
Proof.
  intros Hne Hl Hi. unfold conn_Read, io_bind, log, after_reads.
  cbn [incoming writes_left trace]. rewrite Hi.
  destruct seg as [|b seg]; [now destruct Hne|].
  destruct (size =? 0) eqn:Hz.
  { apply Z.eqb_eq in Hz. subst size. cbn [length] in Hl. lia. }
  rewrite take_ge, drop_ge by exact Hl. reflexivity.
Qed.

Lemma message_length_prefix (payload : list byte) :
  Z.of_nat (length payload) < 2 ^ 32 - 1 ->
  wrap_uint32 (messageIDLen + Z.of_nat (length payload))
  = 1 + Z.of_nat (length payload)
  /\ payload_size (1 + Z.of_nat (length payload)) = Z.of_nat (length payload).
Proof.
  intros H. unfold payload_size, wrap_uint32, messageIDLen.
  change (2 ^ 32) with 4294967296 in *.
  rewrite Z.mod_small by lia.
  replace (1 + Z.of_nat (length payload) - 1) with (Z.of_nat (length payload))
    by lia.
  rewrite Z.mod_small by lia. split; reflexivity.
Qed.

Lemma after_reads_twice (w : world) (inc inc' : list (list byte))
    (evs evs' : list event) :
  after_reads (after_reads w inc evs) inc' evs'
  = after_reads w inc' (evs' ++ evs).
Proof. unfold after_reads. cbn [writes_left trace]. now rewrite app_assoc. Qed.

(** One turn of the loop on a stream that begins with a whole message. *)
Lemma waitPeerMessage_turn_frame (expid id : byte) (payload more : list byte)
    (rest : list (list byte)) (w : world) :
  Z.of_nat (length payload) < 2 ^ 32 - 1 ->
  incoming w = (message_bytes id payload ++ more)%list :: rest ->
  waitPeerMessage_turn expid w
  = (Ok (if Byte.eqb id expid then Some payload else None),
     after_reads w (arrived more rest)
       [EvRead (Z.of_nat (length payload)); EvRead 1; EvRead 4]).
Proof.
  intros Hp Hi. destruct (message_length_prefix payload Hp) as [Hw Hsz].
  unfold waitPeerMessage_turn, message_bytes in *. rewrite Hw in Hi.
  rewrite <- !app_assoc in Hi.
  unfold io_bind at 1.
  rewrite (conn_Read_front messageLengthLen _ _ _ w ltac:(reflexivity)
             (length_be_bytes _) Hi).
  unfold io_bind at 1.
  rewrite (conn_Read_front messageIDLen [id] (payload ++ more) rest
             (after_reads w (arrived ([id] ++ payload ++ more) rest)
                [EvRead messageLengthLen])
             ltac:(reflexivity) ltac:(reflexivity) ltac:(reflexivity)).
  rewrite after_reads_twice.
  unfold io_bind at 1, io_lift.
  rewrite be_word_bytes by (change (2 ^ 32) with 4294967296 in *; lia).
  rewrite Hsz. unfold io_bind at 1. unfold io_bind at 1.
  destruct payload as [|p0 payload].
  - rewrite conn_Read_zero, after_reads_twice. reflexivity.
  - rewrite (conn_Read_front _ (p0 :: payload) more rest);
      [|cbn [length]; lia|lia|reflexivity].
    rewrite after_reads_twice. reflexivity.
Qed.

Lemma length_frames (msgs : list (byte * list byte)) :
  (length msgs <= length (frames msgs))%nat.
Proof.
  induction msgs as [|[id payload] msgs IH]; [apply Nat.le_refl|].
  unfold frames in *. cbn [map concat length]. rewrite length_app.
  unfold message_bytes at 1. rewrite length_app, length_be_bytes. lia.
Qed.

Lemma frames_cons (id : byte) (payload : list byte)
    (msgs : list (byte * list byte)) :
  frames ((id, payload) :: msgs)
  = (message_bytes id payload ++ frames msgs)%list.
Proof. reflexivity. Qed.

Lemma waitPeerMessage_fuel_frames (expid : byte)
    (skipped : list (byte * list byte)) :
  forall (fuel : nat) (payload more : list byte) (rest : list (list byte))
         (w : world),
    (length skipped < fuel)%nat ->
    Forall (fun m => m.1 <> expid /\ Z.of_nat (length m.2) < 2 ^ 32 - 1)
           skipped ->
    Z.of_nat (length payload) < 2 ^ 32 - 1 ->
    incoming w
    = (frames skipped ++ message_bytes expid payload ++ more)%list :: rest ->
    exists evs,
      waitPeerMessage_fuel fuel expid w
      = (Ok payload, after_reads w (arrived more rest) evs)
      /\ length evs = (3 * S (length skipped))%nat
      /\ Forall (fun e => exists n, e = EvRead n) evs.
Proof.
  induction skipped as [|[id pl] skipped IH];
    intros fuel payload more rest w Hf Hs Hp Hi.
  - destruct fuel as [|fuel]; [cbn [length] in Hf; lia|].
    cbn [waitPeerMessage_fuel]. unfold io_bind at 1.
    change (frames [] ++ ?x)%list with x in Hi.
    rewrite (waitPeerMessage_turn_frame expid expid payload more rest w Hp Hi).
    rewrite (Byte.byte_dec_lb eq_refl). unfold io_ret.
    eexists. split; [reflexivity|]. split; [reflexivity|].
    repeat constructor; eexists; reflexivity.
  - destruct fuel as [|fuel]; [cbn [length] in Hf; lia|].
    apply Forall_cons in Hs as [[Hid Hpl] Hs]. cbn [fst snd] in Hid, Hpl.
    rewrite frames_cons, <- app_assoc in Hi.
    cbn [waitPeerMessage_fuel]. unfold io_bind at 1.
    rewrite (waitPeerMessage_turn_frame expid id pl _ rest w Hpl Hi).
    destruct (Byte.eqb id expid) eqn:He;
      [apply Byte.byte_dec_bl in He; now destruct Hid|].
    assert (Hne : (frames skipped ++ message_bytes expid payload ++ more)%list
                  <> []).
    { unfold message_bytes. intros Hnil.
      apply app_eq_nil in Hnil as [_ Hnil].
      apply app_eq_nil in Hnil as [Hnil _]. discriminate Hnil. }
    destruct (IH fuel payload more rest
                (after_reads w
                   (arrived (frames skipped ++ message_bytes expid payload
                               ++ more) rest)
                   [EvRead (Z.of_nat (length pl)); EvRead 1; EvRead 4]))
      as (evs & Hrun & Hlen & Hev).
    + cbn [length] in Hf. lia.
    + exact Hs.
    + exact Hp.
    + cbn [after_reads incoming]. unfold arrived.
      destruct (frames skipped ++ message_bytes expid payload ++ more)%list;
        [now destruct Hne|reflexivity].
    + rewrite Hrun, after_reads_twice. eexists. split; [reflexivity|].
      split.
      * rewrite length_app, Hlen. cbn [length]. lia.
      * apply Forall_app. split; [exact Hev|].
        repeat constructor; eexists; reflexivity.
Qed.

(** X5: what [sendPeerMessage] writes, [waitPeerMessage] reads back.  On a
    stream whose next segment begins with messages of other ids followed by
    a message of the awaited id, each in the bytes [sendPeerMessage] writes
    for it, [waitPeerMessage] passes over the former and returns the payload
    of the latter, leaves the bytes behind it to arrive, and does nothing
    but three reads for each message. *)
Theorem waitPeerMessage_reads_sent (expid : byte)
    (skipped : list (byte * list byte)) (payload more : list byte)
    (rest : list (list byte)) (w : world) :
  Forall (fun m => m.1 <> expid /\ Z.of_nat (length m.2) < 2 ^ 32 - 1)
         skipped ->
  Z.of_nat (length payload) < 2 ^ 32 - 1 ->
  incoming w
  = (frames skipped ++ message_bytes expid payload ++ more)%list :: rest ->
  exists evs,
    waitPeerMessage expid w
    = (Ok payload, after_reads w (arrived more rest) evs)
    /\ length evs = (3 * S (length skipped))%nat
    /\ Forall (fun e => exists n, e = EvRead n) evs.
Proof.
  intros Hs Hp Hi. unfold waitPeerMessage.
  apply waitPeerMessage_fuel_frames; try assumption.
  unfold pending. rewrite Hi. cbn [map]. unfold list_sum. cbn [fold_right].
  rewrite length_app. pose proof (length_frames skipped). lia.
Qed.

Lemma waitPeerMessage_reads_sent_witness :
  exists evs,
    waitPeerMessage piece
      (fresh_world [(frames [(bitfield, [xff]); (unchoke, [])]
                       ++ message_bytes piece [x01; x02; x03] ++ [x09])%list])
    = (Ok [x01; x02; x03],
       after_reads
         (fresh_world [(frames [(bitfield, [xff]); (unchoke, [])]
                          ++ message_bytes piece [x01; x02; x03]
                          ++ [x09])%list])
         (arrived [x09] []) evs)
    /\ length evs = (3 * S (length [(bitfield, [xff]); (unchoke, @nil byte)]))%nat
    /\ Forall (fun e => exists n, e = EvRead n) evs.
Proof.
  apply (waitPeerMessage_reads_sent piece [(bitfield, [xff]); (unchoke, [])]
           [x01; x02; x03] [x09] []).
  - repeat constructor; cbn; try discriminate; lia.
  - cbn. lia.
  - reflexivity.
Defined.

(** X6: [waitPeerMessage] takes what one [Read] delivers for the payload.
    When the payload of the awaited message arrives in two parts, the
    payload returned is the first part followed by zeros in place of the
    second, and the second part is left in the stream, where the next turn
    takes it for the length prefix of a message. *)
Theorem waitPeerMessage_short_read (expid : byte) (p1 p2 : list byte)
    (rest : list (list byte)) (w : world) :
  p1 <> [] -> p2 <> [] ->
  Z.of_nat (length (p1 ++ p2)) < 2 ^ 32 - 1 ->
  incoming w
  = (take (5 + length p1) (message_bytes expid (p1 ++ p2)))
      :: drop (5 + length p1) (message_bytes expid (p1 ++ p2)) :: rest ->
  waitPeerMessage expid w
  = (Ok (p1 ++ repeat x00 (length p2))%list,
     after_reads w (p2 :: rest)
       [EvRead (Z.of_nat (length (p1 ++ p2))); EvRead 1; EvRead 4]).
Proof.
  intros H1 H2 Hp Hi.
  destruct (message_length_prefix _ Hp) as [Hw Hsz].
  assert (Hm : message_bytes expid (p1 ++ p2)
               = ((be_bytes (1 + Z.of_nat (length (p1 ++ p2))) ++ [expid] ++ p1)
                    ++ p2)%list).
  { unfold message_bytes. rewrite Hw, <- !app_assoc. reflexivity. }
  rewrite Hm in Hi.
  rewrite take_app_length', drop_app_length' in Hi
    by (rewrite !length_app, length_be_bytes; cbn [length]; lia).
  unfold waitPeerMessage. cbn [waitPeerMessage_fuel].
  unfold io_bind at 1. unfold waitPeerMessage_turn.
  unfold io_bind at 1.
  rewrite (conn_Read_front messageLengthLen _ _ _ w ltac:(reflexivity)
             (length_be_bytes _) Hi).
  unfold io_bind at 1.
  rewrite (conn_Read_front messageIDLen [expid] p1 (p2 :: rest)
             (after_reads w (arrived ([expid] ++ p1) (p2 :: rest))
                [EvRead messageLengthLen])
             ltac:(reflexivity) ltac:(reflexivity) ltac:(reflexivity)).
  rewrite after_reads_twice.
  unfold io_bind at 1, io_lift.
  rewrite be_word_bytes by (change (2 ^ 32) with 4294967296 in *; lia).
  rewrite Hsz. unfold io_bind at 1. unfold io_bind at 1.
  rewrite (conn_Read_short _ p1 (p2 :: rest)).
  - rewrite after_reads_twice, (Byte.byte_dec_lb eq_refl).
    unfold io_ret. rewrite length_app.
    replace (Z.to_nat (Z.of_nat (length p1 + length p2)) - length p1)%nat
      with (length p2) by lia.
    reflexivity.
  - exact H1.
  - rewrite length_app. lia.
  - cbn [after_reads incoming]. unfold arrived.
    destruct p1; [now destruct H1|reflexivity].
Qed.

Lemma waitPeerMessage_short_read_witness :
  waitPeerMessage piece
    (fresh_world [take (5 + length [x01; x02])
                    (message_bytes piece ([x01; x02] ++ [x03]));
                  drop (5 + length [x01; x02])
                    (message_bytes piece ([x01; x02] ++ [x03]))])
  = (Ok ([x01; x02] ++ repeat x00 (length [x03]))%list,
     after_reads
       (fresh_world [take (5 + length [x01; x02])
                       (message_bytes piece ([x01; x02] ++ [x03]));
                     drop (5 + length [x01; x02])
                       (message_bytes piece ([x01; x02] ++ [x03]))])
       ([x03] :: [])
       [EvRead (Z.of_nat (length ([x01; x02] ++ [x03]))); EvRead 1; EvRead 4]).
Proof.
  apply (waitPeerMessage_short_read piece [x01; x02] [x03] []).
  - discriminate.
  - discriminate.
  - cbn. lia.
  - reflexivity.
Defined.

(** ** The handshake on every torrent *)

Lemma take_repeat_le {A : Type} (x : A) (n m : nat) :
  (n <= m)%nat -> take n (repeat x m) = repeat x n.
Proof.
  revert m. induction n as [|n IH]; intros m Hm; [now destruct m|].
  destruct m as [|m]; [lia|]. cbn [repeat take]. f_equal. apply IH. lia.
Qed.

Lemma io_bind_Ok {A B : Type} (m : io A) (k : A -> io B) (w w' : world)
    (b : B) :
  io_bind m k w = (Ok b, w') ->
  exists a w1, m w = (Ok a, w1) /\ k a w1 = (Ok b, w').
Proof.
  unfold io_bind. destruct (m w) as [[a| | |] w1]; try discriminate.
  intros H. now exists a, w1.
Qed.

Lemma io_lift_Ok {A : Type} (r : result A) (w w' : world) (a : A) :
  io_lift r w = (Ok a, w') -> r = Ok a /\ w' = w.
Proof. unfold io_lift. now intros [= -> ->]. Qed.

(** X7: on every torrent [parseToInfo] accepts, on a connection that takes
    the write and has a segment to deliver, [handshake] writes one message of
    68 bytes, whose bytes 28 to 47 are the info-hash of the torrent, reads
    once into a buffer of 68 bytes, and returns 20 bytes: the bytes 48 to 67
    of that buffer.  Nothing of the reply is compared with anything: the
    result is the same function of the segment whatever the segment holds. *)
Theorem handshake_exchange (fs : filesystem) (p : string) (info : Info)
    (seg : list byte) (rest : list (list byte)) (w : world) :
  parseToInfo fs p = Ok info ->
  writes_left w <> Some 0%nat ->
  incoming w = seg :: rest -> seg <> [] ->
  exists w',
    handshake fs p w = (Ok (drop 48 (handshake_reply seg)), w')
    /\ length (drop 48 (handshake_reply seg)) = 20%nat
    /\ trace w'
       = EvRead 68 :: EvWrite (list_byte_of_string (handshake_message info))
           :: trace w
    /\ len (handshake_message info) = 68
    /\ slice (handshake_message info) 28 48
       = Ok (string_of_list_byte (InfoHash info))
    /\ incoming w' = arrived (drop 68 seg) rest.
Proof.
  intros Hp Hw Hi Hne.
  assert (Hlen : length (InfoHash info) = 20%nat).
  { destruct (parseToInfo_Ok_inv _ _ _ Hp)
      as (? & ? & ? & ? & _ & _ & _ & _ & _ & _ & -> & _).
    apply SHA1_Sum_length. }
  destruct (handshake_message_layout info Hlen) as (Hl & _ & _ & _ & Hh & _).
  unfold handshake, io_bind at 1, io_lift. rewrite Hp.
  unfold io_bind at 1, conn_Write.
  assert (Hrd : forall w0, incoming w0 = seg :: rest ->
            conn_Read 68 w0
            = (Ok (handshake_reply seg),
               after_reads w0 (arrived (drop 68 seg) rest) [EvRead 68])).
  { intros w0 Hi0. unfold conn_Read, io_bind, log, after_reads.
    cbn [incoming writes_left trace Z.eqb]. rewrite Hi0.
    destruct seg as [|b seg]; [now destruct Hne|].
    change (Z.to_nat 68) with 68%nat. unfold handshake_reply, arrived.
    rewrite (take_app (b :: seg)), length_take.
    rewrite take_repeat_le by lia.
    replace (68 - 68 `min` length (b :: seg))%nat
      with (68 - length (b :: seg))%nat by lia.
    reflexivity. }
  assert (Hr20 : length (drop 48 (handshake_reply seg)) = 20%nat).
  { unfold handshake_reply.
    rewrite length_drop, length_take, length_app, repeat_length. lia. }
  destruct (writes_left w) as [[|n]|] eqn:Hwl; [now destruct Hw| |];
    unfold io_bind at 1; rewrite Hl; rewrite Hrd by exact Hi;
    unfold io_ret; change (Z.to_nat (68 - len peerID)) with 48%nat;
    (eexists; split; [reflexivity|]);
    repeat split; try assumption; reflexivity.
Qed.

Lemma handshake_exchange_witness :
  exists info w',
    parseToInfo sample_fs "sample.torrent" = Ok info
    /\ handshake sample_fs "sample.torrent" (fresh_world [[x13; x42]])
       = (Ok (drop 48 (handshake_reply [x13; x42])), w')
    /\ length (drop 48 (handshake_reply [x13; x42])) = 20%nat
    /\ trace w'
       = EvRead 68 :: EvWrite (list_byte_of_string (handshake_message info))
           :: trace (fresh_world [[x13; x42]])
    /\ len (handshake_message info) = 68
    /\ slice (handshake_message info) 28 48
       = Ok (string_of_list_byte (InfoHash info))
    /\ incoming w' = arrived (drop 68 [x13; x42]) [].
Proof.
  destruct (parseToInfo sample_fs "sample.torrent") as [info| | |] eqn:Hp;
    try (vm_compute in Hp; discriminate Hp).
  destruct (handshake_exchange sample_fs "sample.torrent" info [x13; x42] []
              (fresh_world [[x13; x42]]) Hp)
    as (w' & H); [discriminate|reflexivity|discriminate|].
  exists info, w'. split; [reflexivity|exact H].
Defined.

(** ** The loop that receives the blocks *)

Lemma copy_at_length (dst src dst' : list byte) (begin : Z) :
  copy_at dst begin src = Ok dst' -> length dst' = length dst.
Proof.
  unfold copy_at.
  destruct ((0 <=? begin) && (begin <=? Z.of_nat (length dst))) eqn:Hb;
    [|discriminate].
  intros [= <-]. apply andb_prop in Hb as [H0 H1].
  apply Z.leb_le in H0, H1.
  rewrite !length_app, !length_take, length_drop. lia.
Qed.

(** X8: the receive loop never changes the size of the buffer of the piece:
    whatever the peer sends, a run of the loop that comes to its end returns
    a buffer of the length it started with; a block that does not fit is cut
    or makes the run fail. *)
Theorem receive_loop_keeps_length (count : nat) (pieceIdx : Z)
    (combinedBlock result : list byte) (w w' : world) :
  receive_loop count pieceIdx combinedBlock w = (Ok result, w') ->
  length result = length combinedBlock.
Proof.
  revert combinedBlock w. induction count as [|count IH];
    intros combinedBlock w; cbn [receive_loop].
  - unfold io_ret. now intros [= <- _].
  - intros H.
    apply io_bind_Ok in H as (payload & w1 & _ & H).
    apply io_bind_Ok in H as (index & w2 & _ & H).
    destruct (negb (index =? wrap_uint32 pieceIdx)).
    + apply io_bind_Ok in H as (? & w3 & _ & H).
      apply io_lift_Ok in H as [H _]. discriminate H.
    + apply io_bind_Ok in H as (begin & w3 & _ & H).
      apply io_bind_Ok in H as (block & w4 & _ & H).
      apply io_bind_Ok in H as (combinedBlock' & w5 & Hc & H).
      apply io_lift_Ok in Hc as [Hc _].
      apply IH in H. apply copy_at_length in Hc. congruence.
Qed.

Lemma waitPeerMessage_frame (expid : byte) (payload more : list byte)
    (rest : list (list byte)) (w : world) :
  Z.of_nat (length payload) < 2 ^ 32 - 1 ->
  incoming w = (message_bytes expid payload ++ more)%list :: rest ->
  waitPeerMessage expid w
  = (Ok payload,
     after_reads w (arrived more rest)
       [EvRead (Z.of_nat (length payload)); EvRead 1; EvRead 4]).
Proof.
  intros Hp Hi. unfold waitPeerMessage. cbn [waitPeerMessage_fuel].
  unfold io_bind at 1.
  rewrite (waitPeerMessage_turn_frame expid expid payload more rest w Hp Hi).
  rewrite (Byte.byte_dec_lb eq_refl). reflexivity.
Qed.

Lemma piece_payload_fields (index begin : Z) (block : list byte) :
  0 <= index < 2 ^ 32 -> 0 <= begin < 2 ^ 32 ->
  (do b <- slice_bytes (piece_payload index begin block) 0 4 ;
   BigEndian_Uint32 b) = Ok index
  /\ (do b <- slice_bytes (piece_payload index begin block) 4 8 ;
      BigEndian_Uint32 b) = Ok begin
  /\ slice_bytes (piece_payload index begin block) 8
       (Z.of_nat (length (piece_payload index begin block))) = Ok block.
Proof.
  intros Hi Hb.
  assert (Hl : Z.of_nat (length (piece_payload index begin block))
               = 8 + Z.of_nat (length block)).
  { unfold piece_payload. rewrite !length_app, !length_be_bytes. lia. }
  unfold slice_bytes. rewrite Hl.
  replace (4 <=? 8 + Z.of_nat (length block)) with true
    by (symmetry; apply Z.leb_le; lia).
  replace (8 <=? 8 + Z.of_nat (length block)) with true
    by (symmetry; apply Z.leb_le; lia).
  rewrite Z.leb_refl.
  cbn [Z.leb Z.compare andb Z.sub Z.to_nat Z.opp Z.add Z.pos_sub Pos.to_nat
       Pos.iter_op Nat.add bind].
  replace (Z.to_nat (8 + Z.of_nat (length block) - 8)) with (length block)
    by lia.
  change (piece_payload index begin block)
    with (be_bytes index ++ be_bytes begin ++ block)%list.
  split; [|split].
  - change (take 4 (drop 0 (be_bytes index ++ be_bytes begin ++ block)))%list
      with (be_bytes index).
    now apply be_word_bytes.
  - change (take 4 (drop 4 (be_bytes index ++ be_bytes begin ++ block)))%list
      with (be_bytes begin).
    now apply be_word_bytes.
  - rewrite ?Z.leb_refl. change (Z.to_nat 8) with 8%nat.
    change (drop 8 (be_bytes index ++ be_bytes begin ++ block))%list
      with block.
    now rewrite take_ge by lia.
Qed.

Lemma copy_at_middle (pre mid post block : list byte) :
  (length block <= length mid)%nat ->
  copy_at (pre ++ mid ++ post) (Z.of_nat (length pre)) block
  = Ok ((pre ++ block) ++ drop (length block) mid ++ post)%list.
Proof.
  intros Hb. unfold copy_at.
  replace ((0 <=? Z.of_nat (length pre))
           && (Z.of_nat (length pre) <=? Z.of_nat (length (pre ++ mid ++ post))))
    with true
    by (symmetry; apply andb_true_intro; split; apply Z.leb_le;
        rewrite ?length_app; lia).
  rewrite Nat2Z.id. f_equal.
  rewrite take_app_length.
  replace (length (pre ++ mid ++ post) - length pre)%nat
    with (length (mid ++ post)) by (rewrite !length_app; lia).
  rewrite Nat.min_r by (rewrite length_app; lia).
  rewrite take_ge by lia.
  rewrite drop_app_add, drop_app_le by lia.
  now rewrite <- app_assoc.
Qed.

Lemma wrap_uint32_range (z : Z) : 0 <= wrap_uint32 z < 2 ^ 32.
Proof. unfold wrap_uint32. apply Z.mod_pos_bound. reflexivity. Qed.

Lemma frames_nonempty (m : byte * list byte) (msgs : list (byte * list byte))
    (more : list byte) :
  (frames (m :: msgs) ++ more)%list <> [].
Proof. destruct m as [id pl]. discriminate. Qed.

Lemma receive_loop_blocks (pieceIdx : Z) (blocks : list (list byte)) :
  forall (pre mid post more : list byte) (rest : list (list byte)) (w : world),
    length mid = length (concat blocks) ->
    Z.of_nat (length (pre ++ mid ++ post)) < 2 ^ 32 - 9 ->
    incoming w
    = arrived (frames (piece_msgs (wrap_uint32 pieceIdx)
                         (Z.of_nat (length pre)) blocks) ++ more) rest ->
    exists evs,
      receive_loop (length blocks) pieceIdx (pre ++ mid ++ post) w
      = (Ok (pre ++ concat blocks ++ post)%list,
         after_reads w
           (match blocks with [] => incoming w | _ => arrived more rest end)
           evs)
      /\ Forall (fun e => exists n, e = EvRead n) evs.
Proof.
  induction blocks as [|block blocks IH];
    intros pre mid post more rest w Hm Hlen Hi.
  - cbn [length receive_loop concat]. destruct mid; [|discriminate Hm].
    exists []. split; [|constructor].
    unfold io_ret, after_reads. destruct w; reflexivity.
  - cbn [concat] in Hm. rewrite length_app in Hm.
    rewrite !length_app in Hlen.
    cbn [piece_msgs] in Hi. rewrite frames_cons, <- app_assoc in Hi.
    unfold arrived in Hi at 1.
    destruct (message_bytes piece _ ++ _)%list as [|b0 seg] eqn:Hseg in Hi;
      [discriminate Hseg|].
    rewrite <- Hseg in Hi. clear b0 seg Hseg.
    destruct (piece_payload_fields (wrap_uint32 pieceIdx)
                (Z.of_nat (length pre)) block (wrap_uint32_range _)
                ltac:(change (2 ^ 32) with 4294967296 in *; lia))
      as (Hidx & Hbeg & Hblk).
    cbn [length receive_loop]. unfold io_bind at 1.
    assert (Hpl : Z.of_nat (length (piece_payload (wrap_uint32 pieceIdx)
                                      (Z.of_nat (length pre)) block))
                  < 2 ^ 32 - 1).
    { unfold piece_payload. rewrite !length_app, !length_be_bytes.
      change (2 ^ 32) with 4294967296 in *. lia. }
    rewrite (waitPeerMessage_frame piece _ _ rest w Hpl Hi).
    unfold io_bind at 1, io_lift at 1. rewrite Hidx.
    rewrite Z.eqb_refl. cbn [negb].
    unfold io_bind at 1, io_lift at 1. rewrite Hbeg.
    unfold io_bind at 1, io_lift at 1. rewrite Hblk.
    unfold io_bind at 1, io_lift at 1.
    rewrite copy_at_middle by lia.
    destruct (IH (pre ++ block)%list (drop (length block) mid) post more rest
                (after_reads w
                   (arrived (frames (piece_msgs (wrap_uint32 pieceIdx)
                                       (Z.of_nat (length pre)
                                        + Z.of_nat (length block)) blocks)
                             ++ more) rest)
                   [EvRead (Z.of_nat (length
                               (piece_payload (wrap_uint32 pieceIdx)
                                  (Z.of_nat (length pre)) block)));
                    EvRead 1; EvRead 4]))
      as (evs & Hrun & Hev).
    + rewrite length_drop. lia.
    + rewrite !length_app, length_drop. lia.
    + cbn [after_reads incoming]. rewrite length_app, Nat2Z.inj_add.
      reflexivity.
    + rewrite Hrun, after_reads_twice. cbn [concat].
      eexists. split.
      * rewrite <- !app_assoc. f_equal. f_equal.
        cbn [after_reads incoming].
        destruct blocks; reflexivity.
      * apply Forall_app. split; [exact Hev|].
        repeat constructor; eexists; reflexivity.
Qed.

(** X9: blocks that arrive whole and in order are put together.  On a
    stream whose next segment begins with one [piece] message for each of
    the blocks, each with the index of the piece and beginning where the
    block before it ended, the receive loop run for as many turns as there
    are blocks replaces the part of the buffer the blocks cover by the
    blocks, and leaves the bytes after the messages to arrive. *)
Theorem receive_loop_assembles (pieceIdx : Z) (block : list byte)
    (blocks : list (list byte)) (pre mid post more : list byte)
    (rest : list (list byte)) (w : world) :
  length mid = length (concat (block :: blocks)) ->
  Z.of_nat (length (pre ++ mid ++ post)) < 2 ^ 32 - 9 ->
  incoming w
  = (frames (piece_msgs (wrap_uint32 pieceIdx) (Z.of_nat (length pre))
               (block :: blocks)) ++ more)%list :: rest ->
  exists evs,
    receive_loop (length (block :: blocks)) pieceIdx (pre ++ mid ++ post) w
    = (Ok (pre ++ concat (block :: blocks) ++ post)%list,
       after_reads w (arrived more rest) evs)
    /\ Forall (fun e => exists n, e = EvRead n) evs.
Proof.
  intros Hm Hlen Hi.
  destruct (receive_loop_blocks pieceIdx (block :: blocks) pre mid post more
              rest w Hm Hlen) as (evs & Hrun & Hev).
  - rewrite Hi. unfold arrived.
    destruct (frames _ ++ more)%list eqn:Hf; [|reflexivity].
    now apply frames_nonempty in Hf.
  - exists evs. split; [exact Hrun|exact Hev].
Qed.

Lemma receive_loop_assembles_witness :
  exists evs,
    receive_loop (length [[x61; x62]; [x63]]) 3 ([] ++ [x00; x00; x00] ++ [])
      (fresh_world
         [(frames (piece_msgs (wrap_uint32 3) (Z.of_nat (length (@nil byte)))
                     [[x61; x62]; [x63]]) ++ [])%list])
    = (Ok ([] ++ concat [[x61; x62]; [x63]] ++ [])%list,
       after_reads
         (fresh_world
            [(frames (piece_msgs (wrap_uint32 3)
                        (Z.of_nat (length (@nil byte)))
                        [[x61; x62]; [x63]]) ++ [])%list])
         (arrived [] []) evs)
    /\ Forall (fun e => exists n, e = EvRead n) evs.
Proof.
  apply (receive_loop_assembles 3 [x61; x62] [[x63]] [] [x00; x00; x00] []
           [] []).
  - reflexivity.
  - cbn. lia.
  - reflexivity.
Defined.

Lemma receive_loop_keeps_length_witness :
  length [x00; x00; x61] = length [x00; x00; x00].
Proof.
  eapply (receive_loop_keeps_length 1 3 [x00; x00; x00] [x00; x00; x61]
            (fresh_world [frames (piece_msgs 3 2 [[x61; x62]])])).
  vm_compute. reflexivity.
Defined.

(** X10: a [piece] message that carries the index of another piece ends the
    receive loop: the line that names the two indices is printed and the
    command returns, with the blocks received so far discarded. *)
Theorem receive_loop_unexpected_index (count : nat) (pieceIdx index begin : Z)
    (block combinedBlock more : list byte) (rest : list (list byte))
    (w : world) :
  0 <= index < 2 ^ 32 -> 0 <= begin < 2 ^ 32 ->
  index <> wrap_uint32 pieceIdx ->
  Z.of_nat (length block) < 2 ^ 32 - 9 ->
  incoming w
  = (message_bytes piece (piece_payload index begin block) ++ more)%list
      :: rest ->
  receive_loop (S count) pieceIdx combinedBlock w
  = (Err Returned,
     after_reads w (arrived more rest)
       [EvPrintln ("unexpected index. exp: " +:+ FormatInt pieceIdx
                     +:+ ", got: " +:+ FormatInt index);
        EvRead (8 + Z.of_nat (length block)); EvRead 1; EvRead 4]).
Proof.
  intros Hidx Hbeg Hne Hb Hi.
  destruct (piece_payload_fields index begin block Hidx Hbeg) as (Hf & _ & _).
  assert (Hl : Z.of_nat (length (piece_payload index begin block))
               = 8 + Z.of_nat (length block)).
  { unfold piece_payload. rewrite !length_app, !length_be_bytes. lia. }
  assert (Hpl : Z.of_nat (length (piece_payload index begin block))
                < 2 ^ 32 - 1).
  { rewrite Hl. change (2 ^ 32) with 4294967296 in *. lia. }
  cbn [receive_loop]. unfold io_bind at 1.
  rewrite (waitPeerMessage_frame piece _ _ rest w Hpl Hi).
  unfold io_bind at 1, io_lift at 1. rewrite Hf.
  apply Z.eqb_neq in Hne. rewrite Hne. cbn [negb].
  unfold io_bind, log, io_lift, after_reads. cbn [incoming writes_left trace].
  rewrite Hl. reflexivity.
Qed.

Lemma receive_loop_unexpected_index_witness :
  receive_loop 1 3 [x00; x00]
    (fresh_world [(message_bytes piece (piece_payload 4 0 [x61]) ++ [])%list])
  = (Err Returned,
     after_reads
       (fresh_world
          [(message_bytes piece (piece_payload 4 0 [x61]) ++ [])%list])
       (arrived [] [])
       [EvPrintln ("unexpected index. exp: " +:+ FormatInt 3
                     +:+ ", got: " +:+ FormatInt 4);
        EvRead (8 + Z.of_nat (length [x61])); EvRead 1; EvRead 4]).
Proof.
  apply (receive_loop_unexpected_index 0 3 4 0 [x61] [x00; x00] [] []).
  - lia.
  - lia.
  - vm_compute. discriminate.
  - cbn. lia.
  - reflexivity.
Defined.

(** ** What [download_piece] never does *)

Lemma wnf_ret {A : Type} (a : A) : writes_no_file (io_ret a).
Proof. intros w. exists []. split; [reflexivity|constructor]. Qed.

Lemma wnf_lift {A : Type} (r : result A) : writes_no_file (io_lift r).
Proof. intros w. exists []. split; [reflexivity|constructor]. Qed.

Lemma wnf_log (e : event) : file_written e = false -> writes_no_file (log e).
Proof.
  intros He w. exists [e]. split; [reflexivity|]. now constructor.
Qed.

Lemma wnf_bind {A B : Type} (m : io A) (k : A -> io B) :
  writes_no_file m ->
  (forall a w w', m w = (Ok a, w') -> writes_no_file (k a)) ->
  writes_no_file (io_bind m k).
Proof.
  intros Hm Hk w. unfold io_bind.
  destruct (Hm w) as (evs & Ht & Hf).
  destruct (m w) as [[a| | |] w1] eqn:Hmw; cbn [snd] in *;
    try (exists evs; split; assumption).
  destruct (Hk a w w1 Hmw w1) as (evs' & Ht' & Hf').
  exists (evs' ++ evs)%list. split.
  - rewrite Ht', Ht. now rewrite app_assoc.
  - apply Forall_app. now split.
Qed.

Lemma wnf_conn_Read (size : Z) : writes_no_file (conn_Read size).
Proof.
  intros w. exists [EvRead size]. split; [apply conn_Read_trace|].
  now constructor.
Qed.

Lemma wnf_conn_Write (data : list byte) : writes_no_file (conn_Write data).
Proof.
  intros w. unfold conn_Write.
  destruct (writes_left w) as [[|n]|]; cbn [snd trace].
  - exists []. split; [reflexivity|constructor].
  - exists [EvWrite data]. split; [reflexivity|now constructor].
  - exists [EvWrite data]. split; [reflexivity|now constructor].
Qed.

Lemma wnf_waitPeerMessage_turn (expid : byte) :
  writes_no_file (waitPeerMessage_turn expid).
Proof.
  unfold waitPeerMessage_turn.
  apply wnf_bind; [apply wnf_conn_Read|]. intros messageLengthBuf _ _ _.
  apply wnf_bind; [apply wnf_conn_Read|]. intros messageIDBuf _ _ _.
  apply wnf_bind; [apply wnf_lift|]. intros messageLength _ _ _.
  apply wnf_bind; [apply wnf_lift|]. intros messageID _ _ _.
  apply wnf_bind; [apply wnf_conn_Read|]. intros payloadBuf _ _ _.
  apply wnf_ret.
Qed.

Lemma wnf_waitPeerMessage_fuel (fuel : nat) (expid : byte) :
  writes_no_file (waitPeerMessage_fuel fuel expid).
Proof.
  induction fuel as [|fuel IH]; cbn [waitPeerMessage_fuel];
    [apply wnf_lift|].
  apply wnf_bind; [apply wnf_waitPeerMessage_turn|].
  intros [payloadBuf|] _ _ _; [apply wnf_ret|exact IH].
Qed.

Lemma wnf_waitPeerMessage (expid : byte) :
  writes_no_file (waitPeerMessage expid).
Proof. intros w. apply (wnf_waitPeerMessage_fuel (S (pending w)) expid w). Qed.

Lemma wnf_sendPeerMessage (id : byte) (payload : list byte) :
  writes_no_file (sendPeerMessage id payload).
Proof. apply wnf_conn_Write. Qed.

Lemma wnf_request_loop (fuel : nat) (pieceIdx pieceLength offset count : Z) :
  writes_no_file (request_loop fuel pieceIdx pieceLength offset count).
Proof.
  revert offset count. induction fuel as [|fuel IH]; intros offset count;
    cbn [request_loop]; [apply wnf_lift|].
  apply wnf_bind; [apply wnf_sendPeerMessage|]. intros _ _ _ _.
  destruct (pieceLength <=? wrap_int (offset + blockSize));
    [apply wnf_ret|apply IH].
Qed.

Lemma wnf_receive_loop (count : nat) (pieceIdx : Z)
    (combinedBlock : list byte) :
  writes_no_file (receive_loop count pieceIdx combinedBlock).
Proof.
  revert combinedBlock. induction count as [|count IH]; intros combinedBlock;
    cbn [receive_loop]; [apply wnf_ret|].
  apply wnf_bind; [apply wnf_waitPeerMessage|]. intros payload _ _ _.
  apply wnf_bind; [apply wnf_lift|]. intros index _ _ _.
  destruct (negb (index =? wrap_uint32 pieceIdx)).
  - apply wnf_bind; [now apply wnf_log|]. intros _ _ _ _. apply wnf_lift.
  - apply wnf_bind; [apply wnf_lift|]. intros begin _ _ _.
    apply wnf_bind; [apply wnf_lift|]. intros block _ _ _.
    apply wnf_bind; [apply wnf_lift|]. intros combinedBlock' _ _ _.
    apply IH.
Qed.

Lemma wnf_handshake (fs : filesystem) (torrentFilepath : string) :
  writes_no_file (handshake fs torrentFilepath).
Proof.
  unfold handshake.
  apply wnf_bind; [apply wnf_lift|]. intros info _ _ _.
  apply wnf_bind; [apply wnf_conn_Write|]. intros _ _ _ _.
  apply wnf_bind; [apply wnf_conn_Read|]. intros buf _ _ _.
  apply wnf_ret.
Qed.

Lemma verify_and_write_fails (fs : filesystem) (p : string) (info : Info)
    (outputFilepath : string) (combinedBlock : list byte) :
  parseToInfo fs p = Ok info ->
  verify_and_write info outputFilepath combinedBlock
  = (run _ <- log (EvPrintln "invalid piece hash") ; io_lift (Err Returned)).
Proof.
  intros Hp. unfold verify_and_write.
  now rewrite (piece_hash_never_matches fs p info combinedBlock Hp).
Qed.

Lemma wnf_download_piece_body (fs : filesystem)
    (outputFilepath torrentFilepath : string) (pieceIdx : Z) :
  writes_no_file
    (download_piece_body fs outputFilepath torrentFilepath pieceIdx).
Proof.
  unfold download_piece_body.
  apply wnf_bind; [apply wnf_lift|]. intros info w w' Hp.
  apply io_lift_Ok in Hp as [Hp _].
  apply wnf_bind; [apply wnf_handshake|]. intros _ _ _ _.
  apply wnf_bind; [apply wnf_waitPeerMessage|]. intros _ _ _ _.
  apply wnf_bind; [apply wnf_sendPeerMessage|]. intros _ _ _ _.
  apply wnf_bind; [apply wnf_waitPeerMessage|]. intros _ _ _ _.
  apply wnf_bind; [apply wnf_request_loop|]. intros count _ _ _.
  apply wnf_bind; [apply wnf_lift|]. intros combinedBlock _ _ _.
  apply wnf_bind; [apply wnf_receive_loop|]. intros combinedBlock' _ _ _.
  rewrite (verify_and_write_fails fs torrentFilepath info _ _ Hp).
  apply wnf_bind; [now apply wnf_log|]. intros _ _ _ _. apply wnf_lift.
Qed.

(** X11: the command [download_piece] never writes its output file and
    never comes to its end without a failure: whatever the torrent file, the
    piece asked for and the bytes the peer sends, the events the command
    adds to the trace include no write of a file, and the steps of the
    command never all succeed. *)
Theorem download_piece_never_writes (fs : filesystem)
    (outputFilepath torrentFilepath : string) (pieceIdx : Z) (w : world) :
  (exists evs,
     trace (snd (download_piece fs outputFilepath torrentFilepath pieceIdx w))
     = (evs ++ trace w)%list
     /\ Forall (fun e => file_written e = false) evs)
  /\ fst (download_piece_body fs outputFilepath torrentFilepath pieceIdx w)
     <> Ok tt.
Proof.
  split.
  - destruct (wnf_download_piece_body fs outputFilepath torrentFilepath
                pieceIdx w) as (evs & Ht & Hf).
    unfold download_piece.
    destruct (download_piece_body fs outputFilepath torrentFilepath pieceIdx w)
      as [[[]|e| |] w1]; cbn [snd] in *;
      try (exists evs; split; assumption).
    destruct e; try (exists evs; split; assumption);
      (eexists (_ :: evs); split;
       [unfold log; cbn [snd trace]; rewrite Ht; reflexivity
       |constructor; [reflexivity|exact Hf]]).
  - destruct (download_piece_body fs outputFilepath torrentFilepath pieceIdx w)
      as [[[]|e| |] w'] eqn:H; cbn [fst]; try discriminate.
    exfalso. unfold download_piece_body in H.
    apply io_bind_Ok in H as (info & w1 & Hp & H).
    apply io_lift_Ok in Hp as [Hp _].
    do 7 (apply io_bind_Ok in H as (? & ? & _ & H)).
    rewrite (verify_and_write_fails fs torrentFilepath info _ _ Hp) in H.
    apply io_bind_Ok in H as (? & ? & _ & H).
    apply io_lift_Ok in H as [H _]. discriminate H.
Qed.

(** ** The peers of the tracker's response *)

Lemma byte_val_ascii (a : ascii) : byte_val (byte_of_ascii a) = code a.
Proof.
  unfold byte_val, code. f_equal.
  apply Byte.to_of_N. symmetry. apply byte_of_ascii_via_N.
Qed.

Lemma code_range (a : ascii) : 0 <= code a < 256.
Proof. unfold code. pose proof (N_ascii_bounded a). lia. Qed.

Lemma length_ge_6 (t : string) :
  (6 <= String.length t)%nat ->
  exists a b c d p q r,
    t = String a (String b (String c (String d (String p (String q r))))).
Proof.
  destruct t as [|a [|b [|c [|d [|p [|q r]]]]]]; cbn [String.length];
    try lia.
  intros _. now exists a, b, c, d, p, q, r.
Qed.

Lemma slice_drop_take (s : string) (i n : Z) :
  0 <= i -> 0 <= n -> i + n <= len s ->
  slice s i (i + n) = Ok (take_str (Z.to_nat n) (drop_str (Z.to_nat i) s)).
Proof.
  intros Hi Hn Hl. unfold slice.
  replace ((0 <=? i) && (i <=? i + n) && (i + n <=? len s)) with true
    by (symmetry; rewrite !andb_true_iff, !Z.leb_le; lia).
  now replace (i + n - i) with n by lia.
Qed.

Lemma peers_loop_step (fuel : nat) (resPeer : string) (i : Z)
    (ret : list string) :
  0 <= i -> i + 6 <= len resPeer ->
  peers_loop (S fuel) resPeer i ret
  = peers_loop fuel resPeer (i + 6)
      (ret ++ [peer_address (drop_str (Z.to_nat i) resPeer)])%list.
Proof.
  intros Hi Hl. cbn [peers_loop].
  replace (i <? len resPeer) with true by (symmetry; apply Z.ltb_lt; lia).
  rewrite (slice_drop_take resPeer i 4) by lia. cbn [bind].
  replace (i + 6) with (i + 4 + 2) by lia.
  rewrite (slice_drop_take resPeer (i + 4) 2) by lia. cbn [bind].
  replace (Z.to_nat (i + 4)) with (Z.to_nat i + 4)%nat by lia.
  rewrite drop_str_add.
  destruct (length_ge_6 (drop_str (Z.to_nat i) resPeer))
    as (a & b & c & d & p & q & r & ->).
  { rewrite length_drop_str. unfold len in Hl. lia. }
  change (take_str (Z.to_nat 4) _)
    with (String a (String b (String c (String d EmptyString)))).
  change (take_str (Z.to_nat 2) (drop_str 4 _))
    with (String p (String q EmptyString)).
  change (list_byte_of_string (String p (String q EmptyString)))
    with [byte_of_ascii p; byte_of_ascii q].
  cbn [BigEndian_Uint16 bind IP_String peer_address].
  rewrite !byte_val_ascii.
  pose proof (code_range q).
  rewrite lor_shiftl_add by (change (2 ^ 8) with 256; lia).
  change (2 ^ 8) with 256.
  replace (code q + code p * 256) with (256 * code p + code q) by lia.
  unfold eachPeerSize. rewrite !app_str_assoc.
  replace (i + 4 + 2) with (i + 6) by lia. reflexivity.
Qed.

Lemma peers_loop_chunks (k : nat) :
  forall (fuel : nat) (resPeer : string) (i : Z) (ret : list string),
    0 <= i -> len resPeer - i = 6 * Z.of_nat k -> (k <= fuel)%nat ->
    peers_loop fuel resPeer i ret
    = Ok (ret ++ map peer_address
                   (chunks 6 k (drop_str (Z.to_nat i) resPeer)))%list.
Proof.
  induction k as [|k IH]; intros fuel resPeer i ret Hi Hl Hf.
  - cbn [chunks map]. rewrite app_nil_r.
    destruct fuel; cbn [peers_loop];
      replace (i <? len resPeer) with false
        by (symmetry; apply Z.ltb_ge; lia); reflexivity.
  - destruct fuel as [|fuel]; [lia|].
    rewrite peers_loop_step by lia.
    rewrite (IH fuel) by lia.
    cbn [chunks map]. rewrite <- app_assoc. cbn [app].
    replace (Z.to_nat (i + 6)) with (Z.to_nat i + 6)%nat by lia.
    rewrite drop_str_add. f_equal. f_equal. f_equal.
    destruct (length_ge_6 (drop_str (Z.to_nat i) resPeer))
      as (a & b & c & d & p & q & r & ->); [|reflexivity].
    rewrite length_drop_str. unfold len in Hl. lia.
Qed.

Lemma peers_loop_short (fuel : nat) :
  forall (resPeer : string) (i : Z) (ret : list string),
    0 <= i <= len resPeer -> (len resPeer - i) mod 6 <> 0 ->
    len resPeer - i <= Z.of_nat fuel ->
    peers_loop fuel resPeer i ret = Panic SliceOutOfRange.
Proof.
  induction fuel as [|fuel IH]; intros resPeer i ret Hi Hm Hf.
  - replace (len resPeer - i) with 0 in Hm by lia. now destruct Hm.
  - destruct (Z_le_gt_dec (i + 6) (len resPeer)) as [Hle|Hgt].
    + rewrite peers_loop_step by lia. apply IH; [lia| |lia].
      replace (len resPeer - (i + 6)) with (len resPeer - i + (-1) * 6)
        by lia.
      now rewrite Z.mod_add by lia.
    + assert (Hlt : i < len resPeer).
      { destruct (Z.eq_dec i (len resPeer)) as [->|]; [|lia].
        rewrite Z.sub_diag in Hm. now destruct Hm. }
      cbn [peers_loop].
      replace (i <? len resPeer) with true by (symmetry; apply Z.ltb_lt; lia).
      unfold slice at 1.
      destruct ((0 <=? i) && (i <=? i + 4) && (i + 4 <=? len resPeer));
        [cbn [bind]|reflexivity].
      unfold slice.
      replace (i + 6 <=? len resPeer) with false
        by (symmetry; apply Z.leb_gt; lia).
      now rewrite andb_false_r.
Qed.

(** X12: the peers [getPeers] returns.  When the torrent parses and the body
    of the tracker's response decodes to a dictionary whose [peers] is a
    byte-string: an empty byte-string gives the error "unexpected peers
    string"; a byte-string of [6 * k] bytes, [k] at least 1, gives [k]
    addresses, one for each entry of six bytes, in order: the four bytes of
    the address in decimal with dots, a colon, and the port in decimal, its
    high byte first; a byte-string of any other length gives no result: the
    slice that takes the last entry is out of range. *)
Theorem getPeers_addresses (fs : filesystem) (p body resPeer : string)
    (info : Info) (m : gmap string value) (n : Z) :
  parseToInfo fs p = Ok info ->
  decodeBencode body = Ok (VDict m, n) ->
  m !! "peers" = Some (VStr resPeer) ->
  (resPeer = "" -> getPeers fs p body = Ok ErrUnexpectedPeers)
  /\ (forall k : nat,
        String.length resPeer = (6 * S k)%nat ->
        getPeers fs p body
        = Ok (Peers (map peer_address (chunks 6 (S k) resPeer)))
        /\ length (map peer_address (chunks 6 (S k) resPeer)) = S k)
  /\ (len resPeer mod 6 <> 0 ->
      getPeers fs p body = Panic SliceOutOfRange).
Proof.
  intros Hp Hd Hm. unfold getPeers. rewrite Hp, Hd. cbn [bind assert_dict].
  rewrite Hm. cbn [bind assert_string].
  split; [|split].
  - intros ->. reflexivity.
  - intros k Hk.
    assert (He : String.eqb resPeer "" = false)
      by (destruct resPeer; [discriminate Hk|reflexivity]).
    rewrite He, (peers_loop_chunks (S k)) by (unfold len; lia).
    cbn [bind app]. split; [reflexivity|].
    rewrite length_map. apply chunks_length. lia.
  - intros Hmod.
    assert (He : String.eqb resPeer "" = false)
      by (destruct resPeer; [now destruct Hmod|reflexivity]).
    rewrite He, peers_loop_short; [reflexivity| | |].
    + pose proof (len_nonneg resPeer). lia.
    + now rewrite Z.sub_0_r.
    + unfold len. lia.
Qed.

Lemma getPeers_addresses_witness :
  exists info,
    parseToInfo sample_fs "sample.torrent" = Ok info
    /\ getPeers sample_fs "sample.torrent" sample_response
       = Ok (Peers (map peer_address (chunks 6 1 sample_peers)))
    /\ length (map peer_address (chunks 6 1 sample_peers)) = 1%nat.
Proof.
  destruct (parseToInfo sample_fs "sample.torrent") as [info| | |] eqn:Hp;
    try (vm_compute in Hp; discriminate Hp).
  exists info. split; [reflexivity|].
  refine (proj1 (proj2 (getPeers_addresses sample_fs "sample.torrent"
                          sample_response sample_peers info
                          {[ "peers" := VStr sample_peers ]} 16 Hp _ _))
                0%nat _).
  - vm_compute. reflexivity.
  - vm_compute. reflexivity.
  - reflexivity.
Defined.

(** The address of the entry of the response above. *)
Example peer_address_sample :
  peer_address sample_peers = "165.232.33.77:51467".
Proof. vm_compute. reflexivity. Qed.

(** ** Dictionaries that are not in canonical form *)

Lemma assign_all_last (ret : gmap string value) (kvs : list (string * value))
    (k : string) (v : value) :
  assign_all ret (kvs ++ [(k, v)]) !! k = Some v.
Proof.
  rewrite assign_all_app. cbn [assign_all foldl fst snd].
  apply lookup_insert_eq.
Qed.

(** X13: the decoder does not ask for the canonical form of a dictionary.
    Pairs of a key that is not empty and a byte-string or an integer are
    accepted in any order and with keys that occur again; the dictionary
    decoded is the one the assignments [ret[key] = value] build in the order
    of the text, so that the last value given for a key is the one kept. *)
Theorem decode_dict_any_order (kvs : list (string * value)) (rest : string) :
  Forall (fun kv => key_ok kv.1 /\ scalar kv.2) kvs ->
  decodeBencode ("d" +:+ pairs_text kvs +:+ "e" +:+ rest)
  = Ok (VDict (assign_all ∅ kvs), len (pairs_text kvs) + 1)
  /\ (forall kvs' k v, kvs = (kvs' ++ [(k, v)])%list ->
        assign_all ∅ kvs !! k = Some v).
Proof.
  intros H. split.
  - apply (decodeBencode_any_fuel (S (2 * length kvs + 1))); [|discriminate].
    change ("d" +:+ pairs_text kvs +:+ "e" +:+ rest)
      with (String "d" (pairs_text kvs +:+ "e" +:+ rest)).
    rewrite decode_dict_head, (dict_loop_pairs kvs H 0).
    reflexivity.
  - intros kvs' k v ->. apply assign_all_last.
Qed.

Lemma decode_dict_any_order_witness :
  decodeBencode ("d" +:+ pairs_text [("b", VInt 1); ("a", VInt 2);
                                     ("b", VStr "x")]
                   +:+ "e" +:+ "")
  = Ok (VDict (assign_all ∅ [("b", VInt 1); ("a", VInt 2); ("b", VStr "x")]),
        len (pairs_text [("b", VInt 1); ("a", VInt 2); ("b", VStr "x")]) + 1)
  /\ (forall kvs' k v,
        [("b", VInt 1); ("a", VInt 2); ("b", VStr "x")]
        = (kvs' ++ [(k, v)])%list ->
        assign_all ∅ [("b", VInt 1); ("a", VInt 2); ("b", VStr "x")] !! k
        = Some v).
Proof.
  apply (decode_dict_any_order
           [("b", VInt 1); ("a", VInt 2); ("b", VStr "x")] "").
  repeat constructor; cbn; try discriminate; try (vm_compute; discriminate).
Defined.

(** ** No encoding is the beginning of another *)

Lemma app_str_nil_l (t : string) : "" +:+ t = t.
Proof. reflexivity. Qed.

Lemma app_str_inv_head (s a b : string) : s +:+ a = s +:+ b -> a = b.
Proof.
  induction s as [|c s IH]; [exact id|].
  rewrite !app_str_cons. intros [= H]. now apply IH.
Qed.

Lemma app_str_same_length (s1 s2 r1 r2 : string) :
  String.length s1 = String.length s2 ->
  s1 +:+ r1 = s2 +:+ r2 -> s1 = s2 /\ r1 = r2.
Proof.
  revert s2. induction s1 as [|c s1 IH]; intros [|c2 s2] Hl;
    try discriminate Hl.
  - now intros H.
  - rewrite !app_str_cons. intros [= -> H]. injection Hl as Hl.
    destruct (IH s2 Hl H) as [-> ->]. now split.
Qed.

Lemma digits_prefix (c : ascii) (d1 : Decimal.uint) :
  IsDigit c = false ->
  forall (d2 : Decimal.uint) (x y : string),
    NilEmpty.string_of_uint d1 +:+ String c x
    = NilEmpty.string_of_uint d2 +:+ String c y ->
    d1 = d2 /\ x = y.
Proof.
  intros Hc. induction d1 as [|d1 IH|d1 IH|d1 IH|d1 IH|d1 IH|d1 IH|d1 IH
                              |d1 IH|d1 IH|d1 IH];
    intros d2 x y H; destruct d2 as [|d2|d2|d2|d2|d2|d2|d2|d2|d2|d2];
    cbn [NilEmpty.string_of_uint] in H;
    rewrite ?app_str_cons, ?app_str_nil_l in H;
    inversion H; subst; try discriminate Hc;
    try (split; reflexivity);
    match goal with
    | Ht : _ +:+ String c x = _ +:+ String c y |- _ =>
        destruct (IH _ _ _ Ht) as [-> ->]; split; reflexivity
    end.
Qed.

Lemma digits_of_inj (n1 n2 : Z) :
  0 <= n1 -> 0 <= n2 -> digits_of n1 = digits_of n2 -> n1 = n2.
Proof.
  intros H1 H2 H. rewrite <- (digits_of_val n1 H1), <- (digits_of_val n2 H2).
  now rewrite H.
Qed.

Lemma FormatInt_prefix (c : ascii) (n1 n2 : Z) (x y : string) :
  IsDigit c = false ->
  FormatInt n1 +:+ String c x = FormatInt n2 +:+ String c y ->
  n1 = n2 /\ x = y.
Proof.
  intros Hc H.
  destruct (Z.lt_ge_cases n1 0) as [H1|H1];
    destruct (Z.lt_ge_cases n2 0) as [H2|H2].
  - rewrite (FormatInt_neg n1 H1), (FormatInt_neg n2 H2), !app_str_cons in H.
    injection H as H. apply (digits_prefix c _ Hc) in H as [Hd ->].
    apply digits_of_inj in Hd; [|lia|lia]. split; [lia|reflexivity].
  - rewrite (FormatInt_neg n1 H1), (FormatInt_nonneg n2 H2) in H.
    destruct (string_of_uint_head _ (digits_of_nonnil n2))
      as (a & r & Hr & Ha).
    rewrite Hr, !app_str_cons in H. injection H as <- _. discriminate Ha.
  - rewrite (FormatInt_nonneg n1 H1), (FormatInt_neg n2 H2) in H.
    destruct (string_of_uint_head _ (digits_of_nonnil n1))
      as (a & r & Hr & Ha).
    rewrite Hr, !app_str_cons in H. injection H as -> _. discriminate Ha.
  - rewrite (FormatInt_nonneg n1 H1), (FormatInt_nonneg n2 H2) in H.
    apply (digits_prefix c _ Hc) in H as [Hd ->].
    apply digits_of_inj in Hd; [|lia|lia]. now split.
Qed.

Lemma bencode_string_prefix (k1 k2 x y : string) :
  bencode_string k1 +:+ x = bencode_string k2 +:+ y -> k1 = k2 /\ x = y.
Proof.
  unfold bencode_string. rewrite !app_str_assoc, !app_str_cons, !app_str_nil_l.
  intros H. apply FormatInt_prefix in H as [Hl H]; [|reflexivity].
  apply app_str_same_length in H; [exact H|].
  unfold len in Hl. lia.
Qed.

Lemma bencode_items_text (l : list value) (joined s : string) :
  bencode_items bencode l joined = Ok s ->
  exists encs,
    Forall2 (fun v e => bencode v = Ok e) l encs
    /\ s = joined +:+ concat_str encs.
Proof.
  revert joined. induction l as [|v l IH]; intros joined;
    cbn [bencode_items].
  - intros [= <-]. exists []. split; [constructor|].
    cbn [concat_str]. now rewrite app_str_nil_r.
  - destruct (bencode v) as [e| | |] eqn:He; cbn [bind]; try discriminate.
    intros H. destruct (IH _ H) as (encs & Hall & ->).
    exists (e :: encs). split; [now constructor|].
    cbn [concat_str]. now rewrite app_str_assoc.
Qed.

Lemma bencode_kind_head (v : value) (e : string) :
  bencode v = Ok e ->
  exists a r,
    e = String a r
    /\ match v with
       | VStr _ => IsDigit a = true
       | VInt _ => a = "i"%char
       | VList _ => a = "l"%char
       | VDict _ => a = "d"%char
       end.
Proof.
  destruct v as [s|n|l|m]; cbn [bencode].
  - intros [= <-]. rewrite bencode_string_digits.
    destruct (string_of_uint_head _ (digits_of_nonnil (len s)))
      as (a & r & -> & Ha).
    exists a, (r +:+ ":" +:+ s). now split.
  - intros [= <-]. eexists. eexists. split; reflexivity.
  - destruct (bencode_items bencode l "") as [joined| | |]; try discriminate.
    intros [= <-]. eexists. eexists. split; reflexivity.
  - unfold bencode_dict.
    destruct (bencode_entries _ _ "") as [joined| | |]; try discriminate.
    intros [= <-]. eexists. eexists. split; reflexivity.
Qed.

(** The statement proved by induction on the first value. *)
Lemma bencode_prefix (v1 : value) :
  forall (v2 : value) (e1 e2 r1 r2 : string),
    bencode v1 = Ok e1 -> bencode v2 = Ok e2 ->
    e1 +:+ r1 = e2 +:+ r2 -> v1 = v2 /\ r1 = r2.
Proof.
  induction v1 as [s1|n1|l1 IH|m1 IH] using value_ind';
    intros v2 e1 e2 r1 r2 H1 H2 H;
    pose proof (bencode_kind_head _ _ H1) as (a1 & t1 & Ht1 & Hk1);
    pose proof (bencode_kind_head _ _ H2) as (a2 & t2 & Ht2 & Hk2);
    assert (Ha : a1 = a2)
      by (rewrite Ht1, Ht2, !app_str_cons in H; now injection H);
    destruct v2 as [s2|n2|l2|m2]; subst a2;
    try (subst a1; discriminate);
    try (rewrite Hk2 in Hk1; discriminate Hk1).
  - cbn [bencode] in H1, H2. injection H1 as <-. injection H2 as <-.
    apply bencode_string_prefix in H as [-> ->]. now split.
  - cbn [bencode] in H1, H2. injection H1 as <-. injection H2 as <-.
    rewrite !app_str_assoc, !app_str_cons, !app_str_nil_l in H.
    injection H as H. apply FormatInt_prefix in H as [-> H]; [|reflexivity].
    now split.
  - cbn [bencode] in H1, H2.
    destruct (bencode_items bencode l1 "") as [j1| | |] eqn:Hj1;
      try discriminate H1.
    destruct (bencode_items bencode l2 "") as [j2| | |] eqn:Hj2;
      try discriminate H2.
    cbn [bind] in H1, H2. injection H1 as <-. injection H2 as <-.
    apply bencode_items_text in Hj1 as (encs1 & Hall1 & ->).
    apply bencode_items_text in Hj2 as (encs2 & Hall2 & ->).
    rewrite !app_str_assoc, !app_str_cons, !app_str_nil_l in H.
    injection H as H.
    clear - IH Hall1 Hall2 H.
    revert l2 encs1 encs2 Hall1 Hall2 H.
    induction IH as [|v1 l1 Hv1 _ IHl]; intros l2 encs1 encs2 Hall1 Hall2 H.
    + inversion Hall1; subst. cbn [concat_str] in H.
      rewrite app_str_nil_l in H.
      destruct Hall2 as [|v2 e2 l2 encs2 He2 Hall2].
      * cbn [concat_str] in H. rewrite app_str_nil_l in H.
        injection H as ->. now split.
      * exfalso. destruct (bencode_head _ _ He2) as (a & r & -> & Hne).
        cbn [concat_str] in H. rewrite !app_str_cons in H.
        injection H as <- _. discriminate Hne.
    + inversion Hall1 as [|? e1 ? encs1' He1 Hall1']; subst.
      destruct Hall2 as [|v2 e2 l2 encs2 He2 Hall2].
      * exfalso. destruct (bencode_head _ _ He1) as (a & r & -> & Hne).
        cbn [concat_str] in H. rewrite !app_str_cons, app_str_nil_l in H.
        injection H as -> _. discriminate Hne.
      * cbn [concat_str] in H. rewrite !app_str_assoc in H.
        destruct (Hv1 _ _ _ _ _ He1 He2 H) as [-> H'].
        rewrite He1 in He2. injection He2 as <-.
        destruct (IHl _ _ _ Hall1' Hall2 H') as [Hl ->].
        injection Hl as ->. now split.
  - cbn [bencode] in H1, H2. unfold bencode_dict in H1, H2.
    destruct (bencode_entries (bencode <$> m1) _ "") as [j1| | |] eqn:Hj1;
      try discriminate H1.
    destruct (bencode_entries (bencode <$> m2) _ "") as [j2| | |] eqn:Hj2;
      try discriminate H2.
    cbn [bind] in H1, H2. injection H1 as <-. injection H2 as <-.
    apply bencode_entries_ok in Hj1 as (evs1 & Hall1 & ->).
    apply bencode_entries_ok in Hj2 as (evs2 & Hall2 & ->).
    rewrite !app_str_assoc, !app_str_cons, !app_str_nil_l in H.
    injection H as H.
    clear - IH Hall1 Hall2 H.
    assert (Hkeys : forall (m : gmap string value) k,
              k ∈ sort_Strings (map fst (map_to_list m)) <-> is_Some (m !! k)).
    { intros m k. unfold sort_Strings. rewrite merge_sort_Permutation.
      rewrite list_elem_of_fmap. split.
      - intros [[k' v] [-> Hkv]]. apply elem_of_map_to_list in Hkv. now exists v.
      - intros [v Hv]. exists (k, v). split; [reflexivity|].
        now apply elem_of_map_to_list. }
    assert (Hstep : forall ks1 evs1 ks2 evs2,
              Forall2 (fun k ev => (bencode <$> m1) !! k = Some (Ok ev))
                      ks1 evs1 ->
              Forall2 (fun k ev => (bencode <$> m2) !! k = Some (Ok ev))
                      ks2 evs2 ->
              entries_text ks1 evs1 +:+ String "e" r1
              = entries_text ks2 evs2 +:+ String "e" r2 ->
              ks1 = ks2 /\ Forall (fun k => m1 !! k = m2 !! k) ks1
              /\ r1 = r2).
    { clear Hall1 Hall2 H evs1 evs2.
      intros ks1 evs1 ks2 evs2 Hall1. revert ks2 evs2.
      induction Hall1 as [|k1 ev1 ks1 evs1 Hk1 Hall1 IHk];
        intros ks2 evs2 Hall2 H.
      - destruct Hall2 as [|k2 ev2 ks2 evs2 Hk2 Hall2].
        + cbn [entries_text] in H. rewrite !app_str_nil_l in H.
          injection H as ->. repeat split; constructor.
        + exfalso. destruct (bencode_string_head k2) as (a & r & Hr & Hne).
          cbn [entries_text] in H.
          rewrite Hr, !app_str_cons, app_str_nil_l in H.
          injection H as <- _. discriminate Hne.
      - destruct Hall2 as [|k2 ev2 ks2 evs2 Hk2 Hall2].
        + exfalso. destruct (bencode_string_head k1) as (a & r & Hr & Hne).
          cbn [entries_text] in H.
          rewrite Hr, !app_str_cons, app_str_nil_l in H.
          injection H as -> _. discriminate Hne.
        + cbn [entries_text] in H. rewrite !app_str_assoc in H.
          apply bencode_string_prefix in H as [<- H].
          rewrite lookup_fmap in Hk1, Hk2.
          destruct (m1 !! k1) as [v1|] eqn:Hv1; [|discriminate Hk1].
          destruct (m2 !! k1) as [v2|] eqn:Hv2; [|discriminate Hk2].
          cbn in Hk1, Hk2. injection Hk1 as Hk1. injection Hk2 as Hk2.
          destruct (IH k1 v1 Hv1 _ _ _ _ _ Hk1 Hk2 H) as [-> H'].
          rewrite Hk1 in Hk2. injection Hk2 as <-.
          destruct (IHk _ _ Hall2 H') as (-> & Hf & ->).
          repeat split. constructor; [congruence|exact Hf]. }
    destruct (Hstep _ _ _ _ Hall1 Hall2 H) as (Hks & Hf & ->).
    split; [|reflexivity]. f_equal. apply map_eq. intros k.
    destruct (m1 !! k) as [v|] eqn:Hv.
    + assert (Hin : k ∈ sort_Strings (map fst (map_to_list m1)))
        by (apply Hkeys; rewrite Hv; eauto).
      rewrite Forall_forall in Hf. rewrite <- (Hf k Hin). now symmetry.
    + destruct (m2 !! k) as [v|] eqn:Hv2; [|reflexivity].
      assert (Hin : k ∈ sort_Strings (map fst (map_to_list m1))).
      { rewrite Hks. apply Hkeys. rewrite Hv2. eauto. }
      apply Hkeys in Hin. rewrite Hv in Hin. now destruct Hin.
Qed.

(** X14: the encoder is one-to-one and no encoding is the beginning of
    another: when the encoding of a value followed by some bytes equals the
    encoding of a value followed by some bytes, the two values are the same
    and so are the bytes that follow.  Two dictionaries with the same
    encoding are therefore the same dictionary. *)
Theorem bencode_prefix_free (v1 v2 : value) (e1 e2 r1 r2 : string) :
  bencode v1 = Ok e1 -> bencode v2 = Ok e2 ->
  e1 +:+ r1 = e2 +:+ r2 ->
  v1 = v2 /\ e1 = e2 /\ r1 = r2.
Proof.
  intros H1 H2 H.
  destruct (bencode_prefix v1 v2 e1 e2 r1 r2 H1 H2 H) as [-> ->].
  rewrite H1 in H2. injection H2 as ->. now repeat split.
Qed.

Lemma bencode_prefix_free_witness :
  VList [VInt 1; VStr "a"] = VList [VInt 1; VStr "a"]
  /\ "li1e1:ae" = "li1e1:ae" /\ "i2e" = "i2e".
Proof.
  apply (bencode_prefix_free (VList [VInt 1; VStr "a"])
           (VList [VInt 1; VStr "a"]) "li1e1:ae" "li1e1:ae" "i2e" "i2e").
  - vm_compute. reflexivity.
  - vm_compute. reflexivity.
  - reflexivity.
Defined.

(** ** Keys the decoder cannot bind *)

Lemma no_empty_key_all (fuel : nat) :
  (forall s v n, decodeBencode_fuel fuel s = Ok (v, n) -> no_empty_key v)
  /\ (forall in_ ret u v n,
        list_loop fuel in_ ret u = Ok (v, n) ->
        Forall no_empty_key ret -> no_empty_key v)
  /\ (forall in_ ret key u v n,
        dict_loop fuel in_ ret key u = Ok (v, n) ->
        no_empty_key (VDict ret) -> no_empty_key v).
Proof.
  induction fuel as [|fuel (IHd & IHl & IHm)].
  { repeat split; intros; discriminate. }
  split; [|split].
  - intros s v n. cbn [decodeBencode_fuel].
    destruct s as [|c0 r]; [discriminate|].
    destruct (IsDigit c0).
    { destruct (slice (String c0 r) 0 _) as [lengthStr| | |]; cbn [bind];
        try discriminate.
      destruct (Atoi lengthStr) as [length| | |]; cbn [bind];
        try discriminate.
      destruct (slice (String c0 r) (_ + 1) _) as [str| | |]; cbn [bind];
        try discriminate.
      intros [= <- _]. constructor. }
    destruct (HasPrefix (String c0 r) "i").
    { destruct (slice (String c0 r) 1 _) as [numStr| | |]; cbn [bind];
        try discriminate.
      destruct (Atoi numStr) as [num| | |]; cbn [bind]; try discriminate.
      intros [= <- _]. constructor. }
    destruct (HasPrefix (String c0 r) "l").
    { intros H. apply IHl in H; [exact H|constructor]. }
    destruct (HasPrefix (String c0 r) "d"); [|discriminate].
    intros H. apply IHm in H; [exact H|].
    constructor; [reflexivity|]. intros k x Hk.
    rewrite lookup_empty in Hk. discriminate Hk.
  - intros in_ ret u v n. cbn [list_loop].
    destruct in_ as [|c0 r]; [discriminate|].
    destruct (Ascii.eqb c0 "e").
    { intros [= <- _] Hret. now constructor. }
    destruct (decodeBencode_fuel fuel (String c0 r))
      as [[decoded next]| | |] eqn:Hd; cbn [bind]; try discriminate.
    destruct (slice_from (String c0 r) next) as [in'| | |]; cbn [bind];
      try discriminate.
    intros H Hret. apply IHl in H; [exact H|].
    apply Forall_app. split; [exact Hret|].
    constructor; [|constructor]. now apply IHd in Hd.
  - intros in_ ret key u v n. cbn [dict_loop].
    destruct in_ as [|c0 r]; [discriminate|].
    destruct (Ascii.eqb c0 "e").
    { now intros [= <- _] Hret. }
    destruct (decodeBencode_fuel fuel (String c0 r))
      as [[decoded next]| | |] eqn:Hd; cbn [bind]; try discriminate.
    apply IHd in Hd.
    destruct (String.eqb key "") eqn:Hkey.
    + destruct decoded as [s| | |]; cbn [bind]; try discriminate.
      destruct (slice_from (String c0 r) next) as [in'| | |]; cbn [bind];
        try discriminate.
      intros H Hret. now apply IHm in H.
    + cbn [bind].
      destruct (slice_from (String c0 r) next) as [in'| | |]; cbn [bind];
        try discriminate.
      intros H Hret. apply IHm in H; [exact H|].
      apply String.eqb_neq in Hkey.
      inversion Hret as [| | |m Hnone Hall]; subst.
      constructor.
      * rewrite lookup_insert_ne by exact Hkey. exact Hnone.
      * intros k x Hk. destruct (decide (key = k)) as [->|Hne].
        -- rewrite lookup_insert_eq in Hk. now injection Hk as <-.
        -- rewrite lookup_insert_ne in Hk by exact Hne. now apply (Hall k).
Qed.

(** X15: the decoder never binds the empty key.  The dictionary loop marks
    "no key read yet" by the empty string, so whatever the input, no
    dictionary of a decoded value, at any depth, has the empty key: the
    encoding of a dictionary that binds it is not decoded back. *)
Theorem decode_no_empty_key (s : string) (v : value) (n : Z) :
  decodeBencode s = Ok (v, n) -> no_empty_key v.
Proof.
  intros H. exact (proj1 (no_empty_key_all _) _ _ _ H).
Qed.

Lemma decode_no_empty_key_witness :
  no_empty_key (VDict {[ "a" := VDict {[ "b" := VInt 1 ]} ]}).
Proof.
  apply (decode_no_empty_key "d1:ad1:bi1eee" _ 11).
  vm_compute. reflexivity.
Defined.

(** X16: two malformed dictionaries.  After any pairs of a key and a
    byte-string or an integer, a key that is not followed by a value before
    the closing [e] is dropped without an error, and an integer where a key
    is due makes the type assertion [decoded.(string)] panic. *)
Theorem decode_dict_malformed (kvs : list (string * value)) (k : string)
    (n : Z) (rest : string) :
  Forall (fun kv => key_ok kv.1 /\ scalar kv.2) kvs ->
  len (bencode_string k) <= int_max ->
  int_min <= n <= int_max ->
  decodeBencode ("d" +:+ pairs_text kvs +:+ bencode_string k +:+ "e" +:+ rest)
  = Ok (VDict (assign_all ∅ kvs),
        len (pairs_text kvs) + len (bencode_string k) + 1)
  /\ decodeBencode ("d" +:+ pairs_text kvs +:+ "i" +:+ FormatInt n +:+ "e"
                      +:+ rest)
     = Panic TypeAssertion.
Proof.
  intros H Hk Hn. split.
  - apply (decodeBencode_any_fuel (S (2 * length kvs + 3))); [|discriminate].
    change ("d" +:+ ?x) with (String "d" x).
    rewrite decode_dict_head, (dict_loop_pairs kvs H 2).
    destruct (bencode_string_head k) as (a & r & Ha & Hne).
    rewrite (dict_loop_head _ _ a (r +:+ "e" +:+ rest))
      by (try rewrite Ha; first [reflexivity | exact Hne]).
    rewrite decode_string_exact by exact Hk. cbn [bind].
    change (String.eqb "" "") with true. cbv iota. cbn [bind].
    rewrite slice_from_app. cbn [bind].
    change ("e" +:+ rest) with (String "e" rest). cbn [dict_loop].
    change (Ascii.eqb "e" "e") with true. cbv iota.
    now rewrite Z.add_0_l.
  - apply (decodeBencode_any_fuel (S (2 * length kvs + 3))); [|discriminate].
    change ("d" +:+ ?x) with (String "d" x).
    rewrite decode_dict_head, (dict_loop_pairs kvs H 2).
    replace ("i" +:+ FormatInt n +:+ "e" +:+ rest)
      with (scalar_text (VInt n) +:+ rest)
      by (cbn [scalar_text]; now rewrite !app_str_assoc).
    rewrite (dict_loop_head _ _ "i" ((FormatInt n +:+ "e") +:+ rest))
      by reflexivity.
    rewrite (scalar_decode (VInt n)) by exact Hn. reflexivity.
Qed.

Lemma decode_dict_malformed_witness :
  decodeBencode ("d" +:+ pairs_text [("a", VInt 1)] +:+ bencode_string "foo"
                   +:+ "e" +:+ "")
  = Ok (VDict (assign_all ∅ [("a", VInt 1)]),
        len (pairs_text [("a", VInt 1)]) + len (bencode_string "foo") + 1)
  /\ decodeBencode ("d" +:+ pairs_text [("a", VInt 1)] +:+ "i" +:+ FormatInt 7
                      +:+ "e" +:+ "")
     = Panic TypeAssertion.
Proof.
  apply (decode_dict_malformed [("a", VInt 1)] "foo" 7 "").
  - repeat constructor; cbn; try discriminate; try (vm_compute; discriminate).
  - vm_compute. discriminate.
  - vm_compute. split; discriminate.
Defined.

(** ** The end of the stream *)

Lemma conn_Read_eof (size : Z) (w : world) :
  size <> 0 -> incoming w = [] ->
  conn_Read size w = (Err ErrEOF, after_reads w [] [EvRead size]).
Proof.
  intros Hs Hi. unfold conn_Read, io_bind, log, after_reads.
  cbn [incoming writes_left trace]. rewrite Hi.
  apply Z.eqb_neq in Hs. rewrite Hs. reflexivity.
Qed.

Lemma waitPeerMessage_fuel_eof (expid : byte)
    (skipped : list (byte * list byte)) :
  forall (fuel : nat) (w : world),
    (length skipped < fuel)%nat ->
    Forall (fun m => m.1 <> expid /\ Z.of_nat (length m.2) < 2 ^ 32 - 1)
           skipped ->
    incoming w = arrived (frames skipped) [] ->
    exists evs,
      waitPeerMessage_fuel fuel expid w = (Err ErrEOF, after_reads w [] evs)
      /\ length evs = (3 * length skipped + 1)%nat
      /\ Forall (fun e => exists n, e = EvRead n) evs.
Proof.
  induction skipped as [|[id pl] skipped IH]; intros fuel w Hf Hs Hi.
  - destruct fuel as [|fuel]; [cbn [length] in Hf; lia|].
    cbn [waitPeerMessage_fuel]. unfold io_bind at 1, waitPeerMessage_turn.
    unfold io_bind at 1.
    rewrite (conn_Read_eof messageLengthLen w ltac:(discriminate) Hi).
    exists [EvRead messageLengthLen]. split; [reflexivity|].
    split; [reflexivity|]. repeat constructor. eexists; reflexivity.
  - destruct fuel as [|fuel]; [cbn [length] in Hf; lia|].
    apply Forall_cons in Hs as [[Hid Hpl] Hs]. cbn [fst snd] in Hid, Hpl.
    assert (Hi' : incoming w
                  = (message_bytes id pl ++ frames skipped)%list :: []).
    { rewrite Hi, frames_cons. unfold arrived.
      destruct (message_bytes id pl ++ frames skipped)%list eqn:Hm;
        [discriminate Hm|reflexivity]. }
    cbn [waitPeerMessage_fuel]. unfold io_bind at 1.
    rewrite (waitPeerMessage_turn_frame expid id pl _ [] w Hpl Hi').
    destruct (Byte.eqb id expid) eqn:He;
      [apply Byte.byte_dec_bl in He; now destruct Hid|].
    destruct (IH fuel
                (after_reads w (arrived (frames skipped) [])
                   [EvRead (Z.of_nat (length pl)); EvRead 1; EvRead 4]))
      as (evs & Hrun & Hlen & Hev).
    + cbn [length] in Hf. lia.
    + exact Hs.
    + reflexivity.
    + rewrite Hrun, after_reads_twice. eexists. split; [reflexivity|].
      split.
      * rewrite length_app, Hlen. cbn [length]. lia.
      * apply Forall_app. split; [exact Hev|].
        repeat constructor; eexists; reflexivity.
Qed.

(** X17: [waitPeerMessage] ends with [io.EOF] when the stream ends before a
    message of the awaited id.  On a stream that holds only whole messages
    of other ids, it reads each of them, three reads for each, and returns
    the error of the read that finds nothing more; it does not wait
    forever. *)
Theorem waitPeerMessage_eof (expid : byte)
    (skipped : list (byte * list byte)) (w : world) :
  Forall (fun m => m.1 <> expid /\ Z.of_nat (length m.2) < 2 ^ 32 - 1)
         skipped ->
  incoming w = arrived (frames skipped) [] ->
  exists evs,
    waitPeerMessage expid w = (Err ErrEOF, after_reads w [] evs)
    /\ length evs = (3 * length skipped + 1)%nat
    /\ Forall (fun e => exists n, e = EvRead n) evs.
Proof.
  intros Hs Hi. unfold waitPeerMessage.
  apply waitPeerMessage_fuel_eof; try assumption.
  unfold pending. rewrite Hi. pose proof (length_frames skipped) as Hl.
  unfold arrived. destruct (frames skipped) as [|b l] eqn:Hfr.
  - cbn [length] in Hl. lia.
  - cbn [map]. unfold list_sum. cbn [fold_right]. lia.
Qed.

Lemma waitPeerMessage_eof_witness :
  exists evs,
    waitPeerMessage piece
      (fresh_world (arrived (frames [(bitfield, [xff]); (unchoke, [])]) []))
    = (Err ErrEOF,
       after_reads
         (fresh_world (arrived (frames [(bitfield, [xff]); (unchoke, [])]) []))
         [] evs)
    /\ length evs = (3 * length [(bitfield, [xff]); (unchoke, @nil byte)] + 1)%nat
    /\ Forall (fun e => exists n, e = EvRead n) evs.
Proof.
  apply (waitPeerMessage_eof piece [(bitfield, [xff]); (unchoke, [])]).
  - repeat constructor; cbn; try discriminate; lia.
  - reflexivity.
Defined.
